(** * RTK rover firmware: frame decoder, bus transport, correction client
      and network selection

    A shallow embedding of the pure and state-passing parts of
    [zed_rover.c], [ntrip_client.c] and [wifi.c], of the fuel gauge
    ([battery.c]), the status light ([led.c]), the version check of
    [ota_update.c] and one iteration of the rover task of [main.c],
    followed by the properties proved about them.

    Conventions.  A [uint8_t] is a [Z] in [0, 256); buffers are [list Z].
    C [int] values are [Z]; where the source relies on a fixed width the
    wrap-around is written out ([to_int32], [to_uint32], [mod 256]).
    [double] and [float] values are IEEE-754 binary64 and binary32 numbers
    of [SpecFloat], with round-to-nearest-even as on the target.  Calls into
    the I2C driver, the socket layer and the tick counter are modelled by
    passing their outcome to the function that performs them. *)

From Stdlib Require Import String Ascii.
From Stdlib Require Import ZArith List Bool Lia QArith Qabs.
From Stdlib Require Import SpecFloat.
Import ListNotations.

Local Open Scope Z_scope.

(** ** Bytes and buffers *)

Definition byte_ok (b : Z) : Prop := 0 <= b < 256.
Definition bytes_ok (l : list Z) : Prop := Forall byte_ok l.

(** [buf[i]] for a buffer held as a list. *)
Definition byte_at (buf : list Z) (i : Z) : Z := nth (Z.to_nat i) buf 0.

(** The [n] bytes of [buf] starting at offset [off] (the C idiom
    [&buf[off]] together with a length). *)
Definition sub (buf : list Z) (off n : Z) : list Z :=
  firstn (Z.to_nat n) (skipn (Z.to_nat off) buf).

Definition len (buf : list Z) : Z := Z.of_nat (length buf).

(** Conversions to the fixed-width integer types used by the source. *)
Definition to_uint32 (z : Z) : Z := z mod 2 ^ 32.
Definition to_int32 (z : Z) : Z := (z + 2 ^ 31) mod 2 ^ 32 - 2 ^ 31.

(** ** IEEE-754 arithmetic of the target ([double] and [float]) *)

Module Ieee.

Definition double := spec_float.
Definition single := spec_float.

Definition d_of_Z (z : Z) : double := binary_normalize 53 1024 z 0 false.
Definition d_mul (x y : double) : double := SFmul 53 1024 x y.
Definition d_div (x y : double) : double := SFdiv 53 1024 x y.

Definition f_of_Z (z : Z) : single := binary_normalize 24 128 z 0 false.
Definition f_div (x y : single) : single := SFdiv 24 128 x y.

(** The literal [1e-7]: the binary64 number nearest to 10^-7. *)
Definition d_1e_7 : double := Eval vm_compute in d_div (d_of_Z 1) (d_of_Z 10000000).
(** The literals [1000.0] and [1000.0f]. *)
Definition d_1000 : double := Eval vm_compute in d_of_Z 1000.
Definition f_1000 : single := Eval vm_compute in f_of_Z 1000.

(** The rational number a finite float stands for. *)
Definition to_Q (x : spec_float) : option Q :=
  match x with
  | S754_zero _ => Some 0%Q
  | S754_finite s m e =>
      let mag := (if 0 <=? e
                  then inject_Z (Z.pos m * 2 ^ e)
                  else Qmake (Z.pos m) (Z.to_pos (2 ^ (- e))))%Z in
      Some (if s then Qopp mag else mag)
  | _ => None
  end.

(** [within x q eps]: [x] is finite and [|x - q| <= eps]. *)
Definition within (x : spec_float) (q eps : Q) : bool :=
  match to_Q x with
  | Some v => Qle_bool (Qabs (v - q)) eps
  | None => false
  end.

(** The signed mantissa of a float. *)
Definition signed (s : bool) (m : positive) : Z :=
  if s then Z.neg m else Z.pos m.

End Ieee.

(** ** [zed_rover.c]: receiver driver *)

Module ZedRover.

Definition UBX_SYNC1 : Z := 0xB5.
Definition UBX_SYNC2 : Z := 0x62.
Definition UBX_CLASS_NAV : Z := 0x01.
Definition UBX_NAV_PVT : Z := 0x07.

(** Capacity of [ubx_buffer] and of [temp_buf]. *)
Definition UBX_BUFFER_SIZE : Z := 256.

(** *** [ubx_checksum] *)

(** The loop of [ubx_checksum] with the two [uint8_t] accumulators. *)
Fixpoint ubx_checksum_from (data : list Z) (ck_a ck_b : Z) : Z * Z :=
  match data with
  | [] => (ck_a, ck_b)
  | d :: data' =>
      let ck_a := (ck_a + d) mod 256 in
      let ck_b := (ck_b + ck_a) mod 256 in
      ubx_checksum_from data' ck_a ck_b
  end.

Definition ubx_checksum (data : list Z) : Z * Z := ubx_checksum_from data 0 0.

(** *** [zed_rover_available] and [zed_rover_read] *)

(** Outcome of the two-byte register read: [None] when the driver does
    not return [ESP_OK], otherwise the bytes [len_bytes[0]],
    [len_bytes[1]]. *)
Definition len_reply := option (Z * Z).

Definition zed_rover_available (reply : len_reply) : Z :=
  match reply with
  | None => -1
  | Some (b0, b1) =>
      let available := Z.lor (Z.shiftl b0 8) b1 in
      if available =? 0xFFFF then 0 else available
  end.

(** Outcome of the data-stream read: [None] on a driver error, otherwise
    the bytes the receiver supplies (the driver stores the first
    [to_read] of them). *)
Definition data_reply := option (list Z).

Definition zed_rover_read (reply : len_reply) (data : data_reply)
           (max_len : Z) : Z * list Z :=
  let available := zed_rover_available reply in
  if available <=? 0 then (available, [])
  else
    let to_read := if available <? max_len then available else max_len in
    match data with
    | None => (-1, [])
    | Some bytes => (to_read, firstn (Z.to_nat to_read) bytes)
    end.

(** *** [zed_position_t] *)

Record zed_position_t := {
  year : Z; month : Z; day : Z; hour : Z; min : Z; sec : Z;
  fix_type : Z; carr_soln : Z; num_sv : Z;
  latitude : Ieee.double; longitude : Ieee.double;
  altitude_msl : Ieee.double;
  h_acc : Ieee.single; v_acc : Ieee.single;
  valid : bool
}.

(** The result of [memset(pos, 0, sizeof *pos)]. *)
Definition position_zero : zed_position_t :=
  {| year := 0; month := 0; day := 0; hour := 0; min := 0; sec := 0;
     fix_type := 0; carr_soln := 0; num_sv := 0;
     latitude := S754_zero false; longitude := S754_zero false;
     altitude_msl := S754_zero false;
     h_acc := S754_zero false; v_acc := S754_zero false;
     valid := false |}.

(** [p[k] | (p[k+1] << 8) | (p[k+2] << 16) | (p[k+3] << 24)]. *)
Definition le32 (p : list Z) (k : Z) : Z :=
  Z.lor (Z.lor (Z.lor (byte_at p k) (Z.shiftl (byte_at p (k + 1)) 8))
               (Z.shiftl (byte_at p (k + 2)) 16))
        (Z.shiftl (byte_at p (k + 3)) 24).

(** The body of the NAV-PVT branch, on the payload [p = &ubx_buffer[i+6]]. *)
Definition decode_nav_pvt (p : list Z) : zed_position_t :=
  let valid_flags := byte_at p 11 in
  let fixType := byte_at p 20 in
  let flags := byte_at p 21 in
  let lon_raw := to_int32 (le32 p 24) in
  let lat_raw := to_int32 (le32 p 28) in
  let alt_raw := to_int32 (le32 p 36) in
  let h_acc_raw := to_uint32 (le32 p 40) in
  let v_acc_raw := to_uint32 (le32 p 44) in
  {| year := Z.lor (byte_at p 4) (Z.shiftl (byte_at p 5) 8);
     month := byte_at p 6;
     day := byte_at p 7;
     hour := byte_at p 8;
     min := byte_at p 9;
     sec := byte_at p 10;
     fix_type := fixType;
     carr_soln := Z.land (Z.shiftr flags 6) 0x03;
     num_sv := byte_at p 23;
     longitude := Ieee.d_mul (Ieee.d_of_Z lon_raw) Ieee.d_1e_7;
     latitude := Ieee.d_mul (Ieee.d_of_Z lat_raw) Ieee.d_1e_7;
     altitude_msl := Ieee.d_div (Ieee.d_of_Z alt_raw) Ieee.d_1000;
     h_acc := Ieee.f_div (Ieee.f_of_Z h_acc_raw) Ieee.f_1000;
     v_acc := Ieee.f_div (Ieee.f_of_Z v_acc_raw) Ieee.f_1000;
     valid := negb (Z.land valid_flags 0x01 =? 0) && (2 <=? fixType) |}.

(** *** [zed_rover_get_position] *)

(** How the search loop ends: [Found pos buf] is the [return true] with
    [*pos] filled in and [buf] left in the accumulator; [NotFound buf] is
    leaving the loop (its condition fails, or [break]) with [buf] in the
    accumulator. *)
Inductive scan_result :=
| Found (pos : zed_position_t) (buf : list Z)
| NotFound (buf : list Z).

(** The [for] loop, entered at index [i] with accumulator [ubx_buffer]
    ([ubx_buffer_len] is its length).  One unit of [fuel] is spent per
    iteration; [None] means the fuel ran out.  The [memmove] of the tail to
    the front followed by [i = -1] and the loop's [i++] restarts at index
    0 of the tail. *)
Fixpoint scan (fuel : nat) (ubx_buffer : list Z) (i : Z) : option scan_result :=
  match fuel with
  | O => None
  | S fuel =>
      let ubx_buffer_len := len ubx_buffer in
      if i <? ubx_buffer_len - 8 then
        if (byte_at ubx_buffer i =? UBX_SYNC1)
           && (byte_at ubx_buffer (i + 1) =? UBX_SYNC2) then
          let msg_class := byte_at ubx_buffer (i + 2) in
          let msg_id := byte_at ubx_buffer (i + 3) in
          let payload_len :=
            Z.lor (byte_at ubx_buffer (i + 4))
                  (Z.shiftl (byte_at ubx_buffer (i + 5)) 8) in
          let msg_total_len := 6 + payload_len + 2 in
          if i + msg_total_len >? ubx_buffer_len then
            Some (NotFound ubx_buffer)
          else
            let '(ck_a, ck_b) :=
              ubx_checksum (sub ubx_buffer (i + 2) (4 + payload_len)) in
            if negb (ck_a =? byte_at ubx_buffer (i + 6 + payload_len))
               || negb (ck_b =? byte_at ubx_buffer (i + 7 + payload_len)) then
              scan fuel ubx_buffer (i + 1)
            else if (msg_class =? UBX_CLASS_NAV) && (msg_id =? UBX_NAV_PVT)
                    && (payload_len =? 92) then
              let p := sub ubx_buffer (i + 6) payload_len in
              Some (Found (decode_nav_pvt p)
                          (skipn (Z.to_nat (i + msg_total_len)) ubx_buffer))
            else
              scan fuel (skipn (Z.to_nat (i + msg_total_len)) ubx_buffer) 0
        else scan fuel ubx_buffer (i + 1)
      else Some (NotFound ubx_buffer)
  end.

(** Fuel that always suffices for a loop entered at index 0. *)
Definition scan_fuel (ubx_buffer : list Z) : nat := S (length ubx_buffer).

(** One poll of the bus as [zed_rover_get_position] sees it: the length
    register as read by its own call of [zed_rover_available], the length
    register as read again inside [zed_rover_read], and the data-stream
    read. *)
Record bus_poll := {
  poll_len : len_reply;
  read_len_reply : len_reply;
  read_data : data_reply
}.

(** What the function hands back: its return value, [*pos], and the
    accumulator it leaves behind. *)
Record get_position_result := {
  ret : bool;
  pos_out : zed_position_t;
  buffer_out : list Z
}.

Definition no_position (ubx_buffer : list Z) : get_position_result :=
  {| ret := false; pos_out := position_zero; buffer_out := ubx_buffer |}.

(** The function from the append on, with [read_len] bytes in [temp_buf]. *)
Definition parse_appended (ubx_buffer temp_buf : list Z) (read_len : Z)
  : option get_position_result :=
  let ubx_buffer_len := len ubx_buffer in
  let copy_len := if read_len <? UBX_BUFFER_SIZE - ubx_buffer_len
                  then read_len else UBX_BUFFER_SIZE - ubx_buffer_len in
  let ubx_buffer := ubx_buffer ++ firstn (Z.to_nat copy_len) temp_buf in
  match scan (scan_fuel ubx_buffer) ubx_buffer 0 with
  | None => None
  | Some (Found pos ubx_buffer) =>
      Some {| ret := true; pos_out := pos; buffer_out := ubx_buffer |}
  | Some (NotFound ubx_buffer) =>
      Some (no_position (if len ubx_buffer >? 200 then [] else ubx_buffer))
  end.

Definition zed_rover_get_position (bus : bus_poll) (ubx_buffer : list Z)
  : option get_position_result :=
  let avail := zed_rover_available (poll_len bus) in
  if avail <=? 0 then Some (no_position ubx_buffer)
  else
    let '(read_len, temp_buf) :=
      zed_rover_read (read_len_reply bus) (read_data bus) UBX_BUFFER_SIZE in
    if read_len <=? 0 then Some (no_position ubx_buffer)
    else parse_appended ubx_buffer temp_buf read_len.

(** *** The decoder's feed operation

    [feed buf new_bytes] is one call of [zed_rover_get_position] on a bus
    whose receiver holds exactly [new_bytes]: both reads of the length
    register report their number, big-endian, and the data read returns
    them. *)
Definition bus_with (new_bytes : list Z) : bus_poll :=
  let n := len new_bytes in
  {| poll_len := Some (n / 256, n mod 256);
     read_len_reply := Some (n / 256, n mod 256);
     read_data := Some new_bytes |}.

Definition feed (ubx_buffer new_bytes : list Z) : option get_position_result :=
  zed_rover_get_position (bus_with new_bytes) ubx_buffer.

(** Successive calls of [feed], one per chunk.  The result lists what each
    call returned and ends with the accumulator left by the last one. *)
Fixpoint feed_all (ubx_buffer : list Z) (chunks : list (list Z))
  : option (list (bool * zed_position_t) * list Z) :=
  match chunks with
  | [] => Some ([], ubx_buffer)
  | c :: chunks =>
      match feed ubx_buffer c with
      | None => None
      | Some r =>
          match feed_all (buffer_out r) chunks with
          | None => None
          | Some (outs, final) => Some ((ret r, pos_out r) :: outs, final)
          end
      end
  end.

(** *** Frames on the wire *)

(** The bytes of a frame with the given class, id, payload and checksum
    bytes: sync marker, class, id, little-endian payload length, payload,
    checksum. *)
Definition frame_bytes (cls id : Z) (payload : list Z) (ck_a ck_b : Z) : list Z :=
  [UBX_SYNC1; UBX_SYNC2; cls; id; len payload mod 256; len payload / 256]
    ++ payload ++ [ck_a; ck_b].

(** The bytes the checksum covers: class, id, length, payload. *)
Definition checksummed (cls id : Z) (payload : list Z) : list Z :=
  [cls; id; len payload mod 256; len payload / 256] ++ payload.

(** A well-formed frame: the checksum bytes are the ones [ubx_checksum]
    computes. *)
Definition frame (cls id : Z) (payload : list Z) : list Z :=
  let '(ck_a, ck_b) := ubx_checksum (checksummed cls id payload) in
  frame_bytes cls id payload ck_a ck_b.

(** A well-formed target fix frame (NAV-PVT) around [payload]. *)
Definition nav_pvt_frame (payload : list Z) : list Z :=
  frame UBX_CLASS_NAV UBX_NAV_PVT payload.

(** *** Reading the accumulator and the payload, as the specification
    words it *)

(** The four payload bytes at offset [k], least significant first, as an
    unsigned number. *)
Definition le_unsigned (p : list Z) (k : Z) : Z :=
  byte_at p k + 256 * byte_at p (k + 1) + 65536 * byte_at p (k + 2)
  + 16777216 * byte_at p (k + 3).

(** The same four bytes as a two's complement number. *)
Definition le_signed (p : list Z) (k : Z) : Z :=
  let u := le_unsigned p k in if u <? 2 ^ 31 then u else u - 2 ^ 32.

(** The payload length announced by the header at offset [i]. *)
Definition payload_len_at (buf : list Z) (i : Z) : Z :=
  Z.lor (byte_at buf (i + 4)) (Z.shiftl (byte_at buf (i + 5)) 8).

(** A complete frame with a matching checksum starts at offset [i]. *)
Definition frame_at (buf : list Z) (i : Z) : Prop :=
  0 <= i
  /\ byte_at buf i = UBX_SYNC1 /\ byte_at buf (i + 1) = UBX_SYNC2
  /\ i + 8 + payload_len_at buf i <= len buf
  /\ ubx_checksum (sub buf (i + 2) (4 + payload_len_at buf i))
     = (byte_at buf (i + 6 + payload_len_at buf i),
        byte_at buf (i + 7 + payload_len_at buf i)).

(** A complete, checksummed target fix frame starts at offset [i]. *)
Definition nav_pvt_at (buf : list Z) (i : Z) : Prop :=
  frame_at buf i
  /\ byte_at buf (i + 2) = UBX_CLASS_NAV /\ byte_at buf (i + 3) = UBX_NAV_PVT
  /\ payload_len_at buf i = 92.

(** The accumulator after the append of [new_bytes], cut at capacity. *)
Definition appended (ubx_buffer new_bytes : list Z) : list Z :=
  ubx_buffer ++ firstn (Z.to_nat (UBX_BUFFER_SIZE - len ubx_buffer)) new_bytes.

(** What a call that returns [false] hands back. *)
Definition no_fix : bool * zed_position_t := (false, position_zero).

(** The search over accumulator [acc] resolves no frame: it ends without
    a fix and without having removed anything. *)
Definition resolves_no_frame (acc : list Z) : Prop :=
  scan (scan_fuel acc) acc 0 = Some (NotFound acc).

(** Well-formed frames one after the other, each given by its class, id
    and payload. *)
Definition frames (fs : list (Z * Z * list Z)) : list Z :=
  concat (map (fun f => frame (fst (fst f)) (snd (fst f)) (snd f)) fs).

(** A frame the search loop decodes: class, id and length of the target
    fix message. *)
Definition is_target (f : Z * Z * list Z) : bool :=
  (fst (fst f) =? UBX_CLASS_NAV) && (snd (fst f) =? UBX_NAV_PVT)
  && (len (snd f) =? 92).

(** *** [zed_rover_write_rtcm] *)

(** [write_ok] tells whether [i2c_master_write_to_device] returns
    [ESP_OK]; the second component lists the writes put on the bus.  The
    [size_t] length is returned as an [int]. *)
Definition zed_rover_write_rtcm (data : list Z) (len : Z) (write_ok : bool)
  : Z * list (list Z) :=
  if len =? 0 then (0, [])
  else if write_ok then (to_int32 len, [firstn (Z.to_nat len) data])
  else (-1, [firstn (Z.to_nat len) data]).

End ZedRover.

(** ** [ntrip_client.c]: correction client *)

Module NtripClient.

Local Open Scope string_scope.
Local Open Scope Z_scope.

Definition ESP_OK : Z := 0.
Definition ESP_FAIL : Z := -1.

(** [errno] values of the socket layer; the two names denote one value. *)
Definition EAGAIN : Z := 11.
Definition EWOULDBLOCK : Z := EAGAIN.

(** *** C strings *)

(** [(unsigned char)s[i]]; reading the terminator or past it gives 0. *)
Definition char_at (s : string) (i : Z) : Z :=
  match String.get (Z.to_nat i) s with
  | Some c => Z.of_N (N_of_ascii c)
  | None => 0
  end.

Definition strlen (s : string) : Z := Z.of_nat (String.length s).

(** The C string held by a character array: its content up to the first
    zero byte. *)
Fixpoint c_string (s : string) : string :=
  match s with
  | EmptyString => EmptyString
  | String c s' => if Ascii.eqb c zero then EmptyString else String c (c_string s')
  end.

(** [strstr(haystack, needle) != NULL]. *)
Fixpoint strstr_found (haystack needle : string) : bool :=
  String.prefix needle haystack
  || match haystack with
     | EmptyString => false
     | String _ rest => strstr_found rest needle
     end.

(** [snprintf(buf, size, ...)] where the formatted text is [text]: the
    array receives at most [size - 1] characters, the return value is the
    length of the whole text. *)
Definition snprintf (size : Z) (text : string) : string * Z :=
  (String.substring 0 (Z.to_nat (size - 1)) text, strlen text).

(** *** [base64_encode] *)

Definition base64_chars : string :=
  "ABCDEFGHIJKLMNOPQRSTUVWXYZabcdefghijklmnopqrstuvwxyz0123456789+/".

(** [base64_chars[k]]. *)
Definition base64_char (k : Z) : ascii :=
  match String.get (Z.to_nat k) base64_chars with
  | Some c => c
  | None => zero
  end.

(** [cond ? input[i++] : 0] as used for the three octets: the value read
    and the index afterwards. *)
Definition next_octet (input : string) (input_len i : Z) : Z * Z :=
  if i <? input_len then (char_at input i, i + 1) else (0, i).

(** The [while] loop, with [output[0..j)] held in [output].  [size_t] is
    32 bits wide on the target.  One unit of [fuel] is spent per
    iteration; [None] means the fuel ran out. *)
Fixpoint base64_loop (fuel : nat) (input : string) (input_len output_len : Z)
         (i j : Z) (output : string) : option string :=
  match fuel with
  | O => None
  | S fuel =>
      if (i <? input_len) && (j <? (output_len - 4) mod 2 ^ 32) then
        let '(octet_a, i) := next_octet input input_len i in
        let '(octet_b, i) := next_octet input input_len i in
        let '(octet_c, i) := next_octet input input_len i in
        let triple := Z.shiftl octet_a 16 + Z.shiftl octet_b 8 + octet_c in
        let c0 := base64_char (Z.land (Z.shiftr triple 18) 0x3F) in
        let c1 := base64_char (Z.land (Z.shiftr triple 12) 0x3F) in
        let c2 := if i >? input_len + 1 then "="%char
                  else base64_char (Z.land (Z.shiftr triple 6) 0x3F) in
        let c3 := if i >? input_len then "="%char
                  else base64_char (Z.land triple 0x3F) in
        base64_loop fuel input input_len output_len i (j + 4)
                    (output ++ String c0 (String c1 (String c2 (String c3 ""))))
      else Some output
  end.

(** The C string left in [output]. *)
Definition base64_encode (input : string) (output_len : Z) : option string :=
  let input_len := strlen input in
  base64_loop (S (String.length input)) input input_len output_len 0 0 "".

(** *** Standard base64 (RFC 4648), for comparison *)

Definition sextet (n : Z) : ascii := base64_char (Z.land n 0x3F).

Definition code (c : ascii) : Z := Z.of_N (N_of_ascii c).

(** Groups of three input bytes give four characters; a final group of
    one or two bytes is completed with ['='] padding. *)
Fixpoint base64_std (input : string) : string :=
  match input with
  | EmptyString => ""
  | String a EmptyString =>
      let t := Z.shiftl (code a) 16 in
      String (sextet (Z.shiftr t 18)) (String (sextet (Z.shiftr t 12)) "==")
  | String a (String b EmptyString) =>
      let t := Z.shiftl (code a) 16 + Z.shiftl (code b) 8 in
      String (sextet (Z.shiftr t 18)) (String (sextet (Z.shiftr t 12))
        (String (sextet (Z.shiftr t 6)) "="))
  | String a (String b (String c rest)) =>
      let t := Z.shiftl (code a) 16 + Z.shiftl (code b) 8 + code c in
      String (sextet (Z.shiftr t 18)) (String (sextet (Z.shiftr t 12))
        (String (sextet (Z.shiftr t 6)) (String (sextet t) (base64_std rest))))
  end.

Local Close Scope string_scope.

(** *** Client state and system calls *)

(** The module-level variables. *)
Record client := {
  s_sock : Z;
  s_connected : bool;
  s_bytes_received : Z;   (* uint32_t *)
  s_last_data_time : Z    (* TickType_t *)
}.

Definition client_init : client :=
  {| s_sock := -1; s_connected := false;
     s_bytes_received := 0; s_last_data_time := 0 |}.

(** Compile-time settings of [config.h]. *)
Record config := {
  NTRIP_HOST : string;
  NTRIP_PORT : Z;
  NTRIP_MOUNTPOINT : string;
  NTRIP_USER : string;
  NTRIP_PASSWORD : string
}.

(** The calls a function makes into the socket layer and the kernel, in
    program order. *)
Inductive syscall :=
| sys_gethostbyname (host : string)
| sys_socket
| sys_setsockopt_rcvtimeo (fd tv_sec tv_usec : Z)
| sys_setsockopt_sndtimeo (fd tv_sec tv_usec : Z)
| sys_connect (fd port : Z)
| sys_send (fd : Z) (request : string) (req_len : Z)
| sys_recv (fd max_len : Z)
| sys_close (fd : Z)
| sys_xTaskGetTickCount.

(** What the outside world answers during one call of
    [ntrip_client_connect]. *)
Record connect_env := {
  host_found : bool;        (* gethostbyname(...) != NULL *)
  socket_ret : Z;           (* socket(...) *)
  connect_ret : Z;          (* connect(...) *)
  send_ret : Z;             (* send(...) *)
  handshake_recv_ret : Z;   (* recv(...) *)
  handshake_bytes : string; (* the bytes recv stored in response *)
  connect_tick : Z          (* xTaskGetTickCount() *)
}.

(** What a function yields: return value, state left behind, calls made. *)
Definition outcome : Type := Z * client * list syscall.

Definition CRLF : string := String "013" (String "010" "").

(** The request text of the two [snprintf] calls. *)
Definition request_text (cfg : config) (auth_base64 : option string) : string :=
  ("GET /" ++ NTRIP_MOUNTPOINT cfg ++ " HTTP/1.1" ++ CRLF
   ++ "Host: " ++ NTRIP_HOST cfg ++ CRLF
   ++ "User-Agent: NTRIP TestClient/1.0" ++ CRLF
   ++ "Ntrip-Version: Ntrip/2.0" ++ CRLF
   ++ match auth_base64 with
      | Some b => "Authorization: Basic " ++ b ++ CRLF
      | None => ""
      end
   ++ CRLF)%string.

(** [request] and [req_len] as built by [ntrip_client_connect]; [None]
    only if the encoder's loop ran out of fuel. *)
Definition build_request (cfg : config) : option (string * Z) :=
  if (strlen (NTRIP_USER cfg) >? 0) && (strlen (NTRIP_PASSWORD cfg) >? 0) then
    let '(credentials, _) :=
      snprintf 128 (NTRIP_USER cfg ++ ":" ++ NTRIP_PASSWORD cfg)%string in
    match base64_encode (c_string credentials) 256 with
    | None => None
    | Some auth_base64 => Some (snprintf 512 (request_text cfg (Some auth_base64)))
    end
  else Some (snprintf 512 (request_text cfg None)).

(** *** [ntrip_client_connect] *)

Definition ntrip_client_connect (cfg : config) (env : connect_env) (st : client)
  : option outcome :=
  if s_connected st then Some (ESP_OK, st, [])
  else
    let t := [sys_gethostbyname (NTRIP_HOST cfg)] in
    if negb (host_found env) then Some (ESP_FAIL, st, t)
    else
      let sock := socket_ret env in
      let st := {| s_sock := sock; s_connected := s_connected st;
                   s_bytes_received := s_bytes_received st;
                   s_last_data_time := s_last_data_time st |} in
      let t := t ++ [sys_socket] in
      if sock <? 0 then Some (ESP_FAIL, st, t)
      else
        let t := t ++ [sys_setsockopt_rcvtimeo sock 10 0;
                       sys_setsockopt_sndtimeo sock 10 0;
                       sys_connect sock (NTRIP_PORT cfg)] in
        let closed := {| s_sock := -1; s_connected := s_connected st;
                         s_bytes_received := s_bytes_received st;
                         s_last_data_time := s_last_data_time st |} in
        if negb (connect_ret env =? 0) then
          Some (ESP_FAIL, closed, t ++ [sys_close sock])
        else
          match build_request cfg with
          | None => None
          | Some (request, req_len) =>
              let t := t ++ [sys_send sock request req_len] in
              if send_ret env <? 0 then
                Some (ESP_FAIL, closed, t ++ [sys_close sock])
              else
                let t := t ++ [sys_recv sock 511] in
                let len := handshake_recv_ret env in
                if len <? 0 then
                  Some (ESP_FAIL, closed, t ++ [sys_close sock])
                else
                  let response :=
                    c_string (String.substring 0 (Z.to_nat len) (handshake_bytes env)) in
                  if strstr_found response "200" || strstr_found response "ICY" then
                    Some (ESP_OK,
                          {| s_sock := sock; s_connected := true;
                             s_bytes_received := s_bytes_received st;
                             s_last_data_time := connect_tick env |},
                          t ++ [sys_xTaskGetTickCount;
                                sys_setsockopt_rcvtimeo sock 0 100000])
                  else
                    Some (ESP_FAIL, closed, t ++ [sys_close sock])
          end.

(** *** [ntrip_client_disconnect] *)

Definition ntrip_client_disconnect (st : client) : client * list syscall :=
  let '(sock, t) := if 0 <=? s_sock st then (-1, [sys_close (s_sock st)])
                    else (s_sock st, []) in
  ({| s_sock := sock; s_connected := false;
      s_bytes_received := s_bytes_received st;
      s_last_data_time := s_last_data_time st |}, t).

(** *** [ntrip_client_receive] *)

(** What [recv] answers: its return value and, when that is negative,
    [errno]. *)
Record recv_reply := { received : Z; errno : Z }.

Definition disconnected (st : client) : client :=
  {| s_sock := -1; s_connected := false;
     s_bytes_received := s_bytes_received st;
     s_last_data_time := s_last_data_time st |}.

Definition ntrip_client_receive (max_len : Z) (r : recv_reply) (tick : Z)
           (st : client) : outcome :=
  if negb (s_connected st) || (s_sock st <? 0) then (-1, st, [])
  else
    let t := [sys_recv (s_sock st) max_len] in
    if received r <? 0 then
      if (errno r =? EAGAIN) || (errno r =? EWOULDBLOCK) then (0, st, t)
      else (-1, disconnected st, t ++ [sys_close (s_sock st)])
    else if received r =? 0 then
      (-1, disconnected st, t ++ [sys_close (s_sock st)])
    else
      (received r,
       {| s_sock := s_sock st; s_connected := s_connected st;
          s_bytes_received := (s_bytes_received st + received r) mod 2 ^ 32;
          s_last_data_time := tick |},
       t ++ [sys_xTaskGetTickCount]).

(** *** [ntrip_client_is_stale] and [ntrip_client_check_stale] *)

Definition NTRIP_STALE_TIMEOUT_MS : Z := 15000.

(** [pdMS_TO_TICKS] for a kernel running at [tick_rate_hz]. *)
Definition pdMS_TO_TICKS (tick_rate_hz ms : Z) : Z := ms * tick_rate_hz / 1000.

Definition ntrip_client_is_stale (tick_rate_hz tick : Z) (st : client) : bool :=
  if negb (s_connected st) then false
  else
    let elapsed := (tick - s_last_data_time st) mod 2 ^ 32 in
    elapsed >? pdMS_TO_TICKS tick_rate_hz NTRIP_STALE_TIMEOUT_MS.

(** The call [ntrip_client_is_stale] makes: it reads the tick counter
    unless the client is disconnected. *)
Definition ntrip_client_is_stale_calls (st : client) : list syscall :=
  if negb (s_connected st) then [] else [sys_xTaskGetTickCount].

Definition ntrip_client_check_stale (tick_rate_hz tick : Z) (st : client)
  : client * list syscall :=
  let t := ntrip_client_is_stale_calls st in
  if ntrip_client_is_stale tick_rate_hz tick st then
    let '(st, t') := ntrip_client_disconnect st in (st, t ++ t')
  else (st, t).

(** *** States the client can be in

    Every state the module-level variables can take: the initial one, and
    whatever a call of one of the functions leaves behind.  A successful
    [socket()] hands out a non-negative descriptor. *)
Inductive reachable : client -> Prop :=
| reach_init : reachable client_init
| reach_connect cfg env st r st' t :
    reachable st ->
    (0 <= socket_ret env \/ socket_ret env = -1) ->
    ntrip_client_connect cfg env st = Some (r, st', t) ->
    reachable st'
| reach_disconnect st :
    reachable st -> reachable (fst (ntrip_client_disconnect st))
| reach_receive max_len r tick st :
    reachable st ->
    reachable (snd (fst (ntrip_client_receive max_len r tick st)))
| reach_check_stale hz tick st :
    reachable st -> reachable (fst (ntrip_client_check_stale hz tick st)).

(** The session state of the specification. *)
Inductive session := Disconnected | Streaming.

Definition session_of (st : client) : session :=
  if s_connected st then Streaming else Disconnected.

(** A state reached by one successful [ntrip_client_connect]. *)
Definition streaming_example : client :=
  {| s_sock := 3; s_connected := true;
     s_bytes_received := 0; s_last_data_time := 1000 |}.

(** *** Reading a call trace and a handshake *)

Definition is_close (c : syscall) : bool :=
  match c with sys_close _ => true | _ => false end.

(** The test [ntrip_client_connect] applies to the caster's first answer:
    the text up to the first zero byte contains "200" or "ICY". *)
Definition handshake_accepted (env : connect_env) : bool :=
  let response :=
    c_string (String.substring 0 (Z.to_nat (handshake_recv_ret env))
                               (handshake_bytes env)) in
  strstr_found response "200" || strstr_found response "ICY".

(** Every step of the connection attempt succeeds. *)
Definition link_established (env : connect_env) : bool :=
  host_found env && (0 <=? socket_ret env) && (connect_ret env =? 0)
  && (0 <=? send_ret env) && (0 <=? handshake_recv_ret env)
  && handshake_accepted env.

(** The characters of the encoder's alphabet. *)
Definition base64_alphabet : list ascii := list_ascii_of_string base64_chars.

End NtripClient.

(** ** [wifi.c]: choice of the network to join *)

Module Wifi.

(** An entry of the table [wifi_networks]. *)
Record wifi_network_t := { net_ssid : string; net_password : string }.

(** The fields of [wifi_ap_record_t] the selection reads; [rssi] is an
    [int8_t]. *)
Record wifi_ap_record_t := { ssid : string; rssi : Z }.

(** The inner [for] loop over [wifi_networks], entered at index [j]:
    [Some network_idx] when [is_known] ends up true. *)
Fixpoint known_from (wifi_networks : list wifi_network_t) (j : Z) (s : string)
  : option Z :=
  match wifi_networks with
  | [] => None
  | n :: rest =>
      if String.eqb s (net_ssid n) then Some j
      else known_from rest (j + 1) s
  end.

Definition known_network (wifi_networks : list wifi_network_t) (s : string)
  : option Z := known_from wifi_networks 0 s.

(** The outer [for] loop over the scan records, carrying [best_idx] and
    [best_rssi]. *)
Fixpoint best_from (wifi_networks : list wifi_network_t) (WIFI_RSSI_THRESHOLD : Z)
         (ap_records : list wifi_ap_record_t) (best_idx best_rssi : Z) : Z * Z :=
  match ap_records with
  | [] => (best_idx, best_rssi)
  | ap :: rest =>
      match known_network wifi_networks (ssid ap) with
      | Some network_idx =>
          if (rssi ap >? best_rssi) && (rssi ap >=? WIFI_RSSI_THRESHOLD) then
            best_from wifi_networks WIFI_RSSI_THRESHOLD rest network_idx (rssi ap)
          else
            best_from wifi_networks WIFI_RSSI_THRESHOLD rest best_idx best_rssi
      | None =>
          best_from wifi_networks WIFI_RSSI_THRESHOLD rest best_idx best_rssi
      end
  end.

(** [find_best_network]: an index into [wifi_networks], or -1. *)
Definition find_best_network (wifi_networks : list wifi_network_t)
           (WIFI_RSSI_THRESHOLD : Z) (ap_records : list wifi_ap_record_t) : Z :=
  fst (best_from wifi_networks WIFI_RSSI_THRESHOLD ap_records (-1) (-127)).

(** *** The selection as the specification words it *)

(** A scan entry is a candidate when its identifier matches a known
    profile and its signal strength meets the threshold. *)
Definition candidate (wifi_networks : list wifi_network_t) (threshold : Z)
           (ap : wifi_ap_record_t) : Prop :=
  known_network wifi_networks (ssid ap) <> None /\ threshold <= rssi ap.

(** [pre ++ ap :: post] splits the scan results at the entry the
    specification selects: a candidate at least as strong as every later
    candidate and strictly stronger than every earlier one. *)
Definition selected (wifi_networks : list wifi_network_t) (threshold : Z)
           (pre : list wifi_ap_record_t) (ap : wifi_ap_record_t)
           (post : list wifi_ap_record_t) : Prop :=
  candidate wifi_networks threshold ap
  /\ (forall ap', In ap' pre -> candidate wifi_networks threshold ap' ->
                  rssi ap' < rssi ap)
  /\ (forall ap', In ap' post -> candidate wifi_networks threshold ap' ->
                  rssi ap' <= rssi ap).

(** The sentinel [best_rssi] starts from. *)
Definition RSSI_FLOOR : Z := -127.

(** A candidate the loop can take: one strictly above the sentinel. *)
Definition eligible (wifi_networks : list wifi_network_t) (threshold : Z)
           (ap : wifi_ap_record_t) : Prop :=
  candidate wifi_networks threshold ap /\ RSSI_FLOOR < rssi ap.

Definition selected_eligible (wifi_networks : list wifi_network_t) (threshold : Z)
           (pre : list wifi_ap_record_t) (ap : wifi_ap_record_t)
           (post : list wifi_ap_record_t) : Prop :=
  eligible wifi_networks threshold ap
  /\ (forall ap', In ap' pre -> eligible wifi_networks threshold ap' ->
                  rssi ap' < rssi ap)
  /\ (forall ap', In ap' post -> eligible wifi_networks threshold ap' ->
                  rssi ap' <= rssi ap).

(** What [best_idx] and [best_rssi] say about the scan records [seen] by
    the loop so far: either none of them can be taken, or the current
    choice is the selected one among them. *)
Definition loop_invariant (nets : list wifi_network_t) (threshold : Z)
           (seen : list wifi_ap_record_t) (best_idx best_rssi : Z) : Prop :=
  (best_idx = -1 /\ best_rssi = RSSI_FLOOR
   /\ forall ap, In ap seen -> ~ eligible nets threshold ap)
  \/ (exists pre ap post,
        seen = pre ++ ap :: post
        /\ selected_eligible nets threshold pre ap post
        /\ known_network nets (ssid ap) = Some best_idx
        /\ best_rssi = rssi ap).

(** *** Connection state and events *)

(** Event group bits. *)
Definition WIFI_CONNECTED_BIT : Z := 1.
Definition WIFI_FAIL_BIT : Z := 2.
Definition WIFI_SCAN_DONE_BIT : Z := 4.

(** The module-level variables; [event_bits] holds the bits of
    [s_wifi_event_group]. *)
Record wifi_state := {
  event_bits : Z;
  s_retry_num : Z;
  s_connected : bool;
  s_current_network_idx : Z;
  s_connected_ssid : string
}.

Definition wifi_start : wifi_state :=
  {| event_bits := 0; s_retry_num := 0; s_connected := false;
     s_current_network_idx := -1; s_connected_ssid := EmptyString |}.

(** The events [event_handler] is registered for: those of [WIFI_EVENT]
    (the last one standing for every id the [switch] has no case for),
    and [IP_EVENT_STA_GOT_IP]. *)
Inductive wifi_event :=
| WIFI_EVENT_STA_START
| WIFI_EVENT_SCAN_DONE
| WIFI_EVENT_STA_DISCONNECTED
| WIFI_EVENT_other
| IP_EVENT_STA_GOT_IP.

(** Calls into the WiFi driver, in program order. *)
Inductive wifi_call :=
| esp_wifi_connect
| esp_wifi_disconnect
| esp_wifi_scan_start
| esp_wifi_set_config (sta_ssid sta_password : string).

Definition xEventGroupSetBits (bits : Z) (st : wifi_state) : wifi_state :=
  {| event_bits := Z.lor (event_bits st) bits;
     s_retry_num := s_retry_num st; s_connected := s_connected st;
     s_current_network_idx := s_current_network_idx st;
     s_connected_ssid := s_connected_ssid st |}.

Definition xEventGroupClearBits (bits : Z) (st : wifi_state) : wifi_state :=
  {| event_bits := Z.land (event_bits st) (Z.lnot bits);
     s_retry_num := s_retry_num st; s_connected := s_connected st;
     s_current_network_idx := s_current_network_idx st;
     s_connected_ssid := s_connected_ssid st |}.

(** [WIFI_MAXIMUM_RETRY] is a setting of [config.h]. *)
Definition event_handler (WIFI_MAXIMUM_RETRY : Z) (ev : wifi_event)
           (st : wifi_state) : wifi_state * list wifi_call :=
  match ev with
  | WIFI_EVENT_STA_START => (xEventGroupSetBits WIFI_SCAN_DONE_BIT st, [])
  | WIFI_EVENT_SCAN_DONE => (xEventGroupSetBits WIFI_SCAN_DONE_BIT st, [])
  | WIFI_EVENT_STA_DISCONNECTED =>
      let st := {| event_bits := event_bits st;
                   s_retry_num := s_retry_num st; s_connected := false;
                   s_current_network_idx := s_current_network_idx st;
                   s_connected_ssid := EmptyString |} in
      if s_retry_num st <? WIFI_MAXIMUM_RETRY then
        ({| event_bits := event_bits st;
            s_retry_num := to_int32 (s_retry_num st + 1);
            s_connected := s_connected st;
            s_current_network_idx := s_current_network_idx st;
            s_connected_ssid := s_connected_ssid st |}, [esp_wifi_connect])
      else
        (xEventGroupSetBits WIFI_FAIL_BIT
           {| event_bits := event_bits st;
              s_retry_num := 0; s_connected := s_connected st;
              s_current_network_idx := s_current_network_idx st;
              s_connected_ssid := s_connected_ssid st |}, [])
  | WIFI_EVENT_other => (st, [])
  | IP_EVENT_STA_GOT_IP =>
      (xEventGroupSetBits WIFI_CONNECTED_BIT
         {| event_bits := event_bits st;
            s_retry_num := 0; s_connected := true;
            s_current_network_idx := s_current_network_idx st;
            s_connected_ssid := s_connected_ssid st |}, [])
  end.

(** A run of events, each handled in turn. *)
Fixpoint handle_all (WIFI_MAXIMUM_RETRY : Z) (evs : list wifi_event)
         (st : wifi_state) : wifi_state * list wifi_call :=
  match evs with
  | [] => (st, [])
  | ev :: evs =>
      let '(st, calls) := event_handler WIFI_MAXIMUM_RETRY ev st in
      let '(st, calls') := handle_all WIFI_MAXIMUM_RETRY evs st in
      (st, calls ++ calls')
  end.

(** *** [wifi_is_connected] and [wifi_get_ssid] *)

Definition wifi_is_connected (st : wifi_state) : bool := s_connected st.
Definition wifi_get_ssid (st : wifi_state) : string := s_connected_ssid st.

(** *** [wifi_scan_and_connect] *)

(** [strncpy(dst, src, n)] into an array whose bytes from [n] on are
    zero: the C string left in [dst]. *)
Definition strncpy (src : string) (n : Z) : string :=
  String.substring 0 (Z.to_nat n) src.

(** Sizes of [s_connected_ssid] and of the [ssid] and [password] fields
    of [wifi_sta_config_t]. *)
Definition SSID_BUF : Z := 33.
Definition STA_SSID_LEN : Z := 32.
Definition STA_PASSWORD_LEN : Z := 64.

(** What the driver answers during one call: the result of
    [esp_wifi_scan_start], the count given by [esp_wifi_scan_get_ap_num],
    whether [malloc] succeeds, and the records stored by
    [esp_wifi_scan_get_ap_records] (which also sets [ap_count] to their
    number). *)
Record scan_env := {
  scan_start_ret : Z;
  ap_num : Z;
  malloc_ok : bool;
  scan_records : list wifi_ap_record_t
}.

Definition wifi_scan_and_connect (wifi_networks : list wifi_network_t)
           (WIFI_RSSI_THRESHOLD : Z) (env : scan_env) (st : wifi_state)
  : wifi_state * list wifi_call :=
  let t := [esp_wifi_disconnect] in
  let st := xEventGroupClearBits WIFI_SCAN_DONE_BIT st in
  let t := t ++ [esp_wifi_scan_start] in
  if negb (scan_start_ret env =? 0) then (st, t)
  else
    (* xEventGroupWaitBits(..., WIFI_SCAN_DONE_BIT, pdTRUE, ...) *)
    let st := xEventGroupClearBits WIFI_SCAN_DONE_BIT st in
    if ap_num env =? 0 then (st, t)
    else if negb (malloc_ok env) then (st, t)
    else
      let best_idx :=
        find_best_network wifi_networks WIFI_RSSI_THRESHOLD (scan_records env) in
      if best_idx <? 0 then (st, t)
      else
        let net := nth (Z.to_nat best_idx) wifi_networks
                       {| net_ssid := EmptyString; net_password := EmptyString |} in
        ({| event_bits := event_bits st;
            s_retry_num := s_retry_num st; s_connected := s_connected st;
            s_current_network_idx := best_idx;
            s_connected_ssid := strncpy (net_ssid net) (SSID_BUF - 1) |},
         t ++ [esp_wifi_set_config
                 (strncpy (net_ssid net) (STA_SSID_LEN - 1))
                 (strncpy (net_password net) (STA_PASSWORD_LEN - 1));
               esp_wifi_connect]).

End Wifi.

(** ** Single-precision operations used by [battery.c] and [led.c] *)

Module Float32.

Definition f_add (x y : Ieee.single) : Ieee.single := SFadd 24 128 x y.
Definition f_mul (x y : Ieee.single) : Ieee.single := SFmul 24 128 x y.

(** Conversion of a [float] to an integer type: the fractional part is
    discarded.  (Not-a-number and infinities do not occur; they give 0
    here.) *)
Definition f_to_int (x : Ieee.single) : Z :=
  match x with
  | S754_finite s m e =>
      let mag := if 0 <=? e then Z.pos m * 2 ^ e else Z.pos m / 2 ^ (- e) in
      if s then - mag else mag
  | _ => 0
  end.

(** The literals [0.0f], [1.25f], [100.0f], [0.2f] and [0.8f]; the last
    two are the binary32 numbers nearest to 1/5 and 4/5. *)
Definition f_0 : Ieee.single := S754_zero false.
Definition f_1_25 : Ieee.single :=
  Eval vm_compute in Ieee.f_div (Ieee.f_of_Z 5) (Ieee.f_of_Z 4).
Definition f_100 : Ieee.single := Eval vm_compute in Ieee.f_of_Z 100.
Definition f_0_2 : Ieee.single :=
  Eval vm_compute in Ieee.f_div (Ieee.f_of_Z 1) (Ieee.f_of_Z 5).
Definition f_0_8 : Ieee.single :=
  Eval vm_compute in Ieee.f_div (Ieee.f_of_Z 4) (Ieee.f_of_Z 5).

End Float32.

(** ** [battery.c]: fuel gauge *)

Module Battery.

Definition ESP_OK : Z := 0.

(** What the I2C transaction of [max17048_read_reg] yields: the value
    returned by [i2c_master_cmd_begin] and the two bytes read. *)
Record reg_reply := { cmd_ret : Z; data0 : Z; data1 : Z }.

(** [max17048_read_reg]: the return value and, when it is [ESP_OK], the
    value stored through [value]. *)
Definition max17048_read_reg (r : reg_reply) : Z * option Z :=
  if cmd_ret r =? ESP_OK
  then (cmd_ret r, Some (Z.lor (Z.shiftl (data0 r) 8) (data1 r)))
  else (cmd_ret r, None).

(** [battery_init]: the return value and the flag [initialized]
    afterwards.  [BATTERY_USE_MAX17048] is a setting of [config.h]. *)
Definition battery_init (BATTERY_USE_MAX17048 : bool) (version : reg_reply)
           (initialized : bool) : Z * bool :=
  if negb BATTERY_USE_MAX17048 then (ESP_OK, initialized)
  else
    match max17048_read_reg version with
    | (_, Some _) => (ESP_OK, true)
    | (ret, None) => (ret, initialized)
    end.

(** [((vcell >> 4) * 1.25f) / 1000.0f] for a shifted reading [n]. *)
Definition voltage_of (n : Z) : Ieee.single :=
  Ieee.f_div (Float32.f_mul (Ieee.f_of_Z n) Float32.f_1_25) Ieee.f_1000.

Definition battery_get_voltage (initialized : bool) (vcell : reg_reply)
  : Ieee.single :=
  if negb initialized then Float32.f_0
  else
    match max17048_read_reg vcell with
    | (_, Some vcell) => voltage_of (Z.shiftr vcell 4)
    | (_, None) => Float32.f_0
    end.

Definition battery_get_percentage (initialized : bool) (soc : reg_reply) : Z :=
  if negb initialized then -1
  else
    match max17048_read_reg soc with
    | (_, Some soc) =>
        let percentage := Z.shiftr soc 8 in
        let percentage := if percentage >? 100 then 100 else percentage in
        let percentage := if percentage <? 0 then 0 else percentage in
        percentage
    | (_, None) => -1
    end.

End Battery.

(** ** [led.c]: status light *)

Module Led.

Inductive led_color_t :=
| LED_OFF | LED_RED | LED_ORANGE | LED_YELLOW | LED_GREEN
| LED_BLUE | LED_PURPLE | LED_WHITE | LED_CYAN.

(** WS2812 timing, in ticks of 100 ns. *)
Definition WS2812_T0H : Z := 3.
Definition WS2812_T0L : Z := 9.
Definition WS2812_T1H : Z := 9.
Definition WS2812_T1L : Z := 3.

Record rmt_symbol_word_t := {
  level0 : Z; duration0 : Z; level1 : Z; duration1 : Z
}.

(** The body of the inner loop of [led_set_rgb] for one value of [bit]. *)
Definition encode_bit (byte bit : Z) : rmt_symbol_word_t :=
  if negb (Z.land byte (Z.shiftl 1 bit) =? 0)
  then {| level0 := 1; duration0 := WS2812_T1H; level1 := 0; duration1 := WS2812_T1L |}
  else {| level0 := 1; duration0 := WS2812_T0H; level1 := 0; duration1 := WS2812_T0L |}.

(** The inner loop, [bit] running from [n - 1] down to 0. *)
Fixpoint encode_bits (byte : Z) (n : nat) : list rmt_symbol_word_t :=
  match n with
  | O => []
  | S n => encode_bit byte (Z.of_nat n) :: encode_bits byte n
  end.

(** The outer loop over the bytes of [grb]. *)
Definition encode_bytes (grb : list Z) : list rmt_symbol_word_t :=
  flat_map (fun byte => encode_bits byte 8) grb.

(** The module-level variables: whether [led_channel] is set, the colour
    last sent, and the two [static] locals of [led_pulse]. *)
Record led_state := {
  led_channel : bool;
  current_r : Z; current_g : Z; current_b : Z;
  pulse_phase : Z;
  increasing : bool
}.

Definition led_start : led_state :=
  {| led_channel := false; current_r := 0; current_g := 0; current_b := 0;
     pulse_phase := 0; increasing := true |}.

(** [led_set_rgb]: the state afterwards and the symbol arrays handed to
    [rmt_transmit]. *)
Definition led_set_rgb (r g b : Z) (st : led_state)
  : led_state * list (list rmt_symbol_word_t) :=
  if negb (led_channel st) then (st, [])
  else
    ({| led_channel := led_channel st;
        current_r := r; current_g := g; current_b := b;
        pulse_phase := pulse_phase st; increasing := increasing st |},
     [encode_bytes [g; r; b]]).

(** The arguments [led_set_color] passes to [led_set_rgb]. *)
Definition color_rgb (color : led_color_t) : Z * Z * Z :=
  match color with
  | LED_OFF => (0, 0, 0)
  | LED_RED => (50, 0, 0)
  | LED_ORANGE => (50, 25, 0)
  | LED_YELLOW => (50, 50, 0)
  | LED_GREEN => (0, 50, 0)
  | LED_BLUE => (0, 0, 50)
  | LED_PURPLE => (30, 0, 50)
  | LED_WHITE => (40, 40, 40)
  | LED_CYAN => (0, 40, 40)
  end.

Definition led_set_color (color : led_color_t) (st : led_state)
  : led_state * list (list rmt_symbol_word_t) :=
  let '(r, g, b) := color_rgb color in led_set_rgb r g b st.

(** The base colour chosen by the [switch] of [led_pulse]. *)
Definition pulse_base (color : led_color_t) : Z * Z * Z :=
  match color with
  | LED_RED => (50, 0, 0)
  | LED_ORANGE => (50, 25, 0)
  | LED_YELLOW => (50, 50, 0)
  | LED_GREEN => (0, 50, 0)
  | LED_BLUE => (0, 0, 50)
  | LED_PURPLE => (30, 0, 50)
  | LED_CYAN => (0, 40, 40)
  | _ => (0, 0, 0)
  end.

(** [0.2f + (pulse_phase / 100.0f) * 0.8f]. *)
Definition pulse_factor (pulse_phase : Z) : Ieee.single :=
  Float32.f_add Float32.f_0_2
    (Float32.f_mul (Ieee.f_div (Ieee.f_of_Z pulse_phase) Float32.f_100)
                   Float32.f_0_8).

(** [(uint8_t)(base * factor)]. *)
Definition scaled (base : Z) (factor : Ieee.single) : Z :=
  Float32.f_to_int (Float32.f_mul (Ieee.f_of_Z base) factor) mod 256.

(** The update of the two [static] locals at the end of [led_pulse]. *)
Definition pulse_step (pulse_phase : Z) (increasing : bool) : Z * bool :=
  if increasing then
    let pulse_phase := pulse_phase + 5 in
    (pulse_phase, if pulse_phase >=? 100 then false else true)
  else
    let pulse_phase := pulse_phase - 5 in
    (pulse_phase, if pulse_phase <=? 0 then true else false).

Definition led_pulse (color : led_color_t) (st : led_state)
  : led_state * list (list rmt_symbol_word_t) :=
  let '(base_r, base_g, base_b) := pulse_base color in
  let factor := pulse_factor (pulse_phase st) in
  let '(st, sent) :=
    led_set_rgb (scaled base_r factor) (scaled base_g factor)
                (scaled base_b factor) st in
  let '(phase, inc) := pulse_step (pulse_phase st) (increasing st) in
  ({| led_channel := led_channel st;
      current_r := current_r st; current_g := current_g st;
      current_b := current_b st;
      pulse_phase := phase; increasing := inc |}, sent).

Definition led_update_data_status (rtcm_percent : Z) (wifi_ok ntrip_ok : bool)
           (st : led_state) : led_state * list (list rmt_symbol_word_t) :=
  if negb wifi_ok then led_pulse LED_BLUE st
  else if negb ntrip_ok then led_pulse LED_PURPLE st
  else if rtcm_percent >=? 95 then led_set_color LED_GREEN st
  else if rtcm_percent >=? 50 then led_set_color LED_CYAN st
  else if rtcm_percent >? 0 then led_set_color LED_YELLOW st
  else led_pulse LED_ORANGE st.

(** Successive calls of [led_pulse] with one colour. *)
Fixpoint pulses (n : nat) (color : led_color_t) (st : led_state) : led_state :=
  match n with
  | O => st
  | S n => pulses n color (fst (led_pulse color st))
  end.

(** *** Reading a WS2812 frame back

    What the LED does with the symbols: a long high phase is a 1, a short
    one a 0, most significant bit first. *)
Definition symbol_bit (s : rmt_symbol_word_t) : Z :=
  if duration0 s =? WS2812_T1H then 1 else 0.

Definition decode_byte (symbols : list rmt_symbol_word_t) : Z :=
  fold_left (fun acc s => 2 * acc + symbol_bit s) symbols 0.

Definition decode_grb (symbols : list rmt_symbol_word_t) : Z * Z * Z :=
  (decode_byte (firstn 8 symbols),
   decode_byte (firstn 8 (skipn 8 symbols)),
   decode_byte (firstn 8 (skipn 16 symbols))).

(** The values the two [static] locals of [led_pulse] can take: the phase
    is a multiple of 5 between 0 and 100, rising from 0 and falling from
    100. *)
Definition phase_ok (st : led_state) : Prop :=
  0 <= pulse_phase st <= 100 /\ pulse_phase st mod 5 = 0
  /\ (pulse_phase st = 0 -> increasing st = true)
  /\ (pulse_phase st = 100 -> increasing st = false).

End Led.

(** ** [ota_update.c]: firmware update check *)

Module OtaUpdate.

(** *** Trimming the version text *)

(** The characters the two trimming loops step over. *)
Definition is_trim_space (c : ascii) : bool :=
  Ascii.eqb c " "%char || Ascii.eqb c "010"%char || Ascii.eqb c "013"%char.

(** The first loop, which advances [p] over leading white space: the
    string [p] points to afterwards. *)
Fixpoint skip_leading (s : string) : string :=
  match s with
  | EmptyString => EmptyString
  | String c s' => if is_trim_space c then skip_leading s' else s
  end.

(** The characters after the first one, once the second loop has written
    terminators over the trailing white space ([end > p] keeps the first
    character in any case). *)
Fixpoint strip_end (s : string) : string :=
  match s with
  | EmptyString => EmptyString
  | String c s' =>
      match strip_end s' with
      | EmptyString => if is_trim_space c then EmptyString else String c EmptyString
      | t => String c t
      end
  end.

Definition trim (version_buf : string) : string :=
  match skip_leading version_buf with
  | EmptyString => EmptyString
  | String c s' => String c (strip_end s')
  end.

(** *** [sscanf(v, "%d.%d.%d", ...)] *)

Definition isspace (c : ascii) : bool :=
  let n := NtripClient.code c in (n =? 32) || ((9 <=? n) && (n <=? 13)).

Definition isdigit (c : ascii) : bool :=
  let n := NtripClient.code c in (48 <=? n) && (n <=? 57).

Fixpoint skip_space (s : string) : string :=
  match s with
  | EmptyString => EmptyString
  | String c s' => if isspace c then skip_space s' else s
  end.

(** The digits at the head of [s], read in base ten onto [acc], and what
    follows them. *)
Fixpoint scan_digits (s : string) (acc : Z) : Z * string :=
  match s with
  | EmptyString => (acc, EmptyString)
  | String c s' =>
      if isdigit c then scan_digits s' (10 * acc + (NtripClient.code c - 48))
      else (acc, s)
  end.

(** The conversion [%d]: white space is skipped, then an optional sign and
    at least one digit are read; [None] is a matching failure. *)
Definition scan_d (s : string) : option (Z * string) :=
  let s := skip_space s in
  let '(negative, s) :=
    match s with
    | String c s' =>
        if Ascii.eqb c "-"%char then (true, s')
        else if Ascii.eqb c "+"%char then (false, s')
        else (false, s)
    | EmptyString => (false, s)
    end in
  match s with
  | String c _ =>
      if isdigit c then
        let '(v, rest) := scan_digits s 0 in
        Some (if negative then - v else v, rest)
      else None
  | EmptyString => None
  end.

(** The literal ['.'] of the format. *)
Definition expect_dot (s : string) : option string :=
  match s with
  | String c s' => if Ascii.eqb c "."%char then Some s' else None
  | EmptyString => None
  end.

(** The contents of the three [int] variables after the call, given
    their contents before it: a variable the input does not reach keeps
    what it held. *)
Definition sscanf_version (v : string) (before : Z * Z * Z) : Z * Z * Z :=
  let '(major, minor, patch) := before in
  match scan_d v with
  | None => (major, minor, patch)
  | Some (major, r) =>
      match expect_dot r with
      | None => (major, minor, patch)
      | Some r =>
          match scan_d r with
          | None => (major, minor, patch)
          | Some (minor, r) =>
              match expect_dot r with
              | None => (major, minor, patch)
              | Some r =>
                  match scan_d r with
                  | None => (major, minor, patch)
                  | Some (patch, _) => (major, minor, patch)
                  end
              end
          end
      end
  end.

(** *** [compare_versions] *)

Definition is_int (z : Z) : bool := (- 2 ^ 31 <=? z) && (z <? 2 ^ 31).

(** The six variables are not initialised: [stack1] and [stack2] are
    what they happen to hold on entry.  [None] stands for behaviour that C
    leaves undefined: a number that does not fit an [int], or a difference
    that overflows. *)
Definition compare_versions (stack1 stack2 : Z * Z * Z) (v1 v2 : string)
  : option Z :=
  let '(major1, minor1, patch1) := sscanf_version v1 stack1 in
  let '(major2, minor2, patch2) := sscanf_version v2 stack2 in
  let r := if negb (major1 =? major2) then major1 - major2
           else if negb (minor1 =? minor2) then minor1 - minor2
           else patch1 - patch2 in
  if forallb is_int [major1; minor1; patch1; major2; minor2; patch2; r]
  then Some r else None.

(** *** [ota_check_for_update] *)

(** What the HTTP client answers: whether [esp_http_client_init] gives a
    handle, the results of [esp_http_client_open],
    [esp_http_client_fetch_headers] and [esp_http_client_read], and the
    bytes the read stores in [version_buf]. *)
Record ota_env := {
  client_ok : bool;
  open_err : Z;
  content_length : Z;
  read_len : Z;
  read_bytes : string
}.

Inductive http_call :=
| http_client_init | http_client_open | http_client_fetch_headers
| http_client_read (n : Z) | http_client_cleanup.

(** The result: the return value, the text copied to [new_version] (when
    one is), and the calls made.  [OTA_ENABLED] and [FIRMWARE_VERSION] are
    settings of [config.h]; [new_version] tells whether the caller passed
    a buffer. *)
Definition ota_check_for_update (OTA_ENABLED : bool) (FIRMWARE_VERSION : string)
           (stack1 stack2 : Z * Z * Z) (env : ota_env)
           (new_version : bool) (max_len : Z)
  : option (bool * option string * list http_call) :=
  if negb OTA_ENABLED then Some (false, None, [])
  else
    let t := [http_client_init] in
    if negb (client_ok env) then Some (false, None, t)
    else
      let t := t ++ [http_client_open] in
      if negb (open_err env =? 0) then Some (false, None, t ++ [http_client_cleanup])
      else
        let t := t ++ [http_client_fetch_headers] in
        if (content_length env <=? 0) || (content_length env >? 32) then
          Some (false, None, t ++ [http_client_cleanup])
        else
          let t := t ++ [http_client_read 32; http_client_cleanup] in
          if read_len env <=? 0 then Some (false, None, t)
          else
            let version_buf :=
              NtripClient.c_string
                (String.substring 0 (Z.to_nat (read_len env)) (read_bytes env)) in
            let p := trim version_buf in
            match compare_versions stack1 stack2 p FIRMWARE_VERSION with
            | None => None
            | Some r =>
                if r >? 0 then
                  Some (true,
                        if new_version && (max_len >? 0)
                        then Some (String.substring 0 (Z.to_nat (max_len - 1)) p)
                        else None,
                        t)
                else Some (false, None, t)
            end.

(** *** Version texts, for stating what the comparison computes *)

(** A non-empty run of decimal digits. *)
Definition numeral (ds : string) : Prop :=
  ds <> EmptyString /\ Forall (fun c => isdigit c = true) (list_ascii_of_string ds).

Definition value (ds : string) : Z := fst (scan_digits ds 0).

(** [major.minor.patch] *)
Definition version_text (major minor patch : string) : string :=
  (major ++ "." ++ minor ++ "." ++ patch)%string.

(** The order on versions: by major number, then minor, then patch. *)
Definition newer (a b : Z * Z * Z) : Prop :=
  let '(a1, a2, a3) := a in
  let '(b1, b2, b3) := b in
  a1 > b1 \/ (a1 = b1 /\ (a2 > b2 \/ (a2 = b2 /\ a3 > b3))).

Definition all_trim_space (s : string) : Prop :=
  Forall (fun c => is_trim_space c = true) (list_ascii_of_string s).

(** What follows a numeral does not continue it. *)
Definition no_digit_head (rest : string) : Prop :=
  match rest with
  | EmptyString => True
  | String c _ => isdigit c = false
  end.

(** A version text made of three numerals that fit an [int]. *)
Definition well_formed (major minor patch : string) : Prop :=
  numeral major /\ numeral minor /\ numeral patch
  /\ value major < 2 ^ 31 /\ value minor < 2 ^ 31 /\ value patch < 2 ^ 31.

(** The last character of a non-empty string is not white space. *)
Fixpoint ends_solid (s : string) : bool :=
  match s with
  | EmptyString => true
  | String c EmptyString => negb (is_trim_space c)
  | String _ s' => ends_solid s'
  end.

(** The value computed on two well-formed version texts. *)
Definition difference (a b : Z * Z * Z) : Z :=
  let '(a1, a2, a3) := a in
  let '(b1, b2, b3) := b in
  if negb (a1 =? b1) then a1 - b1
  else if negb (a2 =? b2) then a2 - b2 else a3 - b3.

End OtaUpdate.

(** ** [main.c]: the rover task *)

Module Main.

Definition RTCM_BUFFER_SIZE : Z := 1024.

(** Settings of [config.h] the task depends on, the tick rate of the
    kernel, and whether [battery_init] has succeeded. *)
Record rover_config := {
  ntrip_config : NtripClient.config;
  tick_rate_hz : Z;
  NTRIP_RECONNECT_INTERVAL_MS : Z;
  POSITION_REPORT_INTERVAL_MS : Z;
  DASHBOARD_ENABLED : bool;
  battery_initialized : bool
}.

(** The variables that live across iterations of the task's loop: the
    state of the modules it calls, the statistics, and its locals. *)
Record rover_state := {
  ntrip : NtripClient.client;
  ubx_buffer : list Z;
  led : Led.led_state;
  rtcm_bytes_received : Z;
  rtcm_bytes_sent : Z;
  position_count : Z;
  fixed_count : Z;
  float_count : Z;
  last_ntrip_attempt : Z;
  last_position_report : Z;
  last_led_time : Z;
  last_carr_soln : Z
}.

(** What the outside world answers during one iteration, in the order
    the iteration asks. *)
Record rover_env := {
  wifi_connected : bool;                 (* wifi_is_connected() *)
  tick_check_stale : Z;                  (* tick count read by the staleness check *)
  tick_attempt : Z;                      (* [now] of the reconnection branch *)
  connect_answers : NtripClient.connect_env;
  recv_answer : NtripClient.recv_reply;
  recv_bytes : list Z;                   (* what recv stored in rtcm_buffer *)
  tick_recv : Z;
  write_ok : bool;                       (* the I2C write of the corrections *)
  bus : ZedRover.bus_poll;
  tick_report : Z;                       (* [now] of the report branch *)
  battery_soc : Battery.reg_reply;
  tick_led_test : Z;                     (* tick count in the LED condition *)
  tick_led_set : Z;                      (* tick count stored in last_led_time *)
  tick_led_stale : Z                     (* tick count read by ntrip_client_is_stale *)
}.

(** What an iteration does to the outside world, in program order. *)
Inductive rover_event :=
| ev_socket (calls : list NtripClient.syscall)
| ev_rtcm_write (writes : list (list Z))
| ev_print_position (pos : ZedRover.zed_position_t)
| ev_dashboard (pos : ZedRover.zed_position_t)
               (rtcm_bytes fixed_count float_count battery_pct : Z)
| ev_led (frames : list (list Led.rmt_symbol_word_t)).

(** [(now - last) >= interval] on [TickType_t], which is 32 bits wide. *)
Definition elapsed_at_least (now last interval : Z) : bool :=
  (now - last) mod 2 ^ 32 >=? interval.

Definition uint32_add (a b : Z) : Z := (a + b) mod 2 ^ 32.

(** The reconnection branch, entered with the client in state [client]:
    the client afterwards, [last_ntrip_attempt], the local [ntrip_ok], and
    the events. *)
Definition reconnect_step (cfg : rover_config) (env : rover_env)
           (last_attempt : Z) (client : NtripClient.client)
  : option (NtripClient.client * Z * bool * list rover_event) :=
  let wifi_ok := wifi_connected env in
  let ntrip_ok := NtripClient.s_connected client in
  let ntrip_retry_interval :=
    NtripClient.pdMS_TO_TICKS (tick_rate_hz cfg) (NTRIP_RECONNECT_INTERVAL_MS cfg) in
  if negb ntrip_ok && wifi_ok then
    let now := tick_attempt env in
    if elapsed_at_least now last_attempt ntrip_retry_interval then
      match NtripClient.ntrip_client_connect (ntrip_config cfg)
                                             (connect_answers env) client with
      | None => None
      | Some (r, client, calls) =>
          Some (client, now,
                if r =? NtripClient.ESP_OK then true else ntrip_ok,
                [ev_socket calls])
      end
    else Some (client, last_attempt, ntrip_ok, [])
  else Some (client, last_attempt, ntrip_ok, []).

(** The branch that receives corrections and forwards them to the
    receiver, entered with the local [ntrip_ok]: the client afterwards, the
    two byte counters, [ntrip_ok], and the events. *)
Definition forward_step (env : rover_env) (rx tx : Z) (ntrip_ok : bool)
           (client : NtripClient.client)
  : NtripClient.client * Z * Z * bool * list rover_event :=
  if ntrip_ok then
    let '(received, client, calls) :=
      NtripClient.ntrip_client_receive RTCM_BUFFER_SIZE (recv_answer env)
                                       (tick_recv env) client in
    if received >? 0 then
      let rx := uint32_add rx received in
      let '(sent, writes) :=
        ZedRover.zed_rover_write_rtcm (recv_bytes env) received (write_ok env) in
      let tx := if sent >? 0 then uint32_add tx sent else tx in
      (client, rx, tx, ntrip_ok, [ev_socket calls; ev_rtcm_write writes])
    else if received <? 0 then (client, rx, tx, false, [ev_socket calls])
    else (client, rx, tx, ntrip_ok, [ev_socket calls])
  else (client, rx, tx, ntrip_ok, []).

(** The part of the loop body that keeps the caster connection alive and
    forwards the corrections: the client state, the two byte counters, the
    time of the last attempt, the local [ntrip_ok], and the events. *)
Definition corrections_step (cfg : rover_config) (env : rover_env) (st : rover_state)
  : option (NtripClient.client * Z * Z * Z * bool * list rover_event) :=
  let '(client, calls) :=
    NtripClient.ntrip_client_check_stale (tick_rate_hz cfg) (tick_check_stale env)
                                         (ntrip st) in
  match reconnect_step cfg env (last_ntrip_attempt st) client with
  | None => None
  | Some (client, last_attempt, ntrip_ok, events) =>
      let '(client, rx, tx, ntrip_ok, events') :=
        forward_step env (rtcm_bytes_received st) (rtcm_bytes_sent st)
                     ntrip_ok client in
      Some (client, rx, tx, last_attempt, ntrip_ok,
            [ev_socket calls] ++ events ++ events')
  end.

(** The colour shown by the status light. *)
Definition led_step (wifi_ok ntrip_ok ntrip_stale : bool) (last_carr_soln : Z)
           (l : Led.led_state)
  : Led.led_state * list (list Led.rmt_symbol_word_t) :=
  if negb wifi_ok then Led.led_pulse Led.LED_BLUE l
  else if negb ntrip_ok then Led.led_pulse Led.LED_PURPLE l
  else if ntrip_stale then Led.led_pulse Led.LED_RED l
  else if last_carr_soln =? 2 then Led.led_set_color Led.LED_GREEN l
  else if last_carr_soln =? 1 then Led.led_pulse Led.LED_CYAN l
  else Led.led_set_color Led.LED_YELLOW l.

(** The branch taken when [zed_rover_get_position] returns a fix [pos]:
    the three counters, [last_carr_soln], [last_position_report], and the
    events. *)
Definition position_step (cfg : rover_config) (env : rover_env) (st : rover_state)
           (rx : Z) (pos : ZedRover.zed_position_t)
  : Z * Z * Z * Z * Z * list rover_event :=
  let positions := uint32_add (position_count st) 1 in
  let fixed := if ZedRover.carr_soln pos =? 2
               then uint32_add (fixed_count st) 1 else fixed_count st in
  let floats := if ZedRover.carr_soln pos =? 2 then float_count st
                else if ZedRover.carr_soln pos =? 1
                     then uint32_add (float_count st) 1
                     else float_count st in
  let now := tick_report env in
  if elapsed_at_least now (last_position_report st)
       (NtripClient.pdMS_TO_TICKS (tick_rate_hz cfg)
                                  (POSITION_REPORT_INTERVAL_MS cfg)) then
    (positions, fixed, floats, ZedRover.carr_soln pos, now,
     [ev_print_position pos]
       ++ (if DASHBOARD_ENABLED cfg then
             [ev_dashboard pos rx fixed floats
                (Battery.battery_get_percentage (battery_initialized cfg)
                                                (battery_soc env))]
           else []))
  else
    (positions, fixed, floats, ZedRover.carr_soln pos, last_position_report st, []).

(** One iteration of the [while (1)] loop of [rover_task]; [None] only if
    a loop of a function it calls ran out of fuel. *)
Definition rover_iteration (cfg : rover_config) (env : rover_env) (st : rover_state)
  : option (rover_state * list rover_event) :=
  match corrections_step cfg env st with
  | None => None
  | Some (client, rx, tx, last_attempt, ntrip_ok, events) =>
      match ZedRover.zed_rover_get_position (bus env) (ubx_buffer st) with
      | None => None
      | Some got =>
          let '(positions, fixed, floats, carr, last_report, events') :=
            if ZedRover.ret got then
              position_step cfg env st rx (ZedRover.pos_out got)
            else
              (position_count st, fixed_count st, float_count st,
               last_carr_soln st, last_position_report st, []) in
          let '(l, last_led, events'') :=
            if elapsed_at_least (tick_led_test env) (last_led_time st)
                 (NtripClient.pdMS_TO_TICKS (tick_rate_hz cfg) 50) then
              let ntrip_stale :=
                NtripClient.ntrip_client_is_stale (tick_rate_hz cfg)
                                                  (tick_led_stale env) client in
              let calls := NtripClient.ntrip_client_is_stale_calls client in
              let '(l, frames) :=
                led_step (wifi_connected env) ntrip_ok ntrip_stale carr (led st) in
              (l, tick_led_set env, [ev_socket calls; ev_led frames])
            else (led st, last_led_time st, []) in
          Some ({| ntrip := client; ubx_buffer := ZedRover.buffer_out got;
                   led := l;
                   rtcm_bytes_received := rx; rtcm_bytes_sent := tx;
                   position_count := positions; fixed_count := fixed;
                   float_count := floats;
                   last_ntrip_attempt := last_attempt;
                   last_position_report := last_report;
                   last_led_time := last_led;
                   last_carr_soln := carr |},
                events ++ events' ++ events'')
      end
  end.

(** The state [rover_task] starts from once [app_main] has made its
    first connection attempt, which left the client in state [client]. *)
Definition rover_start (client : NtripClient.client) (l : Led.led_state)
  : rover_state :=
  {| ntrip := client; ubx_buffer := []; led := l;
     rtcm_bytes_received := 0; rtcm_bytes_sent := 0;
     position_count := 0; fixed_count := 0; float_count := 0;
     last_ntrip_attempt := 0; last_position_report := 0; last_led_time := 0;
     last_carr_soln := 0 |}.

(** The calls a list of events makes into the socket layer. *)
Definition socket_calls (events : list rover_event) : list NtripClient.syscall :=
  flat_map (fun e => match e with ev_socket calls => calls | _ => [] end) events.

(** The corrections a list of events writes to the receiver. *)
Definition rtcm_written (events : list rover_event) : list (list Z) :=
  flat_map (fun e => match e with ev_rtcm_write w => w | _ => [] end) events.

Definition is_connect_attempt (c : NtripClient.syscall) : bool :=
  match c with NtripClient.sys_gethostbyname _ => true | _ => false end.

(** *** A sample iteration

    A caster that accepts the connection and delivers three bytes, and a
    receiver that delivers one fix frame. *)
Definition sample_config : rover_config :=
  {| ntrip_config :=
       {| NtripClient.NTRIP_HOST := "caster"; NtripClient.NTRIP_PORT := 2101;
          NtripClient.NTRIP_MOUNTPOINT := "BASE";
          NtripClient.NTRIP_USER := "user"; NtripClient.NTRIP_PASSWORD := "pass" |};
     tick_rate_hz := 100;
     NTRIP_RECONNECT_INTERVAL_MS := 5000;
     POSITION_REPORT_INTERVAL_MS := 1000;
     DASHBOARD_ENABLED := true;
     battery_initialized := true |}.

Definition sample_env : rover_env :=
  {| wifi_connected := true;
     tick_check_stale := 1200;
     tick_attempt := 1200;
     connect_answers :=
       {| NtripClient.host_found := true; NtripClient.socket_ret := 4;
          NtripClient.connect_ret := 0; NtripClient.send_ret := 96;
          NtripClient.handshake_recv_ret := 10;
          NtripClient.handshake_bytes := "ICY 200 OK";
          NtripClient.connect_tick := 1201 |};
     recv_answer := {| NtripClient.received := 3; NtripClient.errno := 0 |};
     recv_bytes := [0xD3; 0x00; 0x13];
     tick_recv := 1202;
     write_ok := true;
     bus := ZedRover.bus_with
              (ZedRover.nav_pvt_frame (repeat 0 21 ++ [0x80] ++ repeat 0 70));
     tick_report := 1203;
     battery_soc := {| Battery.cmd_ret := 0; Battery.data0 := 87;
                       Battery.data1 := 0 |};
     tick_led_test := 1204; tick_led_set := 1204; tick_led_stale := 1204 |}.

End Main.


(** * Properties *)

(** ** Bit operations on bytes *)

Section BitFacts.

Lemma land_shiftl_low a b n :
  0 <= n -> 0 <= b < 2 ^ n -> Z.land (Z.shiftl a n) b = 0.
Proof.
  intros Hn Hb. apply Z.bits_inj'. intros k Hk.
  rewrite Z.land_spec, Z.bits_0.
  destruct (Z.lt_ge_cases k n) as [Hlt | Hge].
  - now rewrite Z.shiftl_spec_low.
  - rewrite <- (Z.mod_small b (2 ^ n)) by lia.
    rewrite Z.mod_pow2_bits_high by lia. apply andb_false_r.
Qed.

(** Or-ing a value below [2^n] onto a value shifted left by [n] adds them. *)
Lemma lor_shiftl_add a b n :
  0 <= n -> 0 <= b < 2 ^ n -> Z.lor b (Z.shiftl a n) = b + a * 2 ^ n.
Proof.
  intros Hn Hb.
  rewrite Z.lor_comm, <- Z.lxor_lor by now apply land_shiftl_low.
  rewrite <- Z.add_nocarry_lxor by now apply land_shiftl_low.
  rewrite Z.shiftl_mul_pow2 by lia. lia.
Qed.

Lemma to_int32_range z : - 2 ^ 31 <= to_int32 z < 2 ^ 31.
Proof.
  unfold to_int32. pose proof (Z.mod_pos_bound (z + 2 ^ 31) (2 ^ 32)). lia.
Qed.

(** [to_int32] reads an unsigned 32-bit pattern as two's complement. *)
Lemma to_int32_unsigned u :
  0 <= u < 2 ^ 32 ->
  to_int32 u = if u <? 2 ^ 31 then u else u - 2 ^ 32.
Proof.
  intros Hu. unfold to_int32. destruct (Z.ltb_spec u (2 ^ 31)).
  - rewrite Z.mod_small; lia.
  - replace (u + 2 ^ 31) with (u - 2 ^ 31 + 1 * 2 ^ 32) by lia.
    rewrite Z.mod_add by lia. rewrite Z.mod_small; lia.
Qed.

Lemma byte_at_ok buf i : bytes_ok buf -> byte_ok (byte_at buf i).
Proof.
  intros H. unfold byte_at.
  destruct (Nat.lt_ge_cases (Z.to_nat i) (length buf)) as [Hlt | Hge].
  - unfold bytes_ok in H. rewrite Forall_forall in H. apply H. now apply nth_In.
  - rewrite nth_overflow by assumption. unfold byte_ok. lia.
Qed.

End BitFacts.

(** ** Indexing and slicing buffers *)

Section BufferFacts.

Lemma len_nonneg buf : 0 <= len buf.
Proof. unfold len. lia. Qed.

Lemma len_app a b : len (a ++ b) = len a + len b.
Proof. unfold len. rewrite length_app. lia. Qed.

Lemma len_skipn a buf :
  0 <= a <= len buf -> len (skipn (Z.to_nat a) buf) = len buf - a.
Proof. unfold len. intros H. rewrite length_skipn. lia. Qed.

Lemma len_firstn a buf :
  0 <= a <= len buf -> len (firstn (Z.to_nat a) buf) = a.
Proof. unfold len. intros H. rewrite length_firstn. lia. Qed.

Lemma byte_at_skipn a buf i :
  0 <= a -> 0 <= i -> byte_at (skipn (Z.to_nat a) buf) i = byte_at buf (a + i).
Proof.
  intros Ha Hi. unfold byte_at. rewrite nth_skipn.
  f_equal. lia.
Qed.

Lemma sub_skipn a buf off n :
  0 <= a -> 0 <= off ->
  sub (skipn (Z.to_nat a) buf) off n = sub buf (a + off) n.
Proof.
  intros Ha Hoff. unfold sub. rewrite skipn_skipn.
  do 2 f_equal. lia.
Qed.

Lemma byte_at_app_l pre l j :
  0 <= j < len pre -> byte_at (pre ++ l) j = byte_at pre j.
Proof.
  unfold byte_at, len. intros H. apply app_nth1. lia.
Qed.

Lemma byte_at_app_r pre l j :
  0 <= j -> byte_at (pre ++ l) (len pre + j) = byte_at l j.
Proof.
  unfold byte_at, len. intros H.
  replace (Z.to_nat (Z.of_nat (length pre) + j))
    with (length pre + Z.to_nat j)%nat by lia.
  apply app_nth2_plus.
Qed.

Lemma skipn_app_r pre (l : list Z) j :
  0 <= j -> skipn (Z.to_nat (len pre + j)) (pre ++ l) = skipn (Z.to_nat j) l.
Proof.
  unfold len. intros H. rewrite skipn_app.
  replace (Z.to_nat (Z.of_nat (length pre) + j) - length pre)%nat
    with (Z.to_nat j) by lia.
  rewrite skipn_all2 by lia. reflexivity.
Qed.

Lemma sub_app_r pre l off n :
  0 <= off -> sub (pre ++ l) (len pre + off) n = sub l off n.
Proof.
  intros H. unfold sub. now rewrite skipn_app_r.
Qed.

Lemma sub_prefix (l rest : list Z) : sub (l ++ rest) 0 (len l) = l.
Proof.
  unfold sub, len. simpl. rewrite Nat2Z.id.
  rewrite firstn_app, Nat.sub_diag, firstn_all. simpl. apply app_nil_r.
Qed.

Lemma byte_at_firstn n buf j :
  0 <= j < n -> byte_at (firstn (Z.to_nat n) buf) j = byte_at buf j.
Proof.
  unfold byte_at. intros H. rewrite nth_firstn.
  destruct (Nat.ltb_spec (Z.to_nat j) (Z.to_nat n)); [ reflexivity | lia ].
Qed.

Lemma bytes_ok_app a b : bytes_ok a -> bytes_ok b -> bytes_ok (a ++ b).
Proof. unfold bytes_ok. intros. now apply Forall_app. Qed.

Lemma bytes_ok_firstn n l : bytes_ok l -> bytes_ok (firstn n l).
Proof.
  unfold bytes_ok. intros H. rewrite <- (firstn_skipn n l) in H.
  now apply Forall_app in H.
Qed.

Lemma bytes_ok_skipn n l : bytes_ok l -> bytes_ok (skipn n l).
Proof.
  unfold bytes_ok. intros H. rewrite <- (firstn_skipn n l) in H.
  now apply Forall_app in H.
Qed.

(** A 16-bit length split into its two bytes and put back together. *)
Lemma le16_split n :
  0 <= n < 65536 -> Z.lor (n mod 256) (Z.shiftl (n / 256) 8) = n.
Proof.
  intros H. rewrite lor_shiftl_add.
  - change (2 ^ 8) with 256. pose proof (Z.div_mod n 256). lia.
  - lia.
  - change (2 ^ 8) with 256. apply Z.mod_pos_bound. lia.
Qed.

Lemma be16_split n :
  0 <= n < 65536 -> Z.lor (Z.shiftl (n / 256) 8) (n mod 256) = n.
Proof. intros H. rewrite Z.lor_comm. now apply le16_split. Qed.

End BufferFacts.

(** ** Floating-point arithmetic *)

Module IeeeFacts.

(** ** Rounding to a binary floating-point format *)

Lemma digits2_pos_spec p :
  2 ^ (Z.pos (digits2_pos p) - 1) <= Z.pos p < 2 ^ Z.pos (digits2_pos p).
Proof.
  induction p as [ p IH | p IH | ]; cbn [digits2_pos].
  - rewrite Pos2Z.inj_succ, Z.pow_succ_r by lia.
    replace (Z.succ (Z.pos (digits2_pos p)) - 1)
      with (Z.succ (Z.pos (digits2_pos p) - 1)) by lia.
    rewrite Z.pow_succ_r by lia. lia.
  - rewrite Pos2Z.inj_succ, Z.pow_succ_r by lia.
    replace (Z.succ (Z.pos (digits2_pos p)) - 1)
      with (Z.succ (Z.pos (digits2_pos p) - 1)) by lia.
    rewrite Z.pow_succ_r by lia. lia.
  - simpl. lia.
Qed.

Lemma digits2_pos_unique p k :
  2 ^ (k - 1) <= Z.pos p < 2 ^ k -> Z.pos (digits2_pos p) = k.
Proof.
  intros [Hlo Hhi]. pose proof (digits2_pos_spec p) as [Dlo Dhi].
  assert (0 < k).
  { destruct (Z_lt_le_dec 0 k); [ assumption | ].
    assert (2 ^ k <= 2 ^ 0) by (destruct (Z.eq_dec k 0);
      [ subst; lia | rewrite Z.pow_neg_r by lia; simpl; lia ]).
    simpl in *. lia. }
  destruct (Z_lt_le_dec (Z.pos (digits2_pos p)) k) as [Hlt | Hge].
  - assert (2 ^ Z.pos (digits2_pos p) <= 2 ^ (k - 1))
      by (apply Z.pow_le_mono_r; lia). lia.
  - destruct (Z_lt_le_dec k (Z.pos (digits2_pos p))) as [Hgt | Hle]; [ | lia ].
    assert (2 ^ k <= 2 ^ (Z.pos (digits2_pos p) - 1))
      by (apply Z.pow_le_mono_r; lia). lia.
Qed.

(** The number of digits of a positive number between two powers of 2. *)
Lemma digits2_pos_between p lo hi :
  0 <= lo -> 2 ^ lo <= Z.pos p < 2 ^ hi -> lo < Z.pos (digits2_pos p) <= hi.
Proof.
  intros Hlo [Hge Hlt]. pose proof (digits2_pos_spec p) as [Dlo Dhi]. split.
  - destruct (Z_lt_le_dec lo (Z.pos (digits2_pos p))) as [ | Hle ]; [ assumption | ].
    assert (2 ^ Z.pos (digits2_pos p) <= 2 ^ lo) by (apply Z.pow_le_mono_r; lia).
    lia.
  - destruct (Z_le_gt_dec (Z.pos (digits2_pos p)) hi) as [ | Hgt ]; [ assumption | ].
    assert (2 ^ hi <= 2 ^ (Z.pos (digits2_pos p) - 1))
      by (apply Z.pow_le_mono_r; lia).
    lia.
Qed.

Lemma shr_1_m mrs : 0 <= shr_m mrs -> shr_m (shr_1 mrs) = shr_m mrs / 2.
Proof.
  destruct mrs as [m r s]. cbn [shr_m]. intros Hm.
  destruct m as [ | [ p | p | ] | p ]; cbn [shr_1 shr_m]; try lia.
  - reflexivity.
  - rewrite Pos2Z.inj_xI. apply Z.div_unique with 1; lia.
  - rewrite Pos2Z.inj_xO. apply Z.div_unique with 0; lia.
  - reflexivity.
Qed.

Lemma iter_shr_1_m p : forall mrs,
  0 <= shr_m mrs ->
  shr_m (iter_pos shr_1 p mrs) = shr_m mrs / 2 ^ Z.pos p.
Proof.
  induction p as [ p IH | p IH | ]; intros mrs Hm; cbn [iter_pos].
  - assert (H1 : 0 <= shr_m (shr_1 mrs))
      by (rewrite shr_1_m by assumption; apply Z.div_pos; lia).
    assert (H2 : 0 <= shr_m (iter_pos shr_1 p (shr_1 mrs)))
      by (rewrite IH by assumption; apply Z.div_pos; lia).
    rewrite IH, IH, shr_1_m by assumption.
    rewrite !Z.div_div by lia.
    replace (2 ^ Z.pos p~1) with (2 * (2 ^ Z.pos p * 2 ^ Z.pos p)); [ reflexivity | ].
    rewrite <- Z.pow_add_r, <- Z.pow_succ_r by lia. f_equal. lia.
  - assert (H2 : 0 <= shr_m (iter_pos shr_1 p mrs))
      by (rewrite IH by assumption; apply Z.div_pos; lia).
    rewrite IH, IH by assumption.
    rewrite !Z.div_div by lia.
    replace (2 ^ Z.pos p~0) with (2 ^ Z.pos p * 2 ^ Z.pos p); [ reflexivity | ].
    rewrite <- Z.pow_add_r by lia. f_equal. lia.
  - rewrite shr_1_m by assumption. reflexivity.
Qed.

Lemma shr_record_of_loc_m m l : shr_m (shr_record_of_loc m l) = m.
Proof. destruct l as [ | [ | | ] ]; reflexivity. Qed.

Lemma round_nearest_even_range m l :
  m <= round_nearest_even m l <= m + 1.
Proof.
  destruct l as [ | [ | | ] ]; cbn [round_nearest_even]; try lia.
  destruct (Z.even m); lia.
Qed.

Lemma iter_xO_pow m k : Z.pos (Pos.iter xO m k) = Z.pos m * 2 ^ Z.pos k.
Proof.
  induction k as [ | k IH ] using Pos.peano_ind.
  - cbn [Pos.iter]. rewrite Pos2Z.inj_xO. change (2 ^ 1) with 2. lia.
  - rewrite Pos.iter_succ, Pos2Z.inj_xO, IH, Pos2Z.inj_succ, Z.pow_succ_r by lia.
    lia.
Qed.

Section Rounding.
Variables prec emax : Z.
Hypothesis prec_pos : 2 <= prec.

Lemma fexp_normal e : 3 - emax <= e -> fexp prec emax e = e - prec.
Proof. unfold fexp, emin. lia. Qed.

(** Shifting a mantissa of [d >= prec] digits down to [prec] digits. *)
Lemma shr_fexp_normal m e l :
  prec <= Z.pos (digits2_pos m) -> 3 - emax <= Z.pos (digits2_pos m) + e ->
  exists mrs,
    shr_fexp prec emax (Z.pos m) e l = (mrs, e + (Z.pos (digits2_pos m) - prec))
    /\ shr_m mrs = Z.pos m / 2 ^ (Z.pos (digits2_pos m) - prec)
    /\ (Z.pos (digits2_pos m) = prec -> mrs = shr_record_of_loc (Z.pos m) l).
Proof.
  intros Hd He. unfold shr_fexp. cbn [Zdigits2].
  rewrite fexp_normal by assumption.
  replace (Z.pos (digits2_pos m) + e - prec - e)
    with (Z.pos (digits2_pos m) - prec) by lia.
  destruct (Z.pos (digits2_pos m) - prec) as [ | n | n ] eqn:Hn; try lia.
  - exists (shr_record_of_loc (Z.pos m) l). cbn [shr].
    rewrite shr_record_of_loc_m, Z.add_0_r. change (2 ^ 0) with 1.
    rewrite Z.div_1_r. auto.
  - exists (iter_pos shr_1 n (shr_record_of_loc (Z.pos m) l)). cbn [shr].
    rewrite iter_shr_1_m by (rewrite shr_record_of_loc_m; lia).
    rewrite shr_record_of_loc_m. repeat split. lia.
Qed.

(** Rounding a mantissa of [d >= prec] digits in the normal range: the
    result is a normal number at most [2^(d - prec)] units of the input
    exponent away, and it is the input when nothing has to be dropped. *)
Lemma binary_round_aux_normal s mx ex lx :
  let d := Z.pos (digits2_pos mx) in
  prec <= d -> 3 - emax <= d + ex -> d + ex <= emax - 1 ->
  exists m e,
    binary_round_aux prec emax s (Z.pos mx) ex lx = S754_finite s m e
    /\ ex + (d - prec) <= e <= ex + (d - prec) + 1
    /\ Z.abs (Z.pos m * 2 ^ (e - ex) - Z.pos mx) <= 2 ^ (d - prec)
    /\ 2 ^ (prec - 1) <= Z.pos m < 2 ^ prec
    /\ (d = prec -> lx = loc_Exact -> m = mx /\ e = ex).
Proof.
  cbv zeta. intros Hd Hlo Hhi. unfold binary_round_aux.
  destruct (shr_fexp_normal mx ex lx Hd Hlo) as (mrs1 & -> & Hm1 & Hexact).
  pose proof (digits2_pos_spec mx) as [Dlo Dhi].
  remember (Z.pos (digits2_pos mx)) as d eqn:Hdd.
  remember (d - prec) as n eqn:Hnd.
  assert (Hpow : 2 ^ d = 2 ^ prec * 2 ^ n)
    by (rewrite <- Z.pow_add_r by lia; f_equal; lia).
  assert (Hpow' : 2 ^ (d - 1) = 2 ^ (prec - 1) * 2 ^ n)
    by (rewrite <- Z.pow_add_r by lia; f_equal; lia).
  assert (Hhalf : 2 ^ prec = 2 * 2 ^ (prec - 1))
    by (rewrite <- Z.pow_succ_r by lia; f_equal; lia).
  assert (Hn : 0 < 2 ^ n) by (apply Z.pow_pos_nonneg; lia).
  assert (Hp1 : 0 < 2 ^ (prec - 1)) by (apply Z.pow_pos_nonneg; lia).
  remember (shr_m mrs1) as m1 eqn:Hm1d.
  assert (Hdiv : m1 * 2 ^ n <= Z.pos mx < (m1 + 1) * 2 ^ n).
  { rewrite Hm1. pose proof (Z.div_mod (Z.pos mx) (2 ^ n) ltac:(lia)).
    pose proof (Z.mod_pos_bound (Z.pos mx) (2 ^ n) Hn). nia. }
  assert (Hm1r : 2 ^ (prec - 1) <= m1 < 2 ^ prec) by nia.
  pose proof (round_nearest_even_range m1 (loc_of_shr_record mrs1)) as Hm2.
  destruct (round_nearest_even m1 (loc_of_shr_record mrs1)) as [ | p2 | p2 ] eqn:Hp2;
    try lia.
  assert (Hexact' : d = prec -> lx = loc_Exact -> p2 = mx).
  { intros Hdp ->. specialize (Hexact Hdp). subst mrs1.
    cbn in Hp2, Hm1d. subst m1. cbn in Hp2. now inversion Hp2. }
  destruct (Z_lt_le_dec (Z.pos p2) (2 ^ prec)) as [Hsmall | Hcarry].
  - (* no carry out of the rounding *)
    assert (Hd2 : Z.pos (digits2_pos p2) = prec)
      by (apply digits2_pos_unique; lia).
    destruct (shr_fexp_normal p2 (ex + n) loc_Exact) as (mrs2 & -> & _ & Hmrs2);
      [ lia | lia | ].
    rewrite (Hmrs2 Hd2). cbn [shr_record_of_loc shr_m].
    rewrite Hd2, Z.sub_diag, Z.add_0_r.
    destruct (Z.leb_spec (ex + n) (emax - prec)); [ | lia ].
    exists p2, (ex + n).
    replace (ex + n - ex) with n by lia.
    split; [ reflexivity | ]. split; [ lia | ].
    split; [ apply Z.abs_le; nia | ]. split; [ lia | ].
    intros Hdp Hlx. split; [ now apply Hexact' | lia ].
  - (* the rounding carries into one more digit *)
    assert (Hp2v : Z.pos p2 = 2 ^ prec) by lia.
    assert (Hd2 : Z.pos (digits2_pos p2) = prec + 1).
    { apply digits2_pos_unique. rewrite Hp2v.
      replace (prec + 1 - 1) with prec by lia.
      split; [ lia | apply Z.pow_lt_mono_r; lia ]. }
    destruct (shr_fexp_normal p2 (ex + n) loc_Exact) as (mrs2 & -> & Hmrs2 & _);
      [ lia | lia | ].
    rewrite Hd2 in Hmrs2 |- *.
    replace (prec + 1 - prec) with 1 in Hmrs2 |- * by lia.
    change (2 ^ 1) with 2 in Hmrs2.
    assert (Hm3 : shr_m mrs2 = 2 ^ (prec - 1)).
    { rewrite Hmrs2, Hp2v, Hhalf. rewrite Z.mul_comm. apply Z.div_mul. lia. }
    rewrite Hm3.
    destruct (2 ^ (prec - 1)) as [ | p3 | p3 ] eqn:Hp3; try lia.
    destruct (Z.leb_spec (ex + n + 1) (emax - prec)); [ | lia ].
    exists p3, (ex + n + 1).
    replace (ex + n + 1 - ex) with (n + 1) by lia.
    rewrite Z.pow_add_r by lia. change (2 ^ 1) with 2.
    split; [ reflexivity | ]. split; [ lia | ].
    split; [ apply Z.abs_le; nia | ]. split; [ lia | ].
    intros Hdp Hlx. apply (Hexact' Hdp) in Hlx. subst p2.
    exfalso.
    assert (n = 0) by lia. subst n. change (2 ^ 0) with 1 in *. lia.
Qed.

(** Conversion of a positive integer: exact when it has at most [prec]
    digits, otherwise rounded by at most [2^(d - prec)]. *)
Lemma binary_round_integer s m :
  let d := Z.pos (digits2_pos m) in
  d <= emax - 1 -> 3 - emax <= 1 ->
  exists mz ez,
    binary_round prec emax s m 0 = S754_finite s mz ez
    /\ d - prec <= ez <= d - prec + 1
    /\ Z.pos (digits2_pos mz) = prec
    /\ (d <= prec -> ez = d - prec /\ Z.pos mz = Z.pos m * 2 ^ (prec - d))
    /\ (prec <= d -> Z.abs (Z.pos mz * 2 ^ ez - Z.pos m) <= 2 ^ (d - prec)).
Proof.
  cbv zeta. intros Hd Hemax. unfold binary_round, shl_align.
  rewrite Z.add_0_r, fexp_normal by lia. rewrite Z.sub_0_r.
  pose proof (digits2_pos_spec m) as [Dlo Dhi].
  remember (Z.pos (digits2_pos m)) as d eqn:Hdd.
  destruct (d - prec) as [ | k | k ] eqn:Hk.
  - (* exactly [prec] digits *)
    destruct (binary_round_aux_normal s m 0 loc_Exact)
      as (mz & e & Hr & He & Herr & Hrange & Hexact);
      [ lia | lia | lia | ].
    destruct (Hexact ltac:(lia) eq_refl) as [-> ->].
    exists m, 0. rewrite Hr.
    split; [ reflexivity | ]. split; [ lia | ]. split; [ lia | ].
    replace (prec - d) with 0 by lia. change (2 ^ 0) with 1.
    split; [ intros _; lia | ]. intros _. apply Z.abs_le. lia.
  - (* more digits than the format holds *)
    destruct (binary_round_aux_normal s m 0 loc_Exact)
      as (mz & e & Hr & He & Herr & Hrange & _);
      [ lia | lia | lia | ].
    rewrite <- Hdd in He, Herr. rewrite Z.sub_0_r in Herr.
    exists mz, e. rewrite Hr.
    split; [ reflexivity | ]. split; [ lia | ].
    split; [ apply digits2_pos_unique; lia | ].
    split; [ lia | ]. intros _. rewrite Hk in Herr. lia.
  - (* fewer digits: the mantissa is shifted up *)
    assert (Hk' : Z.pos k = prec - d) by lia.
    assert (Hmz : Z.pos (Pos.iter xO m k) = Z.pos m * 2 ^ (prec - d))
      by (rewrite iter_xO_pow, Hk'; reflexivity).
    assert (Hdz : Z.pos (digits2_pos (Pos.iter xO m k)) = prec).
    { apply digits2_pos_unique. rewrite Hmz.
      assert (H52 : 2 ^ (prec - 1) = 2 ^ (d - 1) * 2 ^ (prec - d))
        by (rewrite <- Z.pow_add_r by lia; f_equal; lia).
      assert (H53 : 2 ^ prec = 2 ^ d * 2 ^ (prec - d))
        by (rewrite <- Z.pow_add_r by lia; f_equal; lia).
      assert (0 < 2 ^ (prec - d)) by (apply Z.pow_pos_nonneg; lia).
      rewrite H52, H53. nia. }
    destruct (binary_round_aux_normal s (Pos.iter xO m k) (Z.neg k) loc_Exact)
      as (mz & e & Hr & _ & _ & _ & Hexact); [ lia | lia | lia | ].
    destruct (Hexact Hdz eq_refl) as [-> ->].
    exists (Pos.iter xO m k), (Z.neg k). rewrite Hr.
    split; [ reflexivity | ]. split; [ lia | ]. split; [ assumption | ].
    split; [ intros _; split; [ lia | assumption ] | ]. lia.
Qed.

(** Division of two normal numbers with full mantissas: the quotient is
    a normal number within three units of the exponent [e1 - e2 - prec]. *)
Lemma SFdiv_normal s m1 e1 m2 e2 :
  Z.pos (digits2_pos m1) = prec -> Z.pos (digits2_pos m2) = prec ->
  3 - emax <= e1 - e2 -> e1 - e2 + 1 <= emax - 1 ->
  exists m e,
    SFdiv prec emax (S754_finite s m1 e1) (S754_finite false m2 e2)
    = S754_finite s m e
    /\ e1 - e2 - prec <= e <= e1 - e2 - prec + 2
    /\ Z.abs (Z.pos m * 2 ^ (e - (e1 - e2 - prec)) * Z.pos m2 - Z.pos m1 * 2 ^ prec)
       <= 3 * Z.pos m2.
Proof.
  intros Hd1 Hd2 Hlo Hhi. cbn [SFdiv]. rewrite xorb_false_r.
  unfold SFdiv_core_binary. cbn [Zdigits2]. rewrite Hd1, Hd2.
  replace (prec + e1 - (prec + e2)) with (e1 - e2) by lia.
  rewrite fexp_normal by assumption.
  rewrite Z.min_l by lia.
  replace (e1 - e2 - (e1 - e2 - prec)) with prec by lia.
  assert (Hshift : match prec with
                   | Z.pos _ => Z.shiftl (Z.pos m1) prec
                   | 0 => Z.pos m1
                   | Z.neg _ => 0
                   end = Z.pos m1 * 2 ^ prec).
  { pose proof prec_pos as Hp.
    destruct prec as [ | pp | pp ]; try lia.
    rewrite Z.shiftl_mul_pow2 by lia. reflexivity. }
  rewrite Hshift.
  pose proof (Z_div_mod (Z.pos m1 * 2 ^ prec) (Z.pos m2) ltac:(lia)) as Hdm.
  destruct (Z.div_eucl (Z.pos m1 * 2 ^ prec) (Z.pos m2)) as [q r].
  destruct Hdm as [Hq Hr].
  pose proof (digits2_pos_spec m1) as [L1 U1]. rewrite Hd1 in L1, U1.
  pose proof (digits2_pos_spec m2) as [L2 U2]. rewrite Hd2 in L2, U2.
  assert (Hhalf : 2 ^ prec = 2 * 2 ^ (prec - 1))
    by (rewrite <- Z.pow_succ_r by lia; f_equal; lia).
  assert (Hp1 : 0 < 2 ^ (prec - 1)) by (apply Z.pow_pos_nonneg; lia).
  assert (Hqr : 2 ^ (prec - 1) <= q < 2 ^ (prec + 1)).
  { rewrite (Z.pow_add_r 2 prec 1) by lia. change (2 ^ 1) with 2. nia. }
  destruct q as [ | pq | pq ]; try lia.
  destruct (digits2_pos_between pq (prec - 1) (prec + 1) ltac:(lia) Hqr) as [Dq1 Dq2].
  destruct (binary_round_aux_normal s pq (e1 - e2 - prec) (new_location (Z.pos m2) r))
    as (m & e & -> & He & Herr & _ & _); [ lia | lia | lia | ].
  exists m, e. split; [ reflexivity | ]. split; [ lia | ].
  assert (HE : 2 ^ (Z.pos (digits2_pos pq) - prec) <= 2).
  { change 2 with (2 ^ 1) at 2. apply Z.pow_le_mono_r; lia. }
  apply Z.abs_le in Herr. apply Z.abs_le. nia.
Qed.

End Rounding.

(** ** The scalings of the fix decoder *)

(** Closeness of two fractions, cleared of denominators. *)
Lemma Q_close (a z E : Z) (P N D : positive) :
  Z.abs (a * Z.pos N - z * Z.pos P) * Z.pos D <= E * (Z.pos P * Z.pos N) ->
  Qle_bool (Qabs ((a # P) - (z # N))%Q) (E # D) = true.
Proof.
  intros H. apply Qle_bool_iff. apply Qabs_Qle_condition.
  unfold Qle, Qminus, Qplus, Qopp. cbn [Qnum Qden].
  rewrite !Pos2Z.inj_mul.
  remember (Z.pos P) as p eqn:Hp. remember (Z.pos N) as n eqn:Hn.
  remember (Z.pos D) as d eqn:Hd.
  assert (0 < p) by lia. assert (0 < n) by lia. assert (0 < d) by lia.
  assert (H' : Z.abs ((a * n - z * p) * d) <= E * (p * n))
    by (rewrite Z.abs_mul, (Z.abs_eq d) by lia; exact H).
  apply Z.abs_le in H'. split; lia.
Qed.

Lemma to_Q_small s m e :
  e < 0 ->
  Ieee.to_Q (S754_finite s m e) = Some (Ieee.signed s m # Z.to_pos (2 ^ (- e))).
Proof.
  intros He. unfold Ieee.to_Q. destruct (Z.leb_spec 0 e); [ lia | ].
  destruct s; reflexivity.
Qed.

Lemma to_Q_large s m e :
  0 <= e ->
  Ieee.to_Q (S754_finite s m e) = Some (Ieee.signed s m * 2 ^ e # 1).
Proof.
  intros He. unfold Ieee.to_Q. destruct (Z.leb_spec 0 e); [ | lia ].
  destruct s; [ | reflexivity ].
  unfold inject_Z, Qopp, Ieee.signed. cbn [Qnum Qden]. do 2 f_equal. lia.
Qed.


Lemma signed_diff s a b x y :
  Z.abs (Ieee.signed s a * x - Ieee.signed s b * y) = Z.abs (Z.pos a * x - Z.pos b * y).
Proof.
  destruct s; cbn [Ieee.signed]; [ | reflexivity ].
  replace (Z.neg a * x - Z.neg b * y) with (- (Z.pos a * x - Z.pos b * y)) by lia.
  apply Z.abs_opp.
Qed.

(** A finite float with negative exponent close to a fraction [±m / N]. *)
Lemma close_small s mr er m (E : Z) (N D : positive) :
  er < 0 ->
  Z.abs (Z.pos mr * Z.pos N - Z.pos m * 2 ^ (- er)) * Z.pos D
    <= E * (2 ^ (- er) * Z.pos N) ->
  Ieee.within (S754_finite s mr er) (Ieee.signed s m # N) (E # D) = true.
Proof.
  intros He H. unfold Ieee.within. rewrite to_Q_small by assumption.
  apply Q_close. rewrite signed_diff.
  rewrite Z2Pos.id by (apply Z.pow_pos_nonneg; lia). exact H.
Qed.

(** The same for a float with non-negative exponent. *)
Lemma close_large s mr er m (E : Z) (N D : positive) :
  0 <= er ->
  Z.abs (Z.pos mr * 2 ^ er * Z.pos N - Z.pos m) * Z.pos D <= E * Z.pos N ->
  Ieee.within (S754_finite s mr er) (Ieee.signed s m # N) (E # D) = true.
Proof.
  intros He H. unfold Ieee.within. rewrite to_Q_large by assumption.
  apply Q_close.
  replace (Ieee.signed s mr * 2 ^ er * Z.pos N - Ieee.signed s m * 1)
    with (Ieee.signed s mr * (2 ^ er * Z.pos N) - Ieee.signed s m * 1) by lia.
  rewrite signed_diff. rewrite Z.mul_1_l.
  replace (Z.pos mr * (2 ^ er * Z.pos N) - Z.pos m * 1)
    with (Z.pos mr * 2 ^ er * Z.pos N - Z.pos m) by lia.
  exact H.
Qed.

Lemma digits_le_32 m : Z.pos m <= 2 ^ 32 - 1 -> Z.pos (digits2_pos m) <= 32.
Proof.
  intros Hm. pose proof (digits2_pos_spec m) as [Dlo _].
  destruct (Z_le_gt_dec (Z.pos (digits2_pos m)) 32) as [ | Hgt ]; [ assumption | ].
  assert (2 ^ 32 <= 2 ^ (Z.pos (digits2_pos m) - 1))
    by (apply Z.pow_le_mono_r; lia).
  lia.
Qed.

(** The product of a converted 32-bit magnitude with the constant [1e-7]
    is within 10^-12 of the magnitude times 10^-7. *)
Lemma scaled_by_1e_7 s m :
  Z.pos m <= 2 ^ 31 ->
  exists mr er,
    SFmul 53 1024 (binary_round 53 1024 s m 0) Ieee.d_1e_7 = S754_finite s mr er
    /\ er < 0
    /\ Z.abs (Z.pos mr * 10 ^ 7 - Z.pos m * 2 ^ (- er)) * 10 ^ 12
       <= 1 * (2 ^ (- er) * 10 ^ 7).
Proof.
  intros Hm.
  assert (Hd : Z.pos (digits2_pos m) <= 32)
    by (apply digits_le_32; change (2 ^ 31) with 2147483648 in Hm;
        change (2 ^ 32) with 4294967296; lia).
  destruct (binary_round_integer 53 1024 ltac:(lia) s m ltac:(lia) ltac:(lia))
    as (mz & ez & -> & _ & Hdz & Hexact & _).
  destruct (Hexact ltac:(lia)) as [-> Hmz].
  remember (Z.pos (digits2_pos m)) as d eqn:Hdd.
  assert (Hd1 : 1 <= d) by lia.
  pose proof (digits2_pos_spec mz) as [Zlo Zhi]. rewrite Hdz in Zlo, Zhi.
  change (53 - 1) with 52 in Zlo.
  unfold Ieee.d_1e_7. cbn [SFmul]. rewrite xorb_false_r.
  set (C := 7555786372591432%positive).
  assert (HDr : 104 < Z.pos (digits2_pos (mz * C)) <= 106).
  { apply digits2_pos_between; [ lia | ]. rewrite Pos2Z.inj_mul.
    change (2 ^ 52) with 4503599627370496 in Zlo.
    change (2 ^ 53) with 9007199254740992 in Zhi.
    change (2 ^ 104) with (4503599627370496 * 4503599627370496).
    change (2 ^ 106) with (9007199254740992 * 9007199254740992).
    subst C. nia. }
  destruct (binary_round_aux_normal 53 1024 ltac:(lia) s (mz * C) (d - 53 + -76) loc_Exact)
    as (mr & er & Hr & Her & Herr & _ & _); [ lia | lia | lia | ].
  remember (Z.pos (digits2_pos (mz * C))) as D eqn:HD.
  rewrite Pos2Z.inj_mul in Herr.
  exists mr, er. split; [ exact Hr | ]. split; [ lia | ].
  (* everything in units of 2^(d - 129) *)
  remember (er - (d - 53 + -76)) as a eqn:Ha.
  assert (HE : 2 ^ (D - 53) <= 2 ^ 53) by (apply Z.pow_le_mono_r; lia).
  assert (HA : 0 < 2 ^ a) by (apply Z.pow_pos_nonneg; lia).
  assert (HP : 2 ^ (- er) * 2 ^ a = 2 ^ (53 - d) * 2 ^ 76)
    by (rewrite <- !Z.pow_add_r by lia; f_equal; lia).
  assert (HK : 2 ^ 21 <= 2 ^ (53 - d)) by (apply Z.pow_le_mono_r; lia).
  remember (2 ^ (53 - d)) as K eqn:HKd.
  remember (2 ^ (- er)) as P eqn:HPd.
  remember (2 ^ a) as A eqn:HAd.
  remember (2 ^ (D - 53)) as E eqn:HEd.
  apply Z.abs_le in Herr.
  apply (Z.mul_le_mono_pos_r _ _ A); [ assumption | ].
  rewrite <- Z.mul_assoc, (Z.mul_comm (10 ^ 12) A), Z.mul_assoc.
  rewrite <- (Z.abs_eq A) at 1 by lia. rewrite <- Z.abs_mul.
  replace ((Z.pos mr * 10 ^ 7 - Z.pos m * P) * A)
    with (Z.pos mr * A * 10 ^ 7 - Z.pos mz * 2 ^ 76) by (rewrite Hmz; nia).
  replace (1 * (P * 10 ^ 7) * A) with (K * 2 ^ 76 * 10 ^ 7) by nia.
  change (2 ^ 53) with 9007199254740992 in *.
  change (2 ^ 21) with 2097152 in *.
  change (2 ^ 76) with 75557863725914323419136 in *.
  change (10 ^ 7) with 10000000. change (10 ^ 12) with 1000000000000.
  subst C.
  assert (Habs : Z.abs (Z.pos mr * A * 10000000 - Z.pos mz * 75557863725914323419136)
                 <= 9007199254740992 * 10000000 + 9007199254740992 * 5000000)
    by (apply Z.abs_le; lia).
  nia.
Qed.

(** The quotient of a converted 32-bit magnitude by [1000.0] is within
    10^-8 of the magnitude divided by 1000. *)
Lemma divided_by_1000 s m :
  Z.pos m <= 2 ^ 31 ->
  exists mr er,
    SFdiv 53 1024 (binary_round 53 1024 s m 0) Ieee.d_1000 = S754_finite s mr er
    /\ er < 0
    /\ Z.abs (Z.pos mr * 1000 - Z.pos m * 2 ^ (- er)) * 10 ^ 8
       <= 1 * (2 ^ (- er) * 1000).
Proof.
  intros Hm.
  assert (Hd : Z.pos (digits2_pos m) <= 32)
    by (apply digits_le_32; change (2 ^ 31) with 2147483648 in Hm;
        change (2 ^ 32) with 4294967296; lia).
  destruct (binary_round_integer 53 1024 ltac:(lia) s m ltac:(lia) ltac:(lia))
    as (mz & ez & -> & _ & Hdz & Hexact & _).
  destruct (Hexact ltac:(lia)) as [-> Hmz].
  remember (Z.pos (digits2_pos m)) as d eqn:Hdd.
  assert (Hd1 : 1 <= d) by lia.
  unfold Ieee.d_1000.
  destruct (SFdiv_normal 53 1024 ltac:(lia) s mz (d - 53) 8796093022208000 (-43))
    as (mr & er & -> & Her & Herr); [ assumption | reflexivity | lia | lia | ].
  exists mr, er. split; [ reflexivity | ]. split; [ lia | ].
  remember (er - (d - 53 - -43 - 53)) as a eqn:Ha.
  assert (HA : 0 < 2 ^ a) by (apply Z.pow_pos_nonneg; lia).
  assert (HP : 2 ^ (- er) * 2 ^ a = 2 ^ (53 - d) * 2 ^ 10)
    by (rewrite <- !Z.pow_add_r by lia; f_equal; lia).
  assert (HK : 2 ^ 21 <= 2 ^ (53 - d)) by (apply Z.pow_le_mono_r; lia).
  remember (2 ^ (53 - d)) as K eqn:HKd.
  remember (2 ^ (- er)) as P eqn:HPd.
  remember (2 ^ a) as A eqn:HAd.
  apply Z.abs_le in Herr.
  apply (Z.mul_le_mono_pos_r _ _ A); [ assumption | ].
  rewrite <- Z.mul_assoc, (Z.mul_comm (10 ^ 8) A), Z.mul_assoc.
  rewrite <- (Z.abs_eq A) at 1 by lia. rewrite <- Z.abs_mul.
  replace ((Z.pos mr * 1000 - Z.pos m * P) * A)
    with (Z.pos mr * A * 1000 - Z.pos m * (K * 2 ^ 10)) by nia.
  replace (1 * (P * 1000) * A) with (K * 2 ^ 10 * 1000) by nia.
  change (2 ^ 53) with 9007199254740992 in *.
  change (2 ^ 21) with 2097152 in *.
  change (2 ^ 10) with 1024 in *.
  change (10 ^ 8) with 100000000.
  change (Z.pos 8796093022208000) with (1000 * 8796093022208) in Herr.
  assert (Habs : Z.abs (Z.pos mr * A * 1000 - Z.pos m * (K * 1024)) <= 3000)
    by (apply Z.abs_le; nia).
  nia.
Qed.

(** The quotient of a converted 32-bit magnitude by [1000.0f], in
    binary32, is within two millionths of the magnitude divided by 1000. *)
Lemma divided_by_1000f m :
  Z.pos m <= 2 ^ 32 - 1 ->
  Ieee.within (SFdiv 24 128 (binary_round 24 128 false m 0) Ieee.f_1000)
              (Z.pos m # 1000) (2 * Z.pos m # 1000000000) = true.
Proof.
  intros Hm. pose proof (digits_le_32 m Hm) as Hd.
  pose proof (digits2_pos_spec m) as [Dlo Dhi].
  destruct (binary_round_integer 24 128 ltac:(lia) false m ltac:(lia) ltac:(lia))
    as (mz & ez & -> & Hez & Hdz & Hexact & Hround).
  remember (Z.pos (digits2_pos m)) as d eqn:Hdd.
  assert (Hd1 : 1 <= d) by lia.
  pose proof (digits2_pos_spec mz) as [Zlo Zhi]. rewrite Hdz in Zlo, Zhi.
  change (2 ^ (24 - 1)) with 8388608 in Zlo. change (2 ^ 24) with 16777216 in Zhi.
  unfold Ieee.f_1000.
  destruct (SFdiv_normal 24 128 ltac:(lia) false mz ez 16384000 (-14))
    as (mr & er & -> & Her & Herr); [ assumption | reflexivity | lia | lia | ].
  change (Z.pos m # 1000) with (Ieee.signed false m # 1000).
  remember (er - (ez - -14 - 24)) as a eqn:Ha.
  assert (HA : 0 < 2 ^ a) by (apply Z.pow_pos_nonneg; lia).
  remember (2 ^ a) as A eqn:HAd.
  change (2 ^ 24) with (1024 * 16384) in Herr.
  change (Z.pos 16384000) with (1000 * 16384) in Herr.
  apply Z.abs_le in Herr.
  assert (Hq : Z.abs (Z.pos mr * A * 1000 - Z.pos mz * 1024) <= 3000)
    by (apply Z.abs_le; nia).
  clear Herr.
  destruct (Z_le_gt_dec d 24) as [Hsmall | Hbig].
  - (* the conversion is exact *)
    destruct (Hexact Hsmall) as [-> Hmz].
    apply close_small; [ lia | ].
    assert (HP : 2 ^ (- er) * A = 2 ^ (24 - d) * 1024).
    { subst A. change 1024 with (2 ^ 10).
      rewrite <- !Z.pow_add_r by lia. f_equal. lia. }
    remember (2 ^ (24 - d)) as K eqn:HKd.
    remember (2 ^ (- er)) as P eqn:HPd.
    apply (Z.mul_le_mono_pos_r _ _ A); [ assumption | ].
    rewrite <- Z.mul_assoc, (Z.mul_comm (Z.pos 1000000000) A), Z.mul_assoc.
    rewrite <- (Z.abs_eq A) at 1 by lia. rewrite <- Z.abs_mul.
    replace ((Z.pos mr * Z.pos 1000 - Z.pos m * P) * A)
      with (Z.pos mr * A * 1000 - Z.pos mz * 1024) by (rewrite Hmz; nia).
    replace (2 * Z.pos m * (P * Z.pos 1000) * A)
      with (2048000 * Z.pos mz) by (rewrite Hmz; nia).
    lia.
  - (* the conversion rounds *)
    specialize (Hround ltac:(lia)).
    assert (HE : 0 < 2 ^ (d - 24)) by (apply Z.pow_pos_nonneg; lia).
    assert (Hm23 : 2 ^ (d - 1) = 8388608 * 2 ^ (d - 24)).
    { change 8388608 with (2 ^ 23). rewrite <- Z.pow_add_r by lia. f_equal. lia. }
    assert (Hez2 : 2 ^ ez <= 2 * 2 ^ (d - 24)).
    { change 2 with (2 ^ 1) at 2. rewrite <- Z.pow_add_r by lia.
      apply Z.pow_le_mono_r; lia. }
    assert (Hez0 : 0 < 2 ^ ez) by (apply Z.pow_pos_nonneg; lia).
    assert (HB : 2 ^ (er + 10) = A * 2 ^ ez).
    { subst A. rewrite <- Z.pow_add_r by lia. f_equal. lia. }
    remember (2 ^ (d - 24)) as E0 eqn:HE0.
    remember (2 ^ ez) as Z2 eqn:HZ2.
    apply Z.abs_le in Hround. apply Z.abs_le in Hq.
    assert (Hmain : Z.abs (Z.pos mr * (A * Z2) * 1000 - 1024 * Z.pos m) * 1000000000
                    <= 2048000 * Z.pos m).
    { assert (Z.abs (Z.pos mr * (A * Z2) * 1000 - 1024 * Z.pos m) <= 7024 * E0)
        by (apply Z.abs_le; nia).
      nia. }
    rewrite <- HB in Hmain.
    destruct (Z_lt_le_dec er 0) as [Hneg | Hpos].
    + apply close_small; [ assumption | ].
      assert (HP : 2 ^ (- er) * 2 ^ (er + 10) = 1024).
      { change 1024 with (2 ^ 10). rewrite <- Z.pow_add_r by lia. f_equal. lia. }
      assert (HBp : 0 < 2 ^ (er + 10)) by (apply Z.pow_pos_nonneg; lia).
      remember (2 ^ (er + 10)) as B eqn:HBd.
      remember (2 ^ (- er)) as P eqn:HPd.
      apply (Z.mul_le_mono_pos_r _ _ B); [ assumption | ].
      rewrite <- Z.mul_assoc, (Z.mul_comm (Z.pos 1000000000) B), Z.mul_assoc.
      rewrite <- (Z.abs_eq B) at 1 by lia. rewrite <- Z.abs_mul.
      replace ((Z.pos mr * Z.pos 1000 - Z.pos m * P) * B)
        with (Z.pos mr * B * 1000 - 1024 * Z.pos m) by nia.
      replace (2 * Z.pos m * (P * Z.pos 1000) * B) with (2048000 * Z.pos m) by nia.
      exact Hmain.
    + apply close_large; [ assumption | ].
      assert (HP : 2 ^ (er + 10) = 2 ^ er * 1024).
      { change 1024 with (2 ^ 10). rewrite <- Z.pow_add_r by lia. reflexivity. }
      rewrite HP in Hmain.
      remember (2 ^ er) as R eqn:HRd.
      apply (Z.mul_le_mono_pos_r _ _ 1024); [ lia | ].
      rewrite <- Z.mul_assoc, (Z.mul_comm (Z.pos 1000000000) 1024), Z.mul_assoc.
      rewrite <- (Z.abs_eq 1024) at 1 by lia. rewrite <- Z.abs_mul.
      replace ((Z.pos mr * R * Z.pos 1000 - Z.pos m) * 1024)
        with (Z.pos mr * (R * 1024) * 1000 - 1024 * Z.pos m) by lia.
      replace (2 * Z.pos m * Z.pos 1000 * 1024) with (2048000 * Z.pos m) by lia.
      exact Hmain.
Qed.

(** ** Accuracy of the three scalings, for every raw value *)

Lemma d_of_Z_signed s m :
  Ieee.d_of_Z (Ieee.signed s m) = binary_round 53 1024 s m 0.
Proof. destruct s; reflexivity. Qed.

Lemma signed_cases z :
  z = 0 \/ exists s m, z = Ieee.signed s m /\ Z.abs z = Z.pos m.
Proof.
  destruct z as [ | m | m ]; [ left; reflexivity | right | right ].
  - exists false, m. split; reflexivity.
  - exists true, m. split; reflexivity.
Qed.

(** [raw * 1e-7] in binary64 is within 10^-12 of [raw / 10^7]. *)
Lemma scale_1e_7_accurate z :
  - 2 ^ 31 <= z < 2 ^ 31 ->
  Ieee.within (Ieee.d_mul (Ieee.d_of_Z z) Ieee.d_1e_7)
              (z # 10000000) (1 # 1000000000000) = true.
Proof.
  intros Hz. destruct (signed_cases z) as [-> | (s & m & -> & Habs)];
    [ reflexivity | ].
  rewrite d_of_Z_signed. unfold Ieee.d_mul.
  destruct (scaled_by_1e_7 s m ltac:(lia)) as (mr & er & -> & Her & Hclose).
  apply close_small; assumption.
Qed.

(** [raw / 1000.0] in binary64 is within 10^-8 of [raw / 1000]. *)
Lemma div_1000_accurate z :
  - 2 ^ 31 <= z < 2 ^ 31 ->
  Ieee.within (Ieee.d_div (Ieee.d_of_Z z) Ieee.d_1000)
              (z # 1000) (1 # 100000000) = true.
Proof.
  intros Hz. destruct (signed_cases z) as [-> | (s & m & -> & Habs)];
    [ reflexivity | ].
  rewrite d_of_Z_signed. unfold Ieee.d_div.
  destruct (divided_by_1000 s m ltac:(lia)) as (mr & er & -> & Her & Hclose).
  apply close_small; assumption.
Qed.

(** [raw / 1000.0f] in binary32 is within two millionths of [raw / 1000],
    relative to its size. *)
Lemma div_1000f_accurate u :
  0 <= u < 2 ^ 32 ->
  Ieee.within (Ieee.f_div (Ieee.f_of_Z u) Ieee.f_1000)
              (u # 1000) (2 * u # 1000000000) = true.
Proof.
  intros Hu. destruct u as [ | m | m ]; [ reflexivity | | lia ].
  apply divided_by_1000f. lia.
Qed.

End IeeeFacts.

(** ** Bus transport and fix decoding *)

Module ZedRoverFacts.
Import ZedRover.

Lemma le_unsigned_range p k : bytes_ok p -> 0 <= le_unsigned p k < 2 ^ 32.
Proof.
  intros H. unfold le_unsigned.
  pose proof (byte_at_ok p k H). pose proof (byte_at_ok p (k + 1) H).
  pose proof (byte_at_ok p (k + 2) H). pose proof (byte_at_ok p (k + 3) H).
  unfold byte_ok in *. lia.
Qed.

Lemma le32_unsigned p k : bytes_ok p -> le32 p k = le_unsigned p k.
Proof.
  intros H. unfold le32, le_unsigned.
  pose proof (byte_at_ok p k H). pose proof (byte_at_ok p (k + 1) H).
  pose proof (byte_at_ok p (k + 2) H). pose proof (byte_at_ok p (k + 3) H).
  unfold byte_ok in *.
  rewrite (lor_shiftl_add (byte_at p (k + 1)) (byte_at p k) 8) by lia.
  rewrite (lor_shiftl_add (byte_at p (k + 2))) by lia.
  rewrite (lor_shiftl_add (byte_at p (k + 3))) by lia.
  lia.
Qed.

Lemma le32_signed p k : bytes_ok p -> to_int32 (le32 p k) = le_signed p k.
Proof.
  intros H. rewrite le32_unsigned by assumption.
  rewrite to_int32_unsigned by now apply le_unsigned_range.
  reflexivity.
Qed.

Lemma le32_to_uint32 p k : bytes_ok p -> to_uint32 (le32 p k) = le_unsigned p k.
Proof.
  intros H. rewrite le32_unsigned by assumption.
  unfold to_uint32. apply Z.mod_small. now apply le_unsigned_range.
Qed.

(** C8. [zed_rover_available] returns -1 when the register read fails;
    when it succeeds with bytes [b0], [b1] it returns 0 if the big-endian
    value [256 * b0 + b1] is the sentinel 0xFFFF and that value otherwise. *)
Theorem zed_rover_available_spec (reply : len_reply) :
  match reply with
  | None => zed_rover_available reply = -1
  | Some (b0, b1) =>
      byte_ok b0 -> byte_ok b1 ->
      (256 * b0 + b1 = 65535 -> zed_rover_available reply = 0)
      /\ (256 * b0 + b1 <> 65535 ->
          zed_rover_available reply = 256 * b0 + b1
          /\ 0 <= zed_rover_available reply < 65535)
  end.
Proof.
  destruct reply as [[b0 b1] | ]; [ | reflexivity ].
  intros H0 H1. unfold zed_rover_available, byte_ok in *.
  rewrite Z.lor_comm, lor_shiftl_add by lia.
  replace (b1 + b0 * 2 ^ 8) with (256 * b0 + b1) by lia.
  split; intros Hv.
  - rewrite Hv. reflexivity.
  - destruct (Z.eqb_spec (256 * b0 + b1) 65535); lia.
Qed.

Lemma zed_rover_available_spec_witness :
  zed_rover_available (Some (255, 255)) = 0
  /\ zed_rover_available (Some (1, 44)) = 300
  /\ zed_rover_available None = -1.
Proof.
  pose proof (zed_rover_available_spec (Some (255, 255))) as Hs.
  pose proof (zed_rover_available_spec (Some (1, 44))) as Hd.
  pose proof (zed_rover_available_spec None) as He.
  cbv beta iota in Hs, Hd, He.
  split; [ | split ].
  - apply Hs; unfold byte_ok; lia.
  - apply Hd; unfold byte_ok; lia.
  - exact He.
Defined.

(** *** The search loop *)

Lemma payload_len_nonneg buf i : bytes_ok buf -> 0 <= payload_len_at buf i < 65536.
Proof.
  intros H. unfold payload_len_at.
  pose proof (byte_at_ok buf (i + 4) H) as H4.
  pose proof (byte_at_ok buf (i + 5) H) as H5.
  unfold byte_ok in *. rewrite lor_shiftl_add by lia. lia.
Qed.

(** One iteration of the loop, case by case. *)
Lemma scan_exit fuel buf i :
  len buf - 8 <= i -> scan (S fuel) buf i = Some (NotFound buf).
Proof.
  intros H. simpl. destruct (Z.ltb_spec i (len buf - 8)); [ lia | reflexivity ].
Qed.

Lemma scan_no_sync fuel buf i :
  i < len buf - 8 ->
  (byte_at buf i <> UBX_SYNC1 \/ byte_at buf (i + 1) <> UBX_SYNC2) ->
  scan (S fuel) buf i = scan fuel buf (i + 1).
Proof.
  intros Hi Hs. cbn [scan].
  destruct (Z.ltb_spec i (len buf - 8)); [ | lia ].
  destruct (Z.eqb_spec (byte_at buf i) UBX_SYNC1);
    destruct (Z.eqb_spec (byte_at buf (i + 1)) UBX_SYNC2);
    cbn [andb]; try reflexivity.
  destruct Hs; contradiction.
Qed.

Lemma scan_incomplete fuel buf i :
  i < len buf - 8 ->
  byte_at buf i = UBX_SYNC1 -> byte_at buf (i + 1) = UBX_SYNC2 ->
  len buf < i + 8 + payload_len_at buf i ->
  scan (S fuel) buf i = Some (NotFound buf).
Proof.
  intros Hi H1 H2 Hl. cbn [scan]. fold (payload_len_at buf i).
  destruct (Z.ltb_spec i (len buf - 8)); [ | lia ].
  rewrite H1, H2, !Z.eqb_refl. cbn [andb].
  destruct (Z.gtb_spec (i + (6 + payload_len_at buf i + 2)) (len buf));
    [ reflexivity | lia ].
Qed.

Lemma scan_bad_checksum fuel buf i :
  i < len buf - 8 ->
  byte_at buf i = UBX_SYNC1 -> byte_at buf (i + 1) = UBX_SYNC2 ->
  i + 8 + payload_len_at buf i <= len buf ->
  ubx_checksum (sub buf (i + 2) (4 + payload_len_at buf i))
    <> (byte_at buf (i + 6 + payload_len_at buf i),
        byte_at buf (i + 7 + payload_len_at buf i)) ->
  scan (S fuel) buf i = scan fuel buf (i + 1).
Proof.
  intros Hi H1 H2 Hl Hck. cbn [scan]. fold (payload_len_at buf i).
  destruct (Z.ltb_spec i (len buf - 8)); [ | lia ].
  rewrite H1, H2, !Z.eqb_refl. cbn [andb].
  destruct (Z.gtb_spec (i + (6 + payload_len_at buf i + 2)) (len buf)); [ lia | ].
  destruct (ubx_checksum _) as [ck_a ck_b].
  destruct (Z.eqb_spec ck_a (byte_at buf (i + 6 + payload_len_at buf i)));
    destruct (Z.eqb_spec ck_b (byte_at buf (i + 7 + payload_len_at buf i)));
    cbn [negb orb]; try reflexivity.
  subst. contradiction.
Qed.

Lemma scan_good_checksum fuel buf i :
  i < len buf - 8 ->
  frame_at buf i ->
  scan (S fuel) buf i =
    if (byte_at buf (i + 2) =? UBX_CLASS_NAV) && (byte_at buf (i + 3) =? UBX_NAV_PVT)
       && (payload_len_at buf i =? 92)
    then Some (Found (decode_nav_pvt (sub buf (i + 6) (payload_len_at buf i)))
                     (skipn (Z.to_nat (i + (8 + payload_len_at buf i))) buf))
    else scan fuel (skipn (Z.to_nat (i + (8 + payload_len_at buf i))) buf) 0.
Proof.
  intros Hi (H0 & H1 & H2 & Hl & Hck). cbn [scan]. fold (payload_len_at buf i).
  destruct (Z.ltb_spec i (len buf - 8)); [ | lia ].
  rewrite H1, H2, !Z.eqb_refl. cbn [andb].
  destruct (Z.gtb_spec (i + (6 + payload_len_at buf i + 2)) (len buf)); [ lia | ].
  rewrite Hck, !Z.eqb_refl. cbn [negb orb].
  replace (6 + payload_len_at buf i + 2) with (8 + payload_len_at buf i) by lia.
  reflexivity.
Qed.

(** What the loop meets at index [i]. *)
Lemma scan_step_cases buf i :
  0 <= i ->
  (byte_at buf i <> UBX_SYNC1 \/ byte_at buf (i + 1) <> UBX_SYNC2)
  \/ (byte_at buf i = UBX_SYNC1 /\ byte_at buf (i + 1) = UBX_SYNC2
      /\ len buf < i + 8 + payload_len_at buf i)
  \/ (byte_at buf i = UBX_SYNC1 /\ byte_at buf (i + 1) = UBX_SYNC2
      /\ i + 8 + payload_len_at buf i <= len buf
      /\ ubx_checksum (sub buf (i + 2) (4 + payload_len_at buf i))
         <> (byte_at buf (i + 6 + payload_len_at buf i),
             byte_at buf (i + 7 + payload_len_at buf i)))
  \/ frame_at buf i.
Proof.
  intros Hi.
  destruct (Z.eq_dec (byte_at buf i) UBX_SYNC1) as [H1 | H1]; [ | now left; left ].
  destruct (Z.eq_dec (byte_at buf (i + 1)) UBX_SYNC2) as [H2 | H2];
    [ | now left; right ].
  right.
  destruct (Z_lt_le_dec (len buf) (i + 8 + payload_len_at buf i)) as [Hl | Hl];
    [ now left | right ].
  destruct (ubx_checksum (sub buf (i + 2) (4 + payload_len_at buf i)))
    as [ck_a ck_b] eqn:Hck.
  destruct (Z.eq_dec ck_a (byte_at buf (i + 6 + payload_len_at buf i))) as [Ha | Ha];
    [ | left; repeat split; try assumption; congruence ].
  destruct (Z.eq_dec ck_b (byte_at buf (i + 7 + payload_len_at buf i))) as [Hb | Hb];
    [ | left; repeat split; try assumption; congruence ].
  right. unfold frame_at. rewrite Hck, Ha, Hb. auto.
Qed.

Lemma payload_len_at_skipn a buf i :
  0 <= a -> 0 <= i ->
  payload_len_at (skipn (Z.to_nat a) buf) i = payload_len_at buf (a + i).
Proof.
  intros Ha Hi. unfold payload_len_at.
  rewrite !byte_at_skipn by lia. now rewrite !Z.add_assoc.
Qed.

Lemma frame_at_skipn a buf i :
  bytes_ok buf ->
  0 <= a <= len buf -> frame_at (skipn (Z.to_nat a) buf) i -> frame_at buf (a + i).
Proof.
  intros Hok Ha (H0 & H1 & H2 & Hl & Hck). unfold frame_at.
  rewrite payload_len_at_skipn in Hl, Hck by lia.
  pose proof (payload_len_nonneg buf (a + i) Hok) as Hp.
  rewrite len_skipn in Hl by lia.
  rewrite byte_at_skipn in H1, H2 by lia.
  rewrite sub_skipn in Hck by lia.
  rewrite 2 byte_at_skipn in Hck by lia.
  split; [ lia | ]. split; [ exact H1 | ].
  split; [ rewrite <- H2; f_equal; lia | ].
  split; [ lia | ].
  etransitivity; [ etransitivity; [ | exact Hck ] | ].
  - do 2 f_equal. lia.
  - f_equal; f_equal; lia.
Qed.

Lemma nav_pvt_at_skipn a buf i :
  bytes_ok buf ->
  0 <= a <= len buf -> nav_pvt_at (skipn (Z.to_nat a) buf) i -> nav_pvt_at buf (a + i).
Proof.
  intros Hok Ha (Hf & Hc & Hi & Hp).
  assert (0 <= i) by apply Hf.
  rewrite payload_len_at_skipn in Hp by lia.
  rewrite !byte_at_skipn in Hc, Hi by lia.
  rewrite !Z.add_assoc in Hc, Hi.
  split; [ now apply frame_at_skipn | auto ].
Qed.

(** A fix is only ever returned for a complete, checksummed target frame
    lying at or after the index the loop was entered at; what follows the
    frame stays in the accumulator. *)
Lemma scan_found fuel : forall buf i pos rest,
  bytes_ok buf -> 0 <= i ->
  scan fuel buf i = Some (Found pos rest) ->
  exists off,
    i <= off /\ nav_pvt_at buf off
    /\ pos = decode_nav_pvt (sub buf (off + 6) 92)
    /\ rest = skipn (Z.to_nat (off + 100)) buf.
Proof.
  induction fuel as [ | fuel IH ]; intros buf i pos rest Hok Hi Hscan;
    [ discriminate | ].
  destruct (Z_lt_le_dec i (len buf - 8)) as [Hg | Hg];
    [ | rewrite scan_exit in Hscan by lia; discriminate ].
  destruct (scan_step_cases buf i Hi)
    as [Hns | [(H1 & H2 & Hl) | [(H1 & H2 & Hl & Hck) | Hf]]].
  - rewrite scan_no_sync in Hscan by assumption.
    apply IH in Hscan; [ | assumption | lia ].
    destruct Hscan as (off & Hoff & Hrest).
    exists off. split; [ lia | exact Hrest ].
  - rewrite scan_incomplete in Hscan by assumption. discriminate.
  - rewrite scan_bad_checksum in Hscan by assumption.
    apply IH in Hscan; [ | assumption | lia ].
    destruct Hscan as (off & Hoff & Hrest).
    exists off. split; [ lia | exact Hrest ].
  - rewrite scan_good_checksum in Hscan by assumption.
    pose proof (payload_len_nonneg buf i Hok) as Hp.
    assert (Hl : i + 8 + payload_len_at buf i <= len buf) by apply Hf.
    destruct ((byte_at buf (i + 2) =? UBX_CLASS_NAV)
              && (byte_at buf (i + 3) =? UBX_NAV_PVT)
              && (payload_len_at buf i =? 92)) eqn:Htarget.
    + apply andb_prop in Htarget. destruct Htarget as [Htarget He].
      apply andb_prop in Htarget. destruct Htarget as [Hc Hd].
      apply Z.eqb_eq in Hc, Hd, He.
      injection Hscan as Hpos Hrest. exists i.
      split; [ lia | ]. split; [ unfold nav_pvt_at; auto | ].
      rewrite He in Hpos, Hrest.
      split; [ now symmetry | ].
      rewrite <- Hrest. f_equal; lia.
    + apply IH in Hscan; [ | now apply bytes_ok_skipn | lia ].
      destruct Hscan as (off & Hoff & Hnav & Hpos & Hrest).
      exists (i + (8 + payload_len_at buf i) + off).
      split; [ lia | ].
      split; [ apply nav_pvt_at_skipn; [ assumption | lia | assumption ] | ].
      rewrite sub_skipn in Hpos by lia.
      rewrite skipn_skipn in Hrest.
      split; [ rewrite Hpos; do 2 f_equal; lia | rewrite Hrest; f_equal; lia ].
Qed.

(** The loop always ends within [len buf - i] iterations (and one more
    test of its condition). *)
Lemma scan_total fuel : forall buf i,
  bytes_ok buf -> 0 <= i -> len buf - i < Z.of_nat fuel -> (0 < fuel)%nat ->
  exists r, scan fuel buf i = Some r.
Proof.
  induction fuel as [ | fuel IH ]; intros buf i Hok Hi Hfuel Hpos; [ lia | ].
  destruct (Z_lt_le_dec i (len buf - 8)) as [Hg | Hg];
    [ | rewrite scan_exit by lia; eauto ].
  destruct (scan_step_cases buf i Hi)
    as [Hns | [(H1 & H2 & Hl) | [(H1 & H2 & Hl & Hck) | Hf]]].
  - rewrite scan_no_sync by assumption. apply IH; try assumption; lia.
  - rewrite scan_incomplete by assumption. eauto.
  - rewrite scan_bad_checksum by assumption. apply IH; try assumption; lia.
  - rewrite scan_good_checksum by assumption.
    pose proof (payload_len_nonneg buf i Hok) as Hp.
    assert (Hl : i + 8 + payload_len_at buf i <= len buf) by apply Hf.
    destruct (_ && _); [ eauto | ].
    apply IH; [ now apply bytes_ok_skipn | lia | | lia ].
    rewrite len_skipn; lia.
Qed.

(** Where no complete checksummed frame starts at or after the index of
    entry, the loop leaves the accumulator as it found it. *)
Lemma scan_no_frame fuel : forall buf i,
  0 <= i -> len buf - i < Z.of_nat fuel -> (0 < fuel)%nat ->
  (forall j, i <= j -> ~ frame_at buf j) ->
  scan fuel buf i = Some (NotFound buf).
Proof.
  induction fuel as [ | fuel IH ]; intros buf i Hi Hfuel Hpos Hnone; [ lia | ].
  destruct (Z_lt_le_dec i (len buf - 8)) as [Hg | Hg];
    [ | now rewrite scan_exit by lia ].
  destruct (scan_step_cases buf i Hi)
    as [Hns | [(H1 & H2 & Hl) | [(H1 & H2 & Hl & Hck) | Hf]]].
  - rewrite scan_no_sync by assumption.
    apply IH; try lia. intros j Hj. apply Hnone. lia.
  - now rewrite scan_incomplete by assumption.
  - rewrite scan_bad_checksum by assumption.
    apply IH; try lia. intros j Hj. apply Hnone. lia.
  - exfalso. apply (Hnone i); [ lia | assumption ].
Qed.

(** *** One call of [feed] *)

Lemma feed_nil buf : feed buf [] = Some (no_position buf).
Proof. reflexivity. Qed.

(** A call that finds between 1 and 65534 bytes on the bus appends them,
    cut at capacity, runs the search, and clears an accumulator of more
    than 200 bytes when the search ends without a fix. *)
Lemma feed_appended buf new :
  0 < len new < 65535 ->
  feed buf new =
    match scan (scan_fuel (appended buf new)) (appended buf new) 0 with
    | None => None
    | Some (Found pos b) => Some {| ret := true; pos_out := pos; buffer_out := b |}
    | Some (NotFound b) => Some (no_position (if len b >? 200 then [] else b))
    end.
Proof.
  intros Hn. unfold feed, zed_rover_get_position, bus_with.
  cbn [poll_len read_len_reply read_data].
  unfold zed_rover_read.
  assert (Ha : zed_rover_available (Some (len new / 256, len new mod 256)) = len new).
  { unfold zed_rover_available. rewrite be16_split by lia.
    destruct (Z.eqb_spec (len new) 65535); [ lia | reflexivity ]. }
  rewrite Ha.
  destruct (Z.leb_spec (len new) 0); [ lia | ].
  set (to_read := if len new <? UBX_BUFFER_SIZE then len new else UBX_BUFFER_SIZE).
  assert (Hr : 0 < to_read <= UBX_BUFFER_SIZE).
  { unfold to_read, UBX_BUFFER_SIZE. destruct (Z.ltb_spec (len new) 256); lia. }
  destruct (Z.leb_spec to_read 0); [ lia | ].
  unfold parse_appended, appended.
  assert (Hf : firstn (Z.to_nat (if to_read <? UBX_BUFFER_SIZE - len buf
                                 then to_read else UBX_BUFFER_SIZE - len buf))
                      (firstn (Z.to_nat to_read) new)
               = firstn (Z.to_nat (UBX_BUFFER_SIZE - len buf)) new).
  { rewrite firstn_firstn. pose proof (len_nonneg buf).
    destruct (Z.ltb_spec to_read (UBX_BUFFER_SIZE - len buf)).
    - rewrite Nat.min_id. unfold to_read in *.
      destruct (Z.ltb_spec (len new) UBX_BUFFER_SIZE); [ | lia ].
      unfold len in *. rewrite !firstn_all2 by lia. reflexivity.
    - f_equal. lia. }
  rewrite Hf. reflexivity.
Qed.

Lemma bytes_ok_appended buf new :
  bytes_ok buf -> bytes_ok new -> bytes_ok (appended buf new).
Proof.
  intros Hb Hn. apply bytes_ok_app; [ assumption | now apply bytes_ok_firstn ].
Qed.

(** Every call returns. *)
Lemma parse_appended_total buf temp n :
  bytes_ok buf -> bytes_ok temp -> exists r, parse_appended buf temp n = Some r.
Proof.
  intros Hb Ht. unfold parse_appended.
  set (acc := buf ++ _).
  assert (Hacc : bytes_ok acc)
    by (apply bytes_ok_app; [ assumption | now apply bytes_ok_firstn ]).
  destruct (scan_total (scan_fuel acc) acc 0 Hacc) as [r Hr];
    [ lia | unfold scan_fuel, len; lia | unfold scan_fuel; lia | ].
  rewrite Hr. destruct r; eauto.
Qed.

Lemma zed_rover_read_bytes_ok reply data max_len read_len temp_buf :
  match data with Some bytes => bytes_ok bytes | None => True end ->
  zed_rover_read reply data max_len = (read_len, temp_buf) ->
  bytes_ok temp_buf.
Proof.
  intros Hd Hread. unfold zed_rover_read in Hread.
  destruct (_ <=? 0) in Hread.
  - injection Hread as _ <-. constructor.
  - destruct data; injection Hread as _ <-;
      [ now apply bytes_ok_firstn | constructor ].
Qed.

Lemma zed_rover_get_position_total bus buf :
  bytes_ok buf ->
  match read_data bus with Some bytes => bytes_ok bytes | None => True end ->
  exists r, zed_rover_get_position bus buf = Some r.
Proof.
  intros Hb Hbus. unfold zed_rover_get_position.
  destruct (_ <=? 0); [ eauto | ].
  destruct (zed_rover_read _ _ _) as [read_len temp_buf] eqn:Hread.
  destruct (read_len <=? 0); [ eauto | ].
  apply parse_appended_total; [ assumption | ].
  eapply zed_rover_read_bytes_ok; eassumption.
Qed.

(** What a call leaves in the accumulator are bytes. *)
Lemma zed_rover_get_position_keeps_bytes bus buf r :
  bytes_ok buf ->
  match read_data bus with Some bytes => bytes_ok bytes | None => True end ->
  zed_rover_get_position bus buf = Some r ->
  bytes_ok (buffer_out r).
Proof.
  intros Hb Hbus Hget. unfold zed_rover_get_position in Hget.
  destruct (_ <=? 0) in Hget; [ now injection Hget as <- | ].
  destruct (zed_rover_read _ _ _) as [read_len temp_buf] eqn:Hread.
  destruct (read_len <=? 0); [ now injection Hget as <- | ].
  assert (Ht : bytes_ok temp_buf)
    by (eapply zed_rover_read_bytes_ok; eassumption).
  unfold parse_appended in Hget.
  set (acc := buf ++ _) in Hget.
  assert (Hacc : bytes_ok acc)
    by (apply bytes_ok_app; [ assumption | now apply bytes_ok_firstn ]).
  destruct (scan (scan_fuel acc) acc 0) as [res | ] eqn:Hscan; [ | discriminate ].
  assert (Hres : match res with Found _ b | NotFound b => bytes_ok b end).
  { assert (Hgen : forall fuel b i res0,
               bytes_ok b -> scan fuel b i = Some res0 ->
               match res0 with Found _ b' | NotFound b' => bytes_ok b' end).
    { induction fuel as [ | fuel IH ]; intros b i res0 Hbok Hs; [ discriminate | ].
      cbn [scan] in Hs.
      destruct (i <? len b - 8); [ | injection Hs as <-; exact Hbok ].
      destruct (_ && _); [ | now apply (IH _ _ _ Hbok Hs) ].
      destruct (_ >? len b); [ injection Hs as <-; exact Hbok | ].
      destruct (ubx_checksum _) as [ck_a ck_b].
      destruct (_ || _); [ now apply (IH _ _ _ Hbok Hs) | ].
      destruct (_ && _).
      - injection Hs as <-. now apply bytes_ok_skipn.
      - apply (IH _ _ _ (bytes_ok_skipn _ _ Hbok) Hs). }
    exact (Hgen _ _ _ _ Hacc Hscan). }
  destruct res as [pos b | b]; injection Hget as <-; cbn [buffer_out no_position].
  - exact Hres.
  - destruct (len b >? 200); [ constructor | exact Hres ].
Qed.

(** The append of [zed_rover_get_position], on what [zed_rover_read]
    stored in [temp_buf], is [appended]. *)
Lemma copied_is_appended buf reply data read_len temp_buf :
  zed_rover_read reply data UBX_BUFFER_SIZE = (read_len, temp_buf) ->
  firstn (Z.to_nat (if read_len <? UBX_BUFFER_SIZE - len buf
                    then read_len else UBX_BUFFER_SIZE - len buf)) temp_buf
  = firstn (Z.to_nat (UBX_BUFFER_SIZE - len buf)) temp_buf.
Proof.
  intros Hread. unfold zed_rover_read in Hread.
  destruct (_ <=? 0) in Hread;
    [ injection Hread as _ <-; now rewrite !firstn_nil | ].
  destruct data as [bytes | ];
    [ | injection Hread as _ <-; now rewrite !firstn_nil ].
  injection Hread as <- <-.
  set (to_read := if _ <? UBX_BUFFER_SIZE then _ else _).
  destruct (Z.ltb_spec to_read (UBX_BUFFER_SIZE - len buf)); [ | reflexivity ].
  rewrite !firstn_firstn. f_equal. lia.
Qed.

(** A call that returns [true] decoded a complete, checksummed target
    frame of the accumulator as it stood after the append, and leaves
    what follows that frame. *)
Lemma zed_rover_get_position_found bus buf r :
  bytes_ok buf ->
  match read_data bus with Some bytes => bytes_ok bytes | None => True end ->
  zed_rover_get_position bus buf = Some r -> ret r = true ->
  let stored :=
    snd (zed_rover_read (read_len_reply bus) (read_data bus) UBX_BUFFER_SIZE) in
  let acc := appended buf stored in
  exists off,
    nav_pvt_at acc off
    /\ pos_out r = decode_nav_pvt (sub acc (off + 6) 92)
    /\ buffer_out r = skipn (Z.to_nat (off + 100)) acc.
Proof.
  intros Hb Hbus Hget Hret stored acc. unfold zed_rover_get_position in Hget.
  destruct (_ <=? 0) in Hget; [ injection Hget as <-; discriminate | ].
  unfold acc, stored. clear acc stored.
  destruct (zed_rover_read _ _ _) as [read_len temp_buf] eqn:Hread.
  cbn [snd].
  destruct (read_len <=? 0); [ injection Hget as <-; discriminate | ].
  assert (Ht : bytes_ok temp_buf)
    by (eapply zed_rover_read_bytes_ok; eassumption).
  unfold parse_appended in Hget.
  rewrite (copied_is_appended buf _ _ _ _ Hread) in Hget.
  fold (appended buf temp_buf) in Hget.
  pose proof (bytes_ok_appended buf temp_buf Hb Ht) as Hacc.
  destruct (scan _ (appended buf temp_buf) 0) as [[pos b | b] | ] eqn:Hscan;
    [ | injection Hget as <-; discriminate | discriminate ].
  injection Hget as <-. cbn [pos_out buffer_out].
  apply scan_found in Hscan; [ | assumption | lia ].
  destruct Hscan as (off & _ & Hnav & Hpos & Hrest).
  exists off. split; [ exact Hnav | ]. split; [ exact Hpos | exact Hrest ].
Qed.

Lemma zed_rover_get_position_not_found bus buf r :
  zed_rover_get_position bus buf = Some r -> ret r = false ->
  pos_out r = position_zero.
Proof.
  intros Hget Hret. unfold zed_rover_get_position in Hget.
  destruct (_ <=? 0) in Hget; [ now injection Hget as <- | ].
  destruct (zed_rover_read _ _ _) as [read_len temp_buf].
  destruct (read_len <=? 0); [ now injection Hget as <- | ].
  unfold parse_appended in Hget.
  destruct (scan _ _ 0) as [[pos b | b] | ];
    [ injection Hget as <-; discriminate | now injection Hget as <- | discriminate ].
Qed.

Lemma land_1_testbit x : negb (Z.land x 1 =? 0) = Z.testbit x 0.
Proof.
  change 1 with (Z.ones 1). rewrite Z.land_ones by lia.
  change (2 ^ 1) with 2. rewrite <- Z.bit0_mod.
  now destruct (Z.testbit x 0).
Qed.

Lemma decode_valid p :
  valid (decode_nav_pvt p) = true
  <-> Z.testbit (byte_at p 11) 0 = true /\ 2 <= byte_at p 20.
Proof.
  cbn [decode_nav_pvt valid]. rewrite land_1_testbit, andb_true_iff, Z.leb_le.
  reflexivity.
Qed.

(** The two bytes the flag is computed from, read in the accumulator
    that holds the frame. *)
Lemma payload_byte acc off k :
  0 <= off -> off + 100 <= len acc -> 0 <= k < 92 ->
  byte_at (sub acc (off + 6) 92) k = byte_at acc (off + 6 + k).
Proof.
  intros Hoff Hfit Hk. unfold sub.
  rewrite byte_at_firstn by lia. apply byte_at_skipn; lia.
Qed.

(** *** Frames laid out in the accumulator *)

Lemma frame_bytes_len cls id payload ck_a ck_b :
  len (frame_bytes cls id payload ck_a ck_b) = 8 + len payload.
Proof.
  unfold frame_bytes, len. rewrite !length_app. simpl length. lia.
Qed.

Lemma firstn_len_app (l rest : list Z) :
  firstn (Z.to_nat (len l)) (l ++ rest) = l.
Proof.
  unfold len. rewrite Nat2Z.id, firstn_app, Nat.sub_diag, firstn_all.
  simpl. apply app_nil_r.
Qed.

Section Layout.
Variables (pre post payload : list Z) (cls id ck_a ck_b : Z).
Hypothesis payload_short : len payload < 65536.

Let buf := pre ++ frame_bytes cls id payload ck_a ck_b ++ post.
Let i := len pre.

Lemma layout_len : len buf = len pre + 8 + len payload + len post.
Proof.
  unfold buf. rewrite !len_app, frame_bytes_len. lia.
Qed.

Lemma layout_header :
  byte_at buf i = UBX_SYNC1 /\ byte_at buf (i + 1) = UBX_SYNC2
  /\ byte_at buf (i + 2) = cls /\ byte_at buf (i + 3) = id
  /\ payload_len_at buf i = len payload.
Proof.
  unfold payload_len_at, buf, i.
  rewrite <- (Z.add_0_r (len pre)) at 1.
  rewrite !byte_at_app_r by lia.
  repeat split; try reflexivity.
  unfold frame_bytes, byte_at. simpl.
  apply le16_split. pose proof (len_nonneg payload). lia.
Qed.

Lemma layout_checksummed :
  sub buf (i + 2) (4 + len payload) = checksummed cls id payload.
Proof.
  unfold buf, i. rewrite sub_app_r by lia.
  unfold frame_bytes, sub. simpl skipn.
  rewrite <- app_assoc.
  change (firstn (Z.to_nat (4 + len payload))
                 (checksummed cls id payload ++ [ck_a; ck_b] ++ post)
          = checksummed cls id payload).
  replace (4 + len payload) with (len (checksummed cls id payload)).
  - apply firstn_len_app.
  - unfold checksummed. rewrite len_app. reflexivity.
Qed.

Lemma layout_payload : sub buf (i + 6) (len payload) = payload.
Proof.
  unfold buf, i. rewrite sub_app_r by lia.
  unfold frame_bytes, sub. simpl skipn.
  rewrite <- app_assoc. apply firstn_len_app.
Qed.

Lemma layout_trailer :
  byte_at buf (i + 6 + len payload) = ck_a
  /\ byte_at buf (i + 7 + len payload) = ck_b
  /\ skipn (Z.to_nat (i + 8 + len payload)) buf = post.
Proof.
  pose proof (len_nonneg payload) as Hp.
  assert (Hbuf : buf = (pre ++ [UBX_SYNC1; UBX_SYNC2; cls; id;
                                len payload mod 256; len payload / 256]
                            ++ payload) ++ ck_a :: ck_b :: post).
  { unfold buf, frame_bytes. rewrite <- !app_assoc. reflexivity. }
  assert (Hl : len (pre ++ [UBX_SYNC1; UBX_SYNC2; cls; id;
                            len payload mod 256; len payload / 256]
                        ++ payload) = i + 6 + len payload).
  { unfold i, len. rewrite !length_app. simpl length. lia. }
  rewrite Hbuf.
  replace (i + 7 + len payload) with (i + 6 + len payload + 1) by lia.
  replace (i + 8 + len payload) with (i + 6 + len payload + 2) by lia.
  rewrite <- (Z.add_0_r (i + 6 + len payload)) at 1.
  rewrite <- Hl.
  rewrite !byte_at_app_r, skipn_app_r by lia.
  repeat split.
Qed.

End Layout.

(** Bytes that are not the first sync byte are stepped over one by one. *)
Lemma scan_skip_noise n : forall fuel buf i,
  0 <= i ->
  (forall j, i <= j < i + Z.of_nat n -> byte_at buf j <> UBX_SYNC1) ->
  i + Z.of_nat n <= len buf - 8 ->
  scan (n + fuel) buf i = scan fuel buf (i + Z.of_nat n).
Proof.
  induction n as [ | n IH ]; intros fuel buf i Hi Hnoise Hlen.
  - simpl. f_equal. lia.
  - change (S n + fuel)%nat with (S (n + fuel)).
    rewrite scan_no_sync; [ | lia | left; apply Hnoise; lia ].
    rewrite IH; [ f_equal; lia | lia | | lia ].
    intros j Hj. apply Hnoise. lia.
Qed.

Section OneFrameStream.
Variables (noise payload : list Z).
Hypothesis noise_no_sync : Forall (fun b => b <> UBX_SYNC1) noise.
Hypothesis payload_len : len payload = 92.

Let stream := noise ++ nav_pvt_frame payload.

Let ck := ubx_checksum (checksummed UBX_CLASS_NAV UBX_NAV_PVT payload).

Lemma stream_bytes :
  stream = noise ++ frame_bytes UBX_CLASS_NAV UBX_NAV_PVT payload (fst ck) (snd ck) ++ [].
Proof.
  unfold stream, nav_pvt_frame, frame, ck.
  destruct (ubx_checksum _) as [a b]. now rewrite app_nil_r.
Qed.

Lemma stream_len : len stream = len noise + 100.
Proof.
  rewrite stream_bytes, layout_len, payload_len.
  change (len []) with 0. lia.
Qed.

Lemma noise_byte j : 0 <= j < len noise -> byte_at stream j <> UBX_SYNC1.
Proof.
  intros Hj. unfold stream. rewrite byte_at_app_l by assumption.
  rewrite Forall_forall in noise_no_sync. apply noise_no_sync.
  unfold byte_at. apply nth_In. unfold len in Hj. lia.
Qed.

Lemma len_prefix k :
  (k <= length stream)%nat -> len (firstn k stream) = Z.of_nat k.
Proof. intros Hk. unfold len. rewrite length_firstn. lia. Qed.

Lemma prefix_byte k j :
  0 <= j < Z.of_nat k -> byte_at (firstn k stream) j = byte_at stream j.
Proof.
  intros Hj. rewrite <- (Nat2Z.id k). apply byte_at_firstn. lia.
Qed.

(** While the stream is incomplete the search finds nothing and leaves
    the accumulator alone. *)
Lemma scan_prefix k :
  (k < length stream)%nat ->
  scan (scan_fuel (firstn k stream)) (firstn k stream) 0
  = Some (NotFound (firstn k stream)).
Proof.
  intros Hk. pose proof stream_len as Hlen. unfold len in Hlen at 1.
  pose proof (len_prefix k ltac:(lia)) as Hpl.
  pose proof (len_nonneg noise) as Hn.
  unfold scan_fuel. rewrite length_firstn, Nat.min_l by lia.
  destruct (Z_le_gt_dec (Z.of_nat k - 8) 0) as [Htiny | Hbig];
    [ apply scan_exit; lia | ].
  destruct (Z_le_gt_dec (Z.of_nat k - 8) (len noise)) as [Hshort | Hlong].
  - (* the loop condition fails before the frame is reached *)
    replace (S k) with (Z.to_nat (Z.of_nat k - 8) + S (k - Z.to_nat (Z.of_nat k - 8)))%nat
      by lia.
    rewrite scan_skip_noise; [ apply scan_exit; lia | lia | | lia ].
    intros j Hj. rewrite prefix_byte by lia. apply noise_byte. lia.
  - (* the frame's header is there, the frame is not *)
    replace (S k) with (Z.to_nat (len noise) + S (k - Z.to_nat (len noise)))%nat
      by lia.
    rewrite scan_skip_noise; [ | lia | | lia ].
    2: { intros j Hj. rewrite prefix_byte by lia. apply noise_byte. lia. }
    rewrite Z2Nat.id, Z.add_0_l by lia.
    assert (Hshort : len payload < 65536) by lia.
    destruct (layout_header noise [] payload UBX_CLASS_NAV UBX_NAV_PVT
                            (fst ck) (snd ck) Hshort)
      as (H1 & H2 & _ & _ & Hp).
    rewrite <- stream_bytes in H1, H2, Hp.
    apply scan_incomplete.
    + lia.
    + rewrite prefix_byte by lia. exact H1.
    + rewrite prefix_byte by lia. exact H2.
    + unfold payload_len_at in *. rewrite !prefix_byte by lia.
      rewrite Hp. lia.
Qed.

(** Once the last byte is in, the search returns the fix and empties
    the accumulator. *)
Lemma scan_stream :
  scan (scan_fuel stream) stream 0 = Some (Found (decode_nav_pvt payload) []).
Proof.
  pose proof stream_len as Hlen. pose proof (len_nonneg noise) as Hn.
  unfold scan_fuel.
  replace (S (length stream))
    with (Z.to_nat (len noise) + S (length stream - Z.to_nat (len noise)))%nat
    by (unfold len in *; lia).
  rewrite scan_skip_noise; [ | lia | | lia ].
  2: { intros j Hj. apply noise_byte. lia. }
  rewrite Z2Nat.id, Z.add_0_l by lia.
  assert (Hshort : len payload < 65536) by lia.
  destruct (layout_header noise [] payload UBX_CLASS_NAV UBX_NAV_PVT
                          (fst ck) (snd ck) Hshort)
    as (H1 & H2 & Hc & Hi & Hp).
  pose proof (layout_checksummed noise [] payload UBX_CLASS_NAV UBX_NAV_PVT
                                 (fst ck) (snd ck)) as Hsum.
  pose proof (layout_payload noise [] payload UBX_CLASS_NAV UBX_NAV_PVT
                             (fst ck) (snd ck)) as Hpay.
  destruct (layout_trailer noise [] payload UBX_CLASS_NAV UBX_NAV_PVT
                           (fst ck) (snd ck)) as (Ha & Hb & Hrest).
  rewrite <- stream_bytes in *.
  rewrite scan_good_checksum.
  - rewrite Hc, Hi, Hp, payload_len, !Z.eqb_refl. cbn [andb].
    rewrite payload_len in Hpay, Hrest.
    rewrite Hpay. do 2 f_equal. rewrite <- Hrest. f_equal. lia.
  - lia.
  - unfold frame_at. rewrite Hp, Hsum, Ha, Hb.
    repeat split; try assumption; try lia.
    unfold ck. now destruct (ubx_checksum _).
Qed.

Hypothesis noise_short : len noise <= 100.

Lemma prefix_app k (c : list Z) :
  c = firstn (length c) (skipn k stream) ->
  firstn k stream ++ c = firstn (k + length c) stream.
Proof.
  intros Hc. rewrite Hc at 1. rewrite firstn_skipn_comm.
  rewrite <- (firstn_skipn k (firstn (k + length c) stream)) at 2.
  f_equal. rewrite firstn_firstn. f_equal. lia.
Qed.

Lemma appended_prefix k (c : list Z) :
  (k + length c <= length stream)%nat ->
  c = firstn (length c) (skipn k stream) ->
  appended (firstn k stream) c = firstn (k + length c) stream.
Proof.
  intros Hk Hc. pose proof stream_len as Hlen. unfold len in Hlen at 1.
  unfold appended, UBX_BUFFER_SIZE. rewrite len_prefix by lia.
  rewrite (@firstn_all2 Z _ c) by lia. now apply prefix_app.
Qed.



(** A call that leaves the stream incomplete returns no fix and keeps
    every byte received so far. *)
Lemma feed_partial k c :
  c <> [] ->
  (k + length c < length stream)%nat ->
  c = firstn (length c) (skipn k stream) ->
  feed (firstn k stream) c = Some (no_position (firstn (k + length c) stream)).
Proof.
  intros Hne Hk Hc. pose proof stream_len as Hlen. unfold len in Hlen at 1.
  assert (Hpos : (0 < length c)%nat)
    by (destruct c; [ contradiction | simpl; lia ]).
  rewrite feed_appended by (unfold len in *; lia).
  rewrite appended_prefix by (assumption || lia).
  rewrite scan_prefix by assumption.
  rewrite len_prefix by lia.
  destruct (Z.gtb_spec (Z.of_nat (k + length c)) 200); [ lia | reflexivity ].
Qed.

(** The call that brings the last byte returns the fix. *)
Lemma feed_complete k c :
  (k < length stream)%nat ->
  c = skipn k stream ->
  feed (firstn k stream) c
  = Some {| ret := true; pos_out := decode_nav_pvt payload; buffer_out := [] |}.
Proof.
  intros Hk ->. pose proof stream_len as Hlen. unfold len in Hlen at 1.
  assert (Hcl : (k + length (skipn k stream) = length stream)%nat)
    by (rewrite length_skipn; lia).
  rewrite feed_appended by (unfold len; lia).
  rewrite appended_prefix; [ | lia | symmetry; apply firstn_all ].
  rewrite Hcl, firstn_all, scan_stream. reflexivity.
Qed.

Lemma feed_all_idle : forall chunks buf,
  concat chunks = [] ->
  feed_all buf chunks = Some (repeat no_fix (length chunks), buf).
Proof.
  induction chunks as [ | c chunks IH ]; intros buf Hcat; [ reflexivity | ].
  simpl in Hcat. apply app_eq_nil in Hcat. destruct Hcat as [-> Hcat].
  cbn [feed_all]. rewrite feed_nil. cbn [buffer_out no_position].
  rewrite IH by assumption. reflexivity.
Qed.

Lemma chunk_is_prefix (c rest l : list Z) :
  c ++ rest = l -> c = firstn (length c) l /\ rest = skipn (length c) l.
Proof.
  intros <-. split.
  - rewrite firstn_app, Nat.sub_diag, firstn_all. simpl. now rewrite app_nil_r.
  - rewrite skipn_app, Nat.sub_diag, skipn_all. reflexivity.
Qed.

Lemma feed_all_partial : forall chunks k n,
  (k + n < length stream)%nat ->
  concat chunks = firstn n (skipn k stream) ->
  feed_all (firstn k stream) chunks
  = Some (repeat no_fix (length chunks), firstn (k + n) stream).
Proof.
  induction chunks as [ | c chunks IH ]; intros k n Hk Hcat.
  - simpl in Hcat. symmetry in Hcat. apply length_zero_iff_nil in Hcat.
    rewrite length_firstn, length_skipn in Hcat.
    replace n with 0%nat by lia. now rewrite Nat.add_0_r.
  - simpl in Hcat. cbn [feed_all].
    destruct c as [ | b c ].
    + rewrite feed_nil. cbn [buffer_out no_position ret pos_out].
      rewrite (IH k n) by assumption. reflexivity.
    + set (c' := b :: c) in *.
      assert (Hlen : (length c' + length (concat chunks) = n)%nat).
      { rewrite <- length_app, Hcat, length_firstn, length_skipn. lia. }
      apply chunk_is_prefix in Hcat. destruct Hcat as [Hc Hrest].
      rewrite firstn_firstn in Hc. rewrite Nat.min_l in Hc by lia.
      rewrite feed_partial; [ | discriminate | lia | assumption ].
      cbn [buffer_out no_position ret pos_out].
      rewrite (IH (k + length c')%nat (n - length c')%nat).
      * do 3 f_equal. lia.
      * lia.
      * rewrite Hrest, skipn_firstn_comm, skipn_skipn. do 2 f_equal. lia.
Qed.

Lemma feed_all_complete : forall chunks k,
  (k < length stream)%nat ->
  concat chunks = skipn k stream ->
  exists before after,
    feed_all (firstn k stream) chunks
    = Some (repeat no_fix before
              ++ (true, decode_nav_pvt payload) :: repeat no_fix after, []).
Proof.
  induction chunks as [ | c chunks IH ]; intros k Hk Hcat.
  - simpl in Hcat. symmetry in Hcat. apply length_zero_iff_nil in Hcat.
    rewrite length_skipn in Hcat. lia.
  - simpl in Hcat. cbn [feed_all].
    destruct c as [ | b c ].
    + rewrite feed_nil. cbn [buffer_out no_position ret pos_out].
      destruct (IH k Hk Hcat) as (before & after & ->).
      exists (S before), after. reflexivity.
    + set (c' := b :: c) in *.
      assert (Hlen : (length c' + length (concat chunks) = length stream - k)%nat).
      { rewrite <- length_app, Hcat, length_skipn. lia. }
      apply chunk_is_prefix in Hcat. destruct Hcat as [Hc Hrest].
      destruct (Nat.eq_dec (length (concat chunks)) 0) as [Hlast | Hmore].
      * rewrite feed_complete;
          [ | assumption
            | etransitivity;
              [ exact Hc | apply firstn_all2; rewrite length_skipn; lia ] ].
        apply length_zero_iff_nil in Hlast.
        cbn [buffer_out ret pos_out].
        rewrite feed_all_idle by assumption.
        exists 0%nat, (length chunks). reflexivity.
      * rewrite feed_partial; [ | discriminate | lia | assumption ].
        cbn [buffer_out no_position ret pos_out].
        destruct (IH (k + length c')%nat) as (before & after & ->);
          [ lia | rewrite Hrest, skipn_skipn; f_equal; lia | ].
        exists (S before), after. reflexivity.
Qed.

End OneFrameStream.

(** C3. A frame lies at offset [len pre] of the accumulator, well-formed
    except that exactly one of its two checksum bytes differs from the one
    [ubx_checksum] computes.  When the search loop is at that offset (its
    condition [i < ubx_buffer_len - 8] holds there), one iteration rejects
    the frame and moves on to the next byte with the accumulator untouched;
    the search then ends; and if it returns a fix at all, that fix was
    decoded from a complete, checksummed target frame starting strictly
    after the rejected sync marker. *)
Theorem bad_checksum_resync fuel pre cls id payload ck_a ck_b post :
  let buf := pre ++ frame_bytes cls id payload ck_a ck_b ++ post in
  bytes_ok buf ->
  len payload < 65536 ->
  (fst (ubx_checksum (checksummed cls id payload)) <> ck_a
   /\ snd (ubx_checksum (checksummed cls id payload)) = ck_b)
  \/ (fst (ubx_checksum (checksummed cls id payload)) = ck_a
      /\ snd (ubx_checksum (checksummed cls id payload)) <> ck_b) ->
  len pre < len buf - 8 ->
  scan (S fuel) buf (len pre) = scan fuel buf (len pre + 1)
  /\ (len buf - len pre <= Z.of_nat fuel ->
      exists r, scan (S fuel) buf (len pre) = Some r)
  /\ forall pos rest,
      scan (S fuel) buf (len pre) = Some (Found pos rest) ->
      exists off,
        len pre < off /\ nav_pvt_at buf off
        /\ pos = decode_nav_pvt (sub buf (off + 6) 92)
        /\ rest = skipn (Z.to_nat (off + 100)) buf.
Proof.
  intros buf Hok Hshort Hflip Hguard.
  pose proof (len_nonneg pre) as Hpre.
  destruct (layout_header pre post payload cls id ck_a ck_b Hshort)
    as (H1 & H2 & _ & _ & Hlen).
  pose proof (layout_checksummed pre post payload cls id ck_a ck_b) as Hsum.
  destruct (layout_trailer pre post payload cls id ck_a ck_b) as (Ha & Hb & _).
  pose proof (layout_len pre post payload cls id ck_a ck_b) as Hl.
  fold buf in H1, H2, Hlen, Hsum, Ha, Hb, Hl.
  assert (Hstep : scan (S fuel) buf (len pre) = scan fuel buf (len pre + 1)).
  { apply scan_bad_checksum; try assumption.
    - rewrite Hlen, Hl. pose proof (len_nonneg post). lia.
    - rewrite Hlen, Hsum, Ha, Hb.
      destruct (ubx_checksum (checksummed cls id payload)) as [a b].
      cbn [fst snd] in Hflip. intros Heq. injection Heq as -> ->.
      destruct Hflip as [[Hne _] | [_ Hne]]; now apply Hne. }
  split; [ exact Hstep | ]. split.
  - intros Hfuel. apply scan_total; try assumption; lia.
  - intros pos rest Hfound. rewrite Hstep in Hfound.
    apply scan_found in Hfound; [ | assumption | lia ].
    destruct Hfound as (off & Hoff & Hrest).
    exists off. split; [ lia | exact Hrest ].
Qed.

(** A frame with the first checksum byte off by one, after one stray byte:
    the loop steps from offset 1 to offset 2 and keeps all 101 bytes. *)
Lemma bad_checksum_resync_witness :
  let buf := [0] ++ frame_bytes 1 7 (repeat 0 92) 101 193 ++ [] in
  scan 101 buf (len [0]) = scan 100 buf (len [0] + 1)
  /\ (len buf - len [0] <= Z.of_nat 100 ->
      exists r, scan 101 buf (len [0]) = Some r)
  /\ forall pos rest,
      scan 101 buf (len [0]) = Some (Found pos rest) ->
      exists off,
        len [0] < off /\ nav_pvt_at buf off
        /\ pos = decode_nav_pvt (sub buf (off + 6) 92)
        /\ rest = skipn (Z.to_nat (off + 100)) buf.
Proof.
  apply (bad_checksum_resync 100 [0] 1 7 (repeat 0 92) 101 193 []).
  - unfold bytes_ok, byte_ok. vm_compute. repeat constructor; discriminate.
  - vm_compute. reflexivity.
  - left. vm_compute. split; [ discriminate | reflexivity ].
  - vm_compute. reflexivity.
Defined.

(** A target frame whose second checksum byte is wrong, fed on its own: no
    fix comes back and all 100 bytes stay in the accumulator. *)
Example bad_checksum_frame_kept :
  let flipped := frame_bytes 1 7 (repeat 0 92) 100 192 in
  nav_pvt_frame (repeat 0 92) = frame_bytes 1 7 (repeat 0 92) 100 193
  /\ feed [] flipped = Some (no_position flipped).
Proof. vm_compute. split; reflexivity. Qed.

(** Stray bytes ahead of the frame.  The stream is some bytes free of the
    first sync byte (at most 100 of them) followed by one well-formed
    target fix frame, fed to an empty accumulator.  However the stream is
    cut into successive calls of [feed], empty ones included, the calls
    return no fix, then the decoded fix once, then no fix again, and the
    accumulator ends empty; and as long as the stream is incomplete every
    byte received so far is still in the accumulator. *)
Theorem single_frame_decoded_once (noise payload : list Z) (chunks : list (list Z)) :
  Forall (fun b => b <> UBX_SYNC1) noise ->
  len noise <= 100 ->
  len payload = 92 ->
  let stream := noise ++ nav_pvt_frame payload in
  (concat chunks = stream ->
   exists before after,
     feed_all [] chunks
     = Some (repeat no_fix before
               ++ (true, decode_nav_pvt payload) :: repeat no_fix after, []))
  /\ (forall k, (k < length stream)%nat ->
      concat chunks = firstn k stream ->
      feed_all [] chunks = Some (repeat no_fix (length chunks), firstn k stream)).
Proof.
  intros Hnoise Hshort Hlen stream. split.
  - intros Hcat.
    apply (feed_all_complete noise payload Hnoise Hlen Hshort chunks 0%nat).
    + pose proof (stream_len noise payload Hlen) as Hl. unfold len in Hl at 1.
      pose proof (len_nonneg noise). lia.
    + exact Hcat.
  - intros k Hk Hcat.
    apply (feed_all_partial noise payload Hnoise Hlen Hshort chunks 0%nat k).
    + exact Hk.
    + exact Hcat.
Qed.

Lemma single_frame_decoded_once_witness :
  let payload := repeat 7 92 in
  let stream := [0; 1; 2] ++ nav_pvt_frame payload in
  let chunks := [ [0; 1; 2; 181; 98; 1]; []; [7; 92; 0] ++ payload; [232; 187]; [] ] in
  (exists before after,
     feed_all [] chunks
     = Some (repeat no_fix before
               ++ (true, decode_nav_pvt payload) :: repeat no_fix after, []))
  /\ feed_all [] (firstn 3 chunks) = Some (repeat no_fix 3, firstn 101 stream).
Proof.
  intros payload stream chunks.
  assert (Hnoise : Forall (fun b => b <> UBX_SYNC1) [0; 1; 2])
    by (repeat constructor; discriminate).
  assert (Hshort : len [0; 1; 2] <= 100) by (vm_compute; discriminate).
  assert (Hlen : len payload = 92) by reflexivity.
  split.
  - apply (single_frame_decoded_once [0; 1; 2] payload chunks Hnoise Hshort Hlen).
    vm_compute. reflexivity.
  - apply (proj2 (single_frame_decoded_once [0; 1; 2] payload (firstn 3 chunks)
                    Hnoise Hshort Hlen) 101%nat).
    + vm_compute. lia.
    + vm_compute. reflexivity.
Defined.

(** In the run of the witness the fourth of the five calls is the one that
    returns the fix. *)
Example single_frame_run :
  let payload := repeat 7 92 in
  let chunks := [ [0; 1; 2; 181; 98; 1]; []; [7; 92; 0] ++ payload; [232; 187]; [] ] in
  feed_all [] chunks
  = Some ([no_fix; no_fix; no_fix; (true, decode_nav_pvt payload); no_fix], []).
Proof. vm_compute. reflexivity. Qed.


(** C4. A call of [feed] receives at least one byte; after the append the
    accumulator holds more than 200 bytes and the search resolves no frame
    in it.  Then the call returns no fix and leaves the accumulator empty
    for the next call. *)
Theorem accumulator_cleared_above_200 (ubx_buffer new_bytes : list Z) :
  0 < len new_bytes < 65535 ->
  200 < len (appended ubx_buffer new_bytes) ->
  resolves_no_frame (appended ubx_buffer new_bytes) ->
  feed ubx_buffer new_bytes = Some (no_position []).
Proof.
  intros Hnew Hfull Hnone. rewrite feed_appended by assumption.
  unfold resolves_no_frame in Hnone. rewrite Hnone.
  destruct (Z.gtb_spec (len (appended ubx_buffer new_bytes)) 200);
    [ reflexivity | lia ].
Qed.

Lemma accumulator_cleared_above_200_witness :
  feed (repeat 0 150) (repeat 0 60) = Some (no_position []).
Proof.
  apply (accumulator_cleared_above_200 (repeat 0 150) (repeat 0 60)).
  - vm_compute. split; reflexivity.
  - vm_compute. reflexivity.
  - vm_compute. reflexivity.
Defined.

(** An accumulator in which no complete checksummed frame starts
    anywhere resolves no frame. *)
Lemma no_frame_resolves_no_frame acc :
  (forall j, ~ frame_at acc j) -> resolves_no_frame acc.
Proof.
  intros Hnone. apply scan_no_frame.
  - lia.
  - unfold scan_fuel, len. lia.
  - unfold scan_fuel. lia.
  - intros j _. apply Hnone.
Qed.

(** A call that returns no fix never leaves more than 200 bytes behind. *)
Lemma feed_no_fix_bounded ubx_buffer new_bytes r :
  0 < len new_bytes < 65535 ->
  feed ubx_buffer new_bytes = Some r -> ret r = false ->
  len (buffer_out r) <= 200.
Proof.
  intros Hnew Hfeed Hret. rewrite feed_appended in Hfeed by assumption.
  destruct (scan _ _ 0) as [[pos b | b] | ];
    [ injection Hfeed as <-; discriminate | | discriminate ].
  injection Hfeed as <-. cbn [buffer_out no_position].
  destruct (Z.gtb_spec (len b) 200); [ vm_compute; discriminate | lia ].
Qed.

(** C5. Every call of [zed_rover_get_position] returns.  Let [acc] be the
    accumulator after the call has appended what it read from the bus.
    When the call returns [true], a complete, checksummed target fix frame
    starts at some offset [off] of [acc]; the position handed back was
    decoded from the 92-byte payload of that frame, what follows the frame
    is left in the accumulator, and the [valid] flag is set exactly when
    bit 0 of payload byte 11 of that frame (the receiver's validity flags)
    is set and payload byte 20 (the fix type) is at least 2.  When the call
    returns [false] the position is all zero and the flag is clear. *)
Theorem valid_flag_spec (bus : bus_poll) (ubx_buffer : list Z) :
  bytes_ok ubx_buffer ->
  match read_data bus with Some bytes => bytes_ok bytes | None => True end ->
  let stored :=
    snd (zed_rover_read (read_len_reply bus) (read_data bus) UBX_BUFFER_SIZE) in
  let acc := appended ubx_buffer stored in
  exists r,
    zed_rover_get_position bus ubx_buffer = Some r
    /\ (ret r = true ->
        exists off,
          nav_pvt_at acc off
          /\ pos_out r = decode_nav_pvt (sub acc (off + 6) 92)
          /\ buffer_out r = skipn (Z.to_nat (off + 100)) acc
          /\ (valid (pos_out r) = true
              <-> Z.testbit (byte_at acc (off + 6 + 11)) 0 = true
                  /\ 2 <= byte_at acc (off + 6 + 20)))
    /\ (ret r = false -> pos_out r = position_zero /\ valid (pos_out r) = false).
Proof.
  intros Hbuf Hbus stored acc.
  destruct (zed_rover_get_position_total bus ubx_buffer Hbuf Hbus) as [r Hget].
  exists r. split; [ exact Hget | ]. split; intros Hret.
  - destruct (zed_rover_get_position_found bus ubx_buffer r Hbuf Hbus Hget Hret)
      as (off & Hnav & Hpos & Hrest).
    fold stored in Hnav, Hpos, Hrest. fold acc in Hnav, Hpos, Hrest.
    exists off. split; [ exact Hnav | ]. split; [ exact Hpos | ].
    split; [ exact Hrest | ].
    destruct Hnav as ((Hoff & _ & _ & Hfit & _) & _ & _ & H92).
    rewrite H92 in Hfit.
    rewrite Hpos, decode_valid, !payload_byte by lia. reflexivity.
  - rewrite (zed_rover_get_position_not_found bus ubx_buffer r Hget Hret).
    split; reflexivity.
Qed.

(** Two bytes are already in the accumulator when a frame arrives whose
    payload has the validity bit set and fix type 3 (3D): the frame starts
    at offset 2, and the flag is read from bytes 19 and 28 of the
    accumulator. *)
Lemma valid_flag_spec_witness :
  let payload := repeat 0 11 ++ [1] ++ repeat 0 8 ++ [3] ++ repeat 0 71 in
  let bus := bus_with (nav_pvt_frame payload) in
  let acc := [9; 9] ++ nav_pvt_frame payload in
  exists r,
    zed_rover_get_position bus [9; 9] = Some r
    /\ (ret r = true ->
        exists off,
          nav_pvt_at acc off
          /\ pos_out r = decode_nav_pvt (sub acc (off + 6) 92)
          /\ buffer_out r = skipn (Z.to_nat (off + 100)) acc
          /\ (valid (pos_out r) = true
              <-> Z.testbit (byte_at acc (off + 6 + 11)) 0 = true
                  /\ 2 <= byte_at acc (off + 6 + 20)))
    /\ (ret r = false -> pos_out r = position_zero /\ valid (pos_out r) = false).
Proof.
  intros payload bus acc.
  apply (valid_flag_spec bus [9; 9]).
  - unfold bytes_ok, byte_ok. repeat constructor; discriminate.
  - cbn [read_data bus bus_with]. unfold bytes_ok, byte_ok. vm_compute.
    repeat constructor; discriminate.
Defined.

(** The four combinations of validity bit and fix quality on that frame. *)
Example valid_flag_cases :
  let payload v q := repeat 0 11 ++ [v] ++ repeat 0 8 ++ [q] ++ repeat 0 71 in
  let fed v q := option_map (fun r => (ret r, valid (pos_out r)))
                            (feed [] (nav_pvt_frame (payload v q))) in
  fed 1 3 = Some (true, true) /\ fed 1 2 = Some (true, true)
  /\ fed 1 1 = Some (true, false) /\ fed 0 3 = Some (true, false)
  /\ fed 0xFE 5 = Some (true, false) /\ fed 0xFF 5 = Some (true, true).
Proof. vm_compute. repeat split. Qed.

(** The constants of the scaling: [1000.0] and [1000.0f] are exactly 1000,
    and [1e-7] is within 2^-77 of 10^-7. *)
Lemma scaling_constants :
  Ieee.within Ieee.d_1000 (inject_Z 1000) 0 = true
  /\ Ieee.within Ieee.f_1000 (inject_Z 1000) 0 = true
  /\ Ieee.within Ieee.d_1e_7 (1 # 10000000) (1 # 2 ^ 77) = true.
Proof. vm_compute. repeat split. Qed.

Lemma le_signed_range p k : bytes_ok p -> - 2 ^ 31 <= le_signed p k < 2 ^ 31.
Proof. intros H. rewrite <- le32_signed by assumption. apply to_int32_range. Qed.

(** C9. For a payload [p] of bytes: longitude and latitude are the
    little-endian two's complement 32-bit fields at offsets 24 and 28,
    converted to binary64 and multiplied by the constant [1e-7]; altitude is
    the signed field at offset 36, converted to binary64 and divided by
    [1000.0]; the two accuracies are the unsigned fields at offsets 40 and
    44, converted to binary32 and divided by [1000.0f].  Whatever the raw
    values, longitude and latitude are within 10^-12 of raw / 10^7,
    altitude is within 10^-8 of raw / 1000, and each accuracy is within two
    millionths of raw / 1000 relative to its size.  In particular a raw
    latitude of 456471947 decodes to within 1e-7 of 45.6471947 degrees. *)
Theorem nav_pvt_scaling (p : list Z) :
  bytes_ok p ->
  let pos := decode_nav_pvt p in
  longitude pos = Ieee.d_mul (Ieee.d_of_Z (le_signed p 24)) Ieee.d_1e_7
  /\ latitude pos = Ieee.d_mul (Ieee.d_of_Z (le_signed p 28)) Ieee.d_1e_7
  /\ altitude_msl pos = Ieee.d_div (Ieee.d_of_Z (le_signed p 36)) Ieee.d_1000
  /\ h_acc pos = Ieee.f_div (Ieee.f_of_Z (le_unsigned p 40)) Ieee.f_1000
  /\ v_acc pos = Ieee.f_div (Ieee.f_of_Z (le_unsigned p 44)) Ieee.f_1000
  /\ Ieee.within (longitude pos) (le_signed p 24 # 10000000) (1 # 1000000000000) = true
  /\ Ieee.within (latitude pos) (le_signed p 28 # 10000000) (1 # 1000000000000) = true
  /\ Ieee.within (altitude_msl pos) (le_signed p 36 # 1000) (1 # 100000000) = true
  /\ Ieee.within (h_acc pos) (le_unsigned p 40 # 1000)
                 (2 * le_unsigned p 40 # 1000000000) = true
  /\ Ieee.within (v_acc pos) (le_unsigned p 44 # 1000)
                 (2 * le_unsigned p 44 # 1000000000) = true
  /\ (le_signed p 28 = 456471947 ->
      Ieee.within (latitude pos) (456471947 # 10000000) (1 # 10000000) = true).
Proof.
  intros Hp pos. unfold pos.
  cbn [decode_nav_pvt longitude latitude altitude_msl h_acc v_acc].
  rewrite !le32_signed, !le32_to_uint32 by assumption.
  do 5 (split; [ reflexivity | ]).
  split; [ apply IeeeFacts.scale_1e_7_accurate; now apply le_signed_range | ].
  split; [ apply IeeeFacts.scale_1e_7_accurate; now apply le_signed_range | ].
  split; [ apply IeeeFacts.div_1000_accurate; now apply le_signed_range | ].
  split; [ apply IeeeFacts.div_1000f_accurate; now apply le_unsigned_range | ].
  split; [ apply IeeeFacts.div_1000f_accurate; now apply le_unsigned_range | ].
  intros ->. vm_compute. reflexivity.
Qed.

Lemma nav_pvt_scaling_witness :
  let p := repeat 0 28 ++ [0x8B; 0x35; 0x35; 0x1B] ++ repeat 0 60 in
  le_signed p 28 = 456471947
  /\ Ieee.within (latitude (decode_nav_pvt p)) (456471947 # 10000000) (1 # 10000000)
     = true.
Proof.
  intros p.
  assert (Hp : bytes_ok p).
  { unfold p, bytes_ok, byte_ok. repeat constructor; discriminate. }
  assert (Hraw : le_signed p 28 = 456471947) by reflexivity.
  split; [ exact Hraw | ].
  apply (nav_pvt_scaling p Hp). exact Hraw.
Defined.

(** A fix as the receiver reports it in the field: longitude
    -122.3498071 degrees, altitude 134.606 m, accuracies 14 mm and 19 mm. *)
Example field_fix_decoded :
  let p := repeat 0 24 ++ [0xA9; 0xE6; 0x12; 0xB7] ++ [0x8B; 0x35; 0x35; 0x1B]
           ++ repeat 0 4 ++ [0xCE; 0x0D; 0x02; 0x00] ++ [14; 0; 0; 0]
           ++ [19; 0; 0; 0] ++ repeat 0 44 in
  let pos := decode_nav_pvt p in
  le_signed p 24 = -1223498071
  /\ Ieee.within (longitude pos) (-1223498071 # 10000000) (1 # 10000000) = true
  /\ Ieee.within (latitude pos) (456471947 # 10000000) (1 # 10000000) = true
  /\ Ieee.within (altitude_msl pos) (134606 # 1000) (1 # 1000000) = true
  /\ Ieee.within (h_acc pos) (14 # 1000) (1 # 1000000) = true
  /\ Ieee.within (v_acc pos) (19 # 1000) (1 # 1000000) = true.
Proof. vm_compute. repeat split. Qed.

(** *** What the checksum detects *)

Lemma ubx_checksum_from_app pre : forall post ck_a ck_b,
  ubx_checksum_from (pre ++ post) ck_a ck_b
  = ubx_checksum_from post (fst (ubx_checksum_from pre ck_a ck_b))
                           (snd (ubx_checksum_from pre ck_a ck_b)).
Proof.
  induction pre as [ | d pre IH ]; intros post ck_a ck_b; [ reflexivity | ].
  cbn [app ubx_checksum_from]. apply IH.
Qed.

Lemma ubx_checksum_from_range data : forall ck_a ck_b,
  byte_ok ck_a -> byte_ok ck_b ->
  byte_ok (fst (ubx_checksum_from data ck_a ck_b))
  /\ byte_ok (snd (ubx_checksum_from data ck_a ck_b)).
Proof.
  induction data as [ | d data IH ]; intros ck_a ck_b Ha Hb; [ now split | ].
  cbn [ubx_checksum_from]. apply IH; unfold byte_ok; apply Z.mod_pos_bound; lia.
Qed.

Lemma add_mod_256_differs a a' d :
  byte_ok a -> byte_ok a' -> a <> a' -> (a + d) mod 256 <> (a' + d) mod 256.
Proof.
  unfold byte_ok. intros Ha Ha' Hne Heq.
  pose proof (Z.div_mod (a + d) 256 ltac:(lia)).
  pose proof (Z.div_mod (a' + d) 256 ltac:(lia)).
  lia.
Qed.

(** Two runs of the loop that differ in the first accumulator end with
    different first checksum bytes. *)
Lemma ubx_checksum_from_fst_differs data : forall a a' b b',
  byte_ok a -> byte_ok a' -> a <> a' ->
  fst (ubx_checksum_from data a b) <> fst (ubx_checksum_from data a' b').
Proof.
  induction data as [ | d data IH ]; intros a a' b b' Ha Ha' Hne; [ exact Hne | ].
  cbn [ubx_checksum_from]. apply IH.
  - unfold byte_ok. apply Z.mod_pos_bound. lia.
  - unfold byte_ok. apply Z.mod_pos_bound. lia.
  - now apply add_mod_256_differs.
Qed.

(** Two runs that agree on the first accumulator and differ in the second
    end with different second checksum bytes. *)
Lemma ubx_checksum_from_snd_differs data : forall a b b',
  byte_ok b -> byte_ok b' -> b <> b' ->
  snd (ubx_checksum_from data a b) <> snd (ubx_checksum_from data a b').
Proof.
  induction data as [ | d data IH ]; intros a b b' Hb Hb' Hne; [ exact Hne | ].
  cbn [ubx_checksum_from]. apply IH.
  - unfold byte_ok. apply Z.mod_pos_bound. lia.
  - unfold byte_ok. apply Z.mod_pos_bound. lia.
  - now apply add_mod_256_differs.
Qed.

(** One changed byte changes the first sum. *)
Lemma checksum_single_byte (pre post : list Z) (x y : Z) :
  byte_ok x -> byte_ok y -> x <> y ->
  ubx_checksum (pre ++ x :: post) <> ubx_checksum (pre ++ y :: post).
Proof.
  intros Hx Hy Hne. unfold ubx_checksum.
  destruct (ubx_checksum_from_range pre 0 0) as [Ha Hb];
    [ unfold byte_ok; lia | unfold byte_ok; lia | ].
  rewrite !ubx_checksum_from_app.
  remember (fst (ubx_checksum_from pre 0 0)) as a eqn:Ea.
  remember (snd (ubx_checksum_from pre 0 0)) as b eqn:Eb.
  clear Ea Eb.
  intros Heq. apply (f_equal fst) in Heq. revert Heq.
  cbn [ubx_checksum_from]. apply ubx_checksum_from_fst_differs;
    try (unfold byte_ok; apply Z.mod_pos_bound; lia).
  rewrite (Z.add_comm a x), (Z.add_comm a y). now apply add_mod_256_differs.
Qed.

(** X1. The checksum tells apart two byte sequences that differ in exactly one
    byte, and two sequences that differ by the exchange of two adjacent
    unequal bytes. *)
Theorem checksum_detects_corruption (pre post : list Z) (x y : Z) :
  byte_ok x -> byte_ok y -> x <> y ->
  ubx_checksum (pre ++ x :: post) <> ubx_checksum (pre ++ y :: post)
  /\ ubx_checksum (pre ++ x :: y :: post) <> ubx_checksum (pre ++ y :: x :: post).
Proof.
  intros Hx Hy Hne. unfold ubx_checksum.
  destruct (ubx_checksum_from_range pre 0 0) as [Ha Hb];
    [ unfold byte_ok; lia | unfold byte_ok; lia | ].
  rewrite !ubx_checksum_from_app.
  remember (fst (ubx_checksum_from pre 0 0)) as a eqn:Ea.
  remember (snd (ubx_checksum_from pre 0 0)) as b eqn:Eb.
  clear Ea Eb.
  assert (Hxy : (a + x) mod 256 <> (a + y) mod 256).
  { rewrite (Z.add_comm a x), (Z.add_comm a y). now apply add_mod_256_differs. }
  split.
  - intros Heq. apply (f_equal fst) in Heq. revert Heq.
    cbn [ubx_checksum_from]. apply ubx_checksum_from_fst_differs;
      try (unfold byte_ok; apply Z.mod_pos_bound; lia). exact Hxy.
  - intros Heq. apply (f_equal snd) in Heq. revert Heq.
    cbn [ubx_checksum_from].
    replace (((a + y) mod 256 + x) mod 256) with (((a + x) mod 256 + y) mod 256)
      by (rewrite !Zplus_mod_idemp_l; f_equal; lia).
    apply ubx_checksum_from_snd_differs;
      try (unfold byte_ok; apply Z.mod_pos_bound; lia).
    apply add_mod_256_differs;
      try (unfold byte_ok; apply Z.mod_pos_bound; lia).
    intros Heq. apply Hxy.
    pose proof (Z.div_mod (b + (a + x) mod 256) 256 ltac:(lia)).
    pose proof (Z.div_mod (b + (a + y) mod 256) 256 ltac:(lia)).
    pose proof (Z.mod_pos_bound (a + x) 256 ltac:(lia)).
    pose proof (Z.mod_pos_bound (a + y) 256 ltac:(lia)).
    lia.
Qed.

Lemma checksum_detects_corruption_witness :
  ubx_checksum ([1; 7] ++ 3 :: [9]) <> ubx_checksum ([1; 7] ++ 4 :: [9])
  /\ ubx_checksum ([1; 7] ++ 3 :: 4 :: [9]) <> ubx_checksum ([1; 7] ++ 4 :: 3 :: [9]).
Proof.
  apply (checksum_detects_corruption [1; 7] [9] 3 4);
    unfold byte_ok; lia.
Defined.

(** *** The accumulator stays within its capacity *)

(** Whatever the search loop leaves in the accumulator is a tail of what it
    was entered with. *)
Lemma scan_leaves_tail fuel : forall buf i r,
  bytes_ok buf -> 0 <= i ->
  scan fuel buf i = Some r ->
  exists k, (k <= length buf)%nat
            /\ match r with Found _ b | NotFound b => b = skipn k buf end.
Proof.
  induction fuel as [ | fuel IH ]; intros buf i r Hok Hi Hscan; [ discriminate | ].
  destruct (Z_lt_le_dec i (len buf - 8)) as [Hg | Hg].
  2: { rewrite scan_exit in Hscan by lia. injection Hscan as <-.
       exists 0%nat. split; [ lia | reflexivity ]. }
  destruct (scan_step_cases buf i Hi)
    as [Hns | [(H1 & H2 & Hl) | [(H1 & H2 & Hl & Hck) | Hf]]].
  - rewrite scan_no_sync in Hscan by assumption.
    apply IH in Hscan; [ exact Hscan | assumption | lia ].
  - rewrite scan_incomplete in Hscan by assumption. injection Hscan as <-.
    exists 0%nat. split; [ lia | reflexivity ].
  - rewrite scan_bad_checksum in Hscan by assumption.
    apply IH in Hscan; [ exact Hscan | assumption | lia ].
  - rewrite scan_good_checksum in Hscan by assumption.
    pose proof (payload_len_nonneg buf i Hok) as Hp.
    assert (Hl : i + 8 + payload_len_at buf i <= len buf) by apply Hf.
    destruct (_ && _).
    + injection Hscan as <-.
      exists (Z.to_nat (i + (8 + payload_len_at buf i))).
      split; [ unfold len in Hl; lia | reflexivity ].
    + apply IH in Hscan; [ | now apply bytes_ok_skipn | lia ].
      destruct Hscan as (k & Hk & Hr).
      rewrite length_skipn in Hk.
      exists (k + Z.to_nat (i + (8 + payload_len_at buf i)))%nat.
      split; [ unfold len in Hl; lia | ].
      destruct r; rewrite Hr, skipn_skipn; reflexivity.
Qed.

Lemma len_skipn_le k (buf : list Z) : len (skipn k buf) <= len buf.
Proof. unfold len. rewrite length_skipn. lia. Qed.

Lemma len_appended buf new :
  len buf <= UBX_BUFFER_SIZE -> len (appended buf new) <= UBX_BUFFER_SIZE.
Proof.
  intros H. unfold appended. rewrite len_app. unfold len in *.
  rewrite length_firstn. lia.
Qed.

(** The bound behind [parse_appended]: with at most 200 bytes held, the
    append stays within the 256 bytes of [ubx_buffer] and the call leaves
    at most 200 bytes again. *)
Lemma parse_appended_bounded buf temp n :
  bytes_ok buf -> bytes_ok temp -> len buf <= 200 ->
  exists r, parse_appended buf temp n = Some r
            /\ bytes_ok (buffer_out r) /\ len (buffer_out r) <= 200
            /\ (ret r = true -> len (buffer_out r) <= 156).
Proof.
  intros Hb Ht Hlen. unfold parse_appended.
  set (acc := buf ++ firstn _ temp).
  assert (Hacc : bytes_ok acc)
    by (apply bytes_ok_app; [ assumption | now apply bytes_ok_firstn ]).
  assert (Hcap : len acc <= 256).
  { unfold acc. rewrite len_app. unfold len in *. rewrite length_firstn.
    unfold UBX_BUFFER_SIZE.
    destruct (Z.ltb_spec n (256 - Z.of_nat (length buf))); lia. }
  destruct (scan_total (scan_fuel acc) acc 0 Hacc) as [r Hr];
    [ lia | unfold scan_fuel, len; lia | unfold scan_fuel; lia | ].
  rewrite Hr.
  destruct (scan_leaves_tail _ _ _ _ Hacc (Z.le_refl 0) Hr) as (k & Hk & Htail).
  destruct r as [pos b | b]; subst b.
  - apply scan_found in Hr; [ | assumption | lia ].
    destruct Hr as (off & Hoff & Hnav & _ & Hrest).
    eexists. split; [ reflexivity | ]. cbn [buffer_out ret].
    split; [ now apply bytes_ok_skipn | ].
    assert (len (skipn k acc) <= 156).
    { rewrite Hrest. destruct Hnav as ((_ & _ & _ & Hfit & _) & _ & _ & H92).
      rewrite H92 in Hfit. rewrite len_skipn; lia. }
    split; [ lia | intros _; assumption ].
  - eexists. split; [ reflexivity | ]. cbn [buffer_out ret no_position].
    destruct (Z.gtb_spec (len (skipn k acc)) 200) as [Hbig | Hsmall].
    + split; [ constructor | ]. split; [ vm_compute; discriminate | discriminate ].
    + split; [ now apply bytes_ok_skipn | ]. split; [ lia | discriminate ].
Qed.

(** X2. Between calls the accumulator never holds more than 200 of its 256
    bytes: a call entered with at most 200 bytes returns, and leaves at
    most 200 bytes (at most 156 when it returns a fix), all of them bytes. *)
Theorem accumulator_within_capacity (bus : bus_poll) (ubx_buffer : list Z) :
  bytes_ok ubx_buffer ->
  match read_data bus with Some bytes => bytes_ok bytes | None => True end ->
  len ubx_buffer <= 200 ->
  exists r,
    zed_rover_get_position bus ubx_buffer = Some r
    /\ bytes_ok (buffer_out r)
    /\ len (buffer_out r) <= 200
    /\ (ret r = true -> len (buffer_out r) <= 156).
Proof.
  intros Hb Hd Hlen.
  unfold zed_rover_get_position.
  destruct (zed_rover_available (poll_len bus) <=? 0).
  { exists (no_position ubx_buffer). cbn [buffer_out ret no_position].
    repeat split; try assumption; discriminate. }
  destruct (zed_rover_read _ _ _) as [read_len temp_buf] eqn:Hread.
  destruct (read_len <=? 0).
  { exists (no_position ubx_buffer). cbn [buffer_out ret no_position].
    repeat split; try assumption; discriminate. }
  apply parse_appended_bounded; try assumption.
  now apply (zed_rover_read_bytes_ok _ _ _ _ _ Hd Hread).
Qed.

Lemma accumulator_within_capacity_witness :
  exists r,
    zed_rover_get_position (bus_with (repeat 0 60)) (repeat 0 150) = Some r
    /\ bytes_ok (buffer_out r)
    /\ len (buffer_out r) <= 200
    /\ (ret r = true -> len (buffer_out r) <= 156).
Proof.
  apply (accumulator_within_capacity (bus_with (repeat 0 60)) (repeat 0 150)).
  - unfold bytes_ok, byte_ok. apply Forall_forall. intros x Hx.
    apply repeat_spec in Hx. lia.
  - cbn [read_data bus_with]. unfold bytes_ok, byte_ok. apply Forall_forall.
    intros x Hx. apply repeat_spec in Hx. lia.
  - vm_compute. discriminate.
Defined.

(** *** Frames that are not decoded *)

Lemma frame_as_bytes cls id payload :
  frame cls id payload
  = frame_bytes cls id payload
      (fst (ubx_checksum (checksummed cls id payload)))
      (snd (ubx_checksum (checksummed cls id payload))).
Proof. unfold frame. now destruct (ubx_checksum _). Qed.

(** A frame laid out after [pre] with the checksum bytes [ubx_checksum]
    computes is a complete checksummed frame at that offset. *)
Lemma frame_at_layout pre post cls id payload :
  len payload < 65536 ->
  frame_at (pre ++ frame cls id payload ++ post) (len pre).
Proof.
  intros Hshort. rewrite frame_as_bytes.
  set (ck := ubx_checksum (checksummed cls id payload)).
  destruct (layout_header pre post payload cls id (fst ck) (snd ck) Hshort)
    as (H1 & H2 & _ & _ & Hp).
  pose proof (layout_checksummed pre post payload cls id (fst ck) (snd ck)) as Hsum.
  destruct (layout_trailer pre post payload cls id (fst ck) (snd ck))
    as (Ha & Hb & _).
  pose proof (layout_len pre post payload cls id (fst ck) (snd ck)) as Hlen.
  pose proof (len_nonneg pre). pose proof (len_nonneg post).
  unfold frame_at. rewrite Hp, Hsum, Ha, Hb.
  repeat split; try assumption; try lia.
  unfold ck. now destruct (ubx_checksum _).
Qed.

(** The bytes of a frame are bytes when its fields are. *)
Lemma bytes_ok_frame_bytes cls id payload ck_a ck_b :
  byte_ok cls -> byte_ok id -> bytes_ok payload -> len payload < 65536 ->
  byte_ok ck_a -> byte_ok ck_b ->
  bytes_ok (frame_bytes cls id payload ck_a ck_b).
Proof.
  intros Hc Hi Hp Hshort Ha Hb. unfold frame_bytes, bytes_ok.
  pose proof (len_nonneg payload) as Hl.
  assert (Hlo : byte_ok (len payload mod 256))
    by (unfold byte_ok; apply Z.mod_pos_bound; lia).
  assert (Hhi : byte_ok (len payload / 256)).
  { unfold byte_ok. split; [ apply Z.div_pos; lia | apply Z.div_lt_upper_bound; lia ]. }
  assert (H1 : byte_ok UBX_SYNC1) by (unfold byte_ok, UBX_SYNC1; lia).
  assert (H2 : byte_ok UBX_SYNC2) by (unfold byte_ok, UBX_SYNC2; lia).
  apply Forall_app. split.
  - repeat (apply Forall_cons; [ assumption | ]). constructor.
  - apply Forall_app. split; [ assumption | ].
    repeat (apply Forall_cons; [ assumption | ]). constructor.
Qed.

(** X3. A target fix frame in which one payload byte was changed after the
    checksum was computed is not decoded: fed to an empty accumulator, the
    call returns no fix. *)
Theorem corrupted_frame_not_decoded (p1 p2 : list Z) (x y : Z) :
  let payload := p1 ++ x :: p2 in
  let ck := ubx_checksum (checksummed UBX_CLASS_NAV UBX_NAV_PVT payload) in
  let received :=
    frame_bytes UBX_CLASS_NAV UBX_NAV_PVT (p1 ++ y :: p2) (fst ck) (snd ck) in
  bytes_ok payload -> byte_ok y -> x <> y -> len payload = 92 ->
  exists r, feed [] received = Some r
            /\ ret r = false /\ pos_out r = position_zero.
Proof.
  intros payload ck received Hok Hy Hne Hlen.
  assert (Hx : byte_ok x).
  { unfold bytes_ok, payload in Hok. apply Forall_app in Hok.
    destruct Hok as [_ Hok]. now inversion Hok. }
  assert (Hlen' : len (p1 ++ y :: p2) = 92).
  { unfold payload, len in *. rewrite length_app in *. exact Hlen. }
  assert (Hrl : len received = 100)
    by (unfold received; rewrite frame_bytes_len; lia).
  assert (Hrok : bytes_ok received).
  { unfold received. apply bytes_ok_frame_bytes.
    - unfold byte_ok, UBX_CLASS_NAV. lia.
    - unfold byte_ok, UBX_NAV_PVT. lia.
    - unfold bytes_ok, payload in *. apply Forall_app in Hok.
      destruct Hok as [Hp1 Hp2]. apply Forall_app. split; [ assumption | ].
      inversion Hp2; subst. now constructor.
    - lia.
    - apply ubx_checksum_from_range; unfold byte_ok; lia.
    - apply ubx_checksum_from_range; unfold byte_ok; lia. }
  assert (Happ : appended [] received = received).
  { unfold appended. cbn [app]. apply firstn_all2.
    unfold len in *. unfold UBX_BUFFER_SIZE. cbn [length]. lia. }
  rewrite feed_appended by lia. rewrite Happ.
  destruct (scan_total (scan_fuel received) received 0 Hrok) as [r Hr];
    [ lia | unfold scan_fuel, len; lia | unfold scan_fuel; lia | ].
  rewrite Hr. destruct r as [pos b | b].
  - exfalso. apply scan_found in Hr; [ | assumption | lia ].
    destruct Hr as (off & Hoff & Hnav & _).
    destruct Hnav as ((_ & _ & _ & Hfit & Hsum) & _ & _ & H92).
    rewrite H92 in Hfit, Hsum.
    assert (off = 0) by lia. subst off.
    pose proof (layout_checksummed [] [] (p1 ++ y :: p2) UBX_CLASS_NAV UBX_NAV_PVT
                                   (fst ck) (snd ck)) as Hcs.
    destruct (layout_trailer [] [] (p1 ++ y :: p2) UBX_CLASS_NAV UBX_NAV_PVT
                             (fst ck) (snd ck)) as (Ha & Hb & _).
    cbn [app] in Hcs, Ha, Hb. rewrite app_nil_r in Hcs, Ha, Hb.
    change (len []) with 0 in Hcs, Ha, Hb. rewrite Hlen' in Hcs, Ha, Hb.
    fold received in Hcs, Ha, Hb.
    change (0 + 2) with 2 in *. change (0 + 6 + 92) with 98 in *.
    change (0 + 7 + 92) with 99 in *. change (4 + 92) with 96 in *.
    rewrite Hcs, Ha, Hb, <- surjective_pairing in Hsum.
    apply (checksum_single_byte
             ([UBX_CLASS_NAV; UBX_NAV_PVT; 92 mod 256; 92 / 256] ++ p1)
             p2 x y Hx Hy Hne).
    symmetry.
    assert (Hcx : checksummed UBX_CLASS_NAV UBX_NAV_PVT payload
                  = ([UBX_CLASS_NAV; UBX_NAV_PVT; 92 mod 256; 92 / 256] ++ p1)
                      ++ x :: p2).
    { unfold checksummed. rewrite Hlen. unfold payload.
      rewrite <- !app_assoc. reflexivity. }
    assert (Hcy : checksummed UBX_CLASS_NAV UBX_NAV_PVT (p1 ++ y :: p2)
                  = ([UBX_CLASS_NAV; UBX_NAV_PVT; 92 mod 256; 92 / 256] ++ p1)
                      ++ y :: p2).
    { unfold checksummed. rewrite Hlen'. rewrite <- !app_assoc. reflexivity. }
    unfold ck in Hsum. rewrite Hcx, Hcy in Hsum.
    exact Hsum.
  - eexists. split; [ reflexivity | ]. split; reflexivity.
Qed.

Lemma corrupted_frame_not_decoded_witness :
  let payload := repeat 0 10 ++ 0 :: repeat 0 81 in
  let ck := ubx_checksum (checksummed UBX_CLASS_NAV UBX_NAV_PVT payload) in
  let received :=
    frame_bytes UBX_CLASS_NAV UBX_NAV_PVT (repeat 0 10 ++ 9 :: repeat 0 81)
                (fst ck) (snd ck) in
  exists r, feed [] received = Some r
            /\ ret r = false /\ pos_out r = position_zero.
Proof.
  apply (corrupted_frame_not_decoded (repeat 0 10) (repeat 0 81) 0 9).
  - unfold bytes_ok, byte_ok. apply Forall_forall. intros b Hb.
    apply in_app_or in Hb. destruct Hb as [Hb | [Hb | Hb]].
    + apply repeat_spec in Hb. lia.
    + lia.
    + apply repeat_spec in Hb. lia.
  - unfold byte_ok. lia.
  - discriminate.
  - reflexivity.
Defined.

(** *** Frames ahead of the fix *)

Lemma frames_cons f fs :
  frames (f :: fs) = frame (fst (fst f)) (snd (fst f)) (snd f) ++ frames fs.
Proof. reflexivity. Qed.

(** With a fix frame behind them, well-formed frames of other kinds are
    removed from the accumulator one by one. *)
Lemma scan_frames payload tail : forall others fuel,
  Forall (fun f => is_target f = false /\ len (snd f) < 65536) others ->
  len payload = 92 ->
  (length others < fuel)%nat ->
  scan fuel (frames others ++ nav_pvt_frame payload ++ tail) 0
  = Some (Found (decode_nav_pvt payload) tail).
Proof.
  induction others as [ | f others IH ]; intros fuel Hothers Hlen Hfuel;
    (destruct fuel as [ | fuel ]; [ cbn [length] in Hfuel; lia | ]).
  - cbn [frames map concat app]. unfold nav_pvt_frame.
    assert (Hshort : len payload < 65536) by lia.
    pose proof (frame_at_layout [] tail UBX_CLASS_NAV UBX_NAV_PVT payload Hshort)
      as Hframe.
    rewrite frame_as_bytes in *.
    set (ck := ubx_checksum (checksummed UBX_CLASS_NAV UBX_NAV_PVT payload)) in *.
    destruct (layout_header [] tail payload UBX_CLASS_NAV UBX_NAV_PVT
                            (fst ck) (snd ck) Hshort) as (_ & _ & Hc & Hi & Hp).
    pose proof (layout_payload [] tail payload UBX_CLASS_NAV UBX_NAV_PVT
                               (fst ck) (snd ck)) as Hpay.
    destruct (layout_trailer [] tail payload UBX_CLASS_NAV UBX_NAV_PVT
                             (fst ck) (snd ck)) as (_ & _ & Hrest).
    pose proof (layout_len [] tail payload UBX_CLASS_NAV UBX_NAV_PVT
                           (fst ck) (snd ck)) as Hl.
    cbn [app] in *. change (len []) with 0 in *.
    pose proof (len_nonneg tail).
    rewrite scan_good_checksum; [ | lia | exact Hframe ].
    rewrite Hc, Hi, Hp, Hlen, !Z.eqb_refl. cbn [andb].
    rewrite Hlen in Hpay, Hrest. rewrite Hpay. do 2 f_equal.
    change (0 + (8 + 92)) with (0 + 8 + 92). exact Hrest.
  - inversion Hothers as [ | f' others' [Hnot Hshort] Hrest' ]; subst.
    rewrite frames_cons, <- app_assoc.
    destruct f as [[cls id] pl]. cbn [fst snd] in *.
    set (post := frames others ++ nav_pvt_frame payload ++ tail).
    pose proof (frame_at_layout [] post cls id pl Hshort) as Hframe.
    rewrite frame_as_bytes in *.
    set (ck := ubx_checksum (checksummed cls id pl)) in *.
    destruct (layout_header [] post pl cls id (fst ck) (snd ck) Hshort)
      as (_ & _ & Hc & Hi & Hp).
    destruct (layout_trailer [] post pl cls id (fst ck) (snd ck))
      as (_ & _ & Hskip).
    pose proof (layout_len [] post pl cls id (fst ck) (snd ck)) as Hl.
    cbn [app] in *. change (len []) with 0 in *.
    pose proof (len_nonneg pl).
    assert (Hpost : 100 <= len post).
    { unfold post, nav_pvt_frame. rewrite frame_as_bytes, !len_app, frame_bytes_len.
      pose proof (len_nonneg (frames others)). pose proof (len_nonneg tail). lia. }
    rewrite scan_good_checksum; [ | lia | exact Hframe ].
    rewrite Hc, Hi, Hp. unfold is_target in Hnot. cbn [fst snd] in Hnot.
    rewrite Hnot.
    replace (0 + (8 + len pl)) with (0 + 8 + len pl) by lia.
    rewrite Hskip. apply IH; [ assumption | assumption | cbn [length] in Hfuel; lia ].
Qed.

Lemma frames_length others : (length others <= length (frames others))%nat.
Proof.
  induction others as [ | f others IH ]; [ cbn; lia | ].
  rewrite frames_cons, length_app, frame_as_bytes.
  pose proof (frame_bytes_len (fst (fst f)) (snd (fst f)) (snd f)
                (fst (ubx_checksum (checksummed (fst (fst f)) (snd (fst f)) (snd f))))
                (snd (ubx_checksum (checksummed (fst (fst f)) (snd (fst f)) (snd f)))))
    as Hl.
  pose proof (len_nonneg (snd f)). unfold len in *. cbn [length]. lia.
Qed.

(** X4. One read that delivers well-formed frames of other kinds, then a
    target fix frame, then further bytes: the call returns the fix of that
    frame, discards the frames ahead of it and keeps what follows it in the
    accumulator for the next call. *)
Theorem frames_ahead_discarded (others : list (Z * Z * list Z))
        (payload tail : list Z) :
  let stream := frames others ++ nav_pvt_frame payload ++ tail in
  Forall (fun f => is_target f = false /\ len (snd f) < 65536) others ->
  len payload = 92 ->
  len stream <= UBX_BUFFER_SIZE ->
  feed [] stream
  = Some {| ret := true; pos_out := decode_nav_pvt payload; buffer_out := tail |}.
Proof.
  intros stream Hothers Hlen Hfit. unfold UBX_BUFFER_SIZE in Hfit.
  assert (Hmin : 100 <= len stream).
  { unfold stream, nav_pvt_frame. rewrite frame_as_bytes, !len_app, frame_bytes_len.
    pose proof (len_nonneg (frames others)). pose proof (len_nonneg tail). lia. }
  rewrite feed_appended by lia.
  assert (Happ : appended [] stream = stream).
  { unfold appended. cbn [app]. apply firstn_all2.
    unfold len in *. unfold UBX_BUFFER_SIZE. cbn [length]. lia. }
  rewrite Happ. unfold stream at 2.
  rewrite scan_frames; [ reflexivity | assumption | assumption | ].
  unfold scan_fuel, stream. rewrite length_app.
  pose proof (frames_length others). lia.
Qed.

Lemma frames_ahead_discarded_witness :
  feed [] (frames [(6, 1, [1; 2; 3]); (1, 7, repeat 0 20)]
             ++ nav_pvt_frame (repeat 7 92) ++ [0xB5; 0x62; 1])
  = Some {| ret := true; pos_out := decode_nav_pvt (repeat 7 92);
            buffer_out := [0xB5; 0x62; 1] |}.
Proof.
  apply (frames_ahead_discarded [(6, 1, [1; 2; 3]); (1, 7, repeat 0 20)]
                                (repeat 7 92) [0xB5; 0x62; 1]).
  - repeat constructor.
  - reflexivity.
  - vm_compute. discriminate.
Defined.

(** *** [zed_rover_read] *)

(** X5. A read never stores more than [max_len] bytes and never reports
    more than it stored room for: the result is -1 on a bus error, 0 when
    the receiver has nothing (or reports 0xFFFF), and otherwise the smaller
    of the number available and [max_len], with that many bytes of the
    stream stored. *)
Theorem zed_rover_read_bounded (b0 b1 max_len : Z) (data : data_reply) :
  byte_ok b0 -> byte_ok b1 -> 0 < max_len ->
  let available := 256 * b0 + b1 in
  let '(n, stored) := zed_rover_read (Some (b0, b1)) data max_len in
  -1 <= n <= max_len
  /\ len stored <= Z.max n 0
  /\ (available = 0 \/ available = 65535 -> n = 0 /\ stored = [])
  /\ (0 < available < 65535 ->
      match data with
      | None => n = -1 /\ stored = []
      | Some bytes =>
          n = Z.min available max_len
          /\ stored = firstn (Z.to_nat n) bytes
      end).
Proof.
  intros H0 H1 Hmax available. unfold zed_rover_read, zed_rover_available.
  assert (Hval : Z.lor (Z.shiftl b0 8) b1 = available).
  { unfold byte_ok in *. rewrite Z.lor_comm, lor_shiftl_add by lia.
    unfold available. lia. }
  rewrite Hval.
  assert (Hrange : 0 <= available <= 65535) by (unfold available, byte_ok in *; lia).
  destruct (Z.eqb_spec available 65535) as [E | E].
  - cbn [Z.leb Z.compare]. change (len []) with 0.
    repeat split; try lia.
  - destruct (Z.leb_spec available 0) as [Hz | Hpos].
    + assert (available = 0) by lia. change (len []) with 0.
      repeat split; try lia.
    + destruct (Z.ltb_spec available max_len) as [Hlt | Hge];
        (destruct data as [bytes | ];
         [ | change (len []) with 0; repeat split; try lia ]).
      * split; [ lia | ]. split.
        { unfold len. rewrite length_firstn. lia. }
        split; [ lia | ]. intros _. split; [ lia | reflexivity ].
      * split; [ lia | ]. split.
        { unfold len. rewrite length_firstn. lia. }
        split; [ lia | ]. intros _. split; [ lia | reflexivity ].
Qed.

Lemma zed_rover_read_bounded_witness :
  let available := 256 * 1 + 44 in
  let '(n, stored) := zed_rover_read (Some (1, 44)) (Some (repeat 7 300)) 256 in
  -1 <= n <= 256
  /\ len stored <= Z.max n 0
  /\ (available = 0 \/ available = 65535 -> n = 0 /\ stored = [])
  /\ (0 < available < 65535 ->
      n = Z.min available 256
      /\ stored = firstn (Z.to_nat n) (repeat 7 300)).
Proof.
  apply (zed_rover_read_bounded 1 44 256 (Some (repeat 7 300)));
    unfold byte_ok; lia.
Defined.

(** *** A stream of frames cut into calls *)






Section FrameStream.
Variable payload : list Z.
Hypothesis payload_len : len payload = 92.

Let target := nav_pvt_frame payload.


(** The bound under which nothing is cut off or wiped.  Either the bytes
    held and still to come are at most 256 and no call that leaves the
    stream incomplete brings the bytes held above 200; or every frame is
    at most [limit] bytes long and every call delivers at most
    [257 - limit] bytes. *)
Let within (limit : Z) (acc rest : list Z) (chunks : list (list Z))
    (fs : list (Z * Z * list Z)) : Prop :=
  (len acc + len rest <= 256
   /\ forall i, (i <= length chunks)%nat ->
                len (concat (firstn i chunks)) < len rest ->
                len acc + len (concat (firstn i chunks)) <= 200)
  \/ (100 <= limit <= 201 /\ len acc < limit
      /\ Forall (fun f => 8 + len (snd f) <= limit) fs
      /\ Forall (fun c => len c <= 257 - limit) chunks).









End FrameStream.



(** In the run of the witness the last of the six calls returns the fix;
    after four calls the accumulator holds the 84 bytes received of the
    third status frame, the first two frames having been skipped. *)
Example frame_stream_run :
  let others := [(1, 3, repeat 0 100); (1, 3, repeat 1 100); (1, 3, repeat 2 100)] in
  let payload := repeat 7 92 in
  let stream := frames others ++ nav_pvt_frame payload in
  let cut n := firstn 100 (skipn n stream) in
  let chunks := [cut 0%nat; cut 100%nat; []; cut 200%nat; cut 300%nat; cut 400%nat] in
  feed_all [] chunks
  = Some (repeat no_fix 5 ++ [(true, decode_nav_pvt payload)], [])
  /\ feed_all [] (firstn 4 chunks)
     = Some (repeat no_fix 4, firstn 84 (skipn 216 stream)).
Proof. vm_compute. split; reflexivity. Qed.

(** Just beyond the bounds the amended statement fails.  A call that
    leaves 201 bytes of an incomplete frame clears the accumulator, where
    200 bytes are kept; and with 200 bytes of a 201-byte frame held, a call
    that delivers 57 bytes is cut at 256, so that a byte of the fix frame
    is dropped and no call returns the fix, where calls of 56 bytes
    deliver it. *)
Example frame_stream_bounds_tight :
  let target := nav_pvt_frame (repeat 7 92) in
  let long := frame 1 3 (repeat 0 194) in
  let wide := frame 1 3 (repeat 0 193) in
  let held := [firstn 50 wide; firstn 50 (skipn 50 wide);
               firstn 50 (skipn 100 wide); firstn 50 (skipn 150 wide)] in
  (len long = 202
   /\ feed [] (firstn 200 long) = Some (no_position (firstn 200 long))
   /\ feed [] (firstn 201 long) = Some (no_position []))
  /\ (len wide = 201
      /\ feed_all [] (held ++ [skipn 200 wide ++ firstn 56 target; skipn 56 target])
         = Some (repeat no_fix 6, firstn 55 target ++ skipn 56 target)
      /\ feed_all [] (held ++ [skipn 200 wide ++ firstn 55 target; skipn 55 target])
         = Some (repeat no_fix 5 ++ [(true, decode_nav_pvt (repeat 7 92))], [])).
Proof. vm_compute. repeat split. Qed.

End ZedRoverFacts.

(** ** Correction client *)

Module NtripClientFacts.
Import NtripClient.

(** *** [base64_encode] *)

(** The index handed on by [cond ? input[i++] : 0] never passes the end
    of the input, so neither padding test of the loop can succeed. *)
Lemma next_octet_index input input_len i :
  i <= input_len ->
  i <= snd (next_octet input input_len i) <= input_len.
Proof.
  intros Hi. unfold next_octet.
  destruct (Z.ltb_spec i input_len); cbn [snd]; lia.
Qed.

Lemma next_octet_advances input input_len i :
  i < input_len -> snd (next_octet input input_len i) = i + 1.
Proof.
  intros Hi. unfold next_octet.
  destruct (Z.ltb_spec i input_len); [ reflexivity | lia ].
Qed.

(** The loop ends within [input_len - i] iterations. *)
Lemma base64_loop_total fuel : forall input input_len output_len i j output,
  i <= input_len -> input_len - i < Z.of_nat fuel ->
  exists s, base64_loop fuel input input_len output_len i j output = Some s.
Proof.
  induction fuel as [ | fuel IH ]; intros input input_len output_len i j output Hi Hfuel;
    [ lia | ].
  cbn [base64_loop].
  destruct (Z.ltb_spec i input_len) as [Hlt | Hge]; cbn [andb]; [ | eauto ].
  destruct (j <? _); [ | eauto ].
  pose proof (next_octet_advances input input_len i Hlt) as Ha.
  destruct (next_octet input input_len i) as [octet_a ia]. cbn [snd] in Ha.
  pose proof (next_octet_index input input_len ia ltac:(lia)) as Hb.
  destruct (next_octet input input_len ia) as [octet_b ib]. cbn [snd] in Hb.
  pose proof (next_octet_index input input_len ib ltac:(lia)) as Hc.
  destruct (next_octet input input_len ib) as [octet_c ic]. cbn [snd] in Hc.
  apply IH; lia.
Qed.

Lemma base64_encode_total input output_len :
  exists s, base64_encode input output_len = Some s.
Proof.
  unfold base64_encode. apply base64_loop_total; unfold strlen; lia.
Qed.

(** C2 (the code departs from the claim).  [base64_encode] writes ['A']
    where standard base64 pads with ['=']: for "Aladdin:open sesame" it
    gives "...ZQAA" where the standard encoding is "...ZQ==", and likewise
    for inputs of one and two bytes. *)
Theorem base64_padding_missing :
  base64_encode "Aladdin:open sesame" 256 = Some "QWxhZGRpbjpvcGVuIHNlc2FtZQAA"%string
  /\ base64_std "Aladdin:open sesame" = "QWxhZGRpbjpvcGVuIHNlc2FtZQ=="%string
  /\ base64_encode "a" 256 = Some "YQAA"%string
  /\ base64_std "a" = "YQ=="%string
  /\ base64_encode "ab" 256 = Some "YWIA"%string
  /\ base64_std "ab" = "YWI="%string.
Proof. vm_compute. repeat split. Qed.

(** [ntrip_client_connect] always returns. *)
Lemma ntrip_client_connect_total cfg env st :
  exists o, ntrip_client_connect cfg env st = Some o.
Proof.
  unfold ntrip_client_connect, build_request.
  destruct (s_connected st); [ eauto | ].
  destruct (negb (host_found env)); [ eauto | ].
  destruct (socket_ret env <? 0); [ eauto | ].
  destruct (negb (connect_ret env =? 0)); [ eauto | ].
  destruct (_ && _).
  - destruct (snprintf 128 _) as [credentials n].
    destruct (base64_encode_total (c_string credentials) 256) as [b ->].
    destruct (snprintf 512 _) as [request req_len].
    repeat match goal with
           | |- context [if ?c then _ else _] => destruct c
           end; eauto.
  - destruct (snprintf 512 _) as [request req_len].
    repeat match goal with
           | |- context [if ?c then _ else _] => destruct c
           end; eauto.
Qed.

(** *** The client's state *)

(** While the connected flag is set the socket descriptor is a real one. *)
Lemma connected_has_socket st :
  reachable st -> s_connected st = true -> 0 <= s_sock st.
Proof.
  induction 1 as [ | cfg env st r st' t Hreach IH Hsock Hconn
                   | st Hreach IH | max_len r tick st Hreach IH
                   | hz tick st Hreach IH ].
  - discriminate.
  - unfold ntrip_client_connect in Hconn.
    destruct (s_connected st) eqn:Hc.
    { injection Hconn as _ <- _. intros _. now apply IH. }
    repeat match type of Hconn with
           | (if ?c then _ else _) = _ => destruct c eqn:?
           | match ?c with Some _ => _ | None => _ end = _ => destruct c as [[? ?] | ]
           end;
      try discriminate;
      injection Hconn as _ <- _; cbn [s_connected s_sock]; try discriminate;
      try (rewrite Hc; discriminate).
    intros _. lia.
  - unfold ntrip_client_disconnect.
    destruct (0 <=? s_sock st); cbn [fst s_connected]; discriminate.
  - unfold ntrip_client_receive.
    repeat match goal with
           | |- context [if ?c then _ else _] => destruct c eqn:?
           end;
      cbn [fst snd s_connected s_sock disconnected]; try discriminate; assumption.
  - unfold ntrip_client_check_stale, ntrip_client_disconnect.
    destruct (ntrip_client_is_stale hz tick st); [ | exact IH ].
    destruct (0 <=? s_sock st); cbv beta iota; cbn [fst s_connected]; discriminate.
Qed.

(** Splits a conjunction of implications and closes each part from the
    arithmetic facts at hand. *)
Ltac settle_cases :=
  repeat split; intros;
  repeat match goal with
         | H : _ \/ _ |- _ => destruct H
         | H : _ /\ _ |- _ => destruct H
         end;
  try reflexivity; try lia; try contradiction.

(** C7. [ntrip_client_receive] called while the session is Streaming:
    when [recv] delivers data it returns the byte count, stores the current
    tick as last-activity time and adds the count to the received-byte
    counter (a [uint32_t]); when [recv] fails with [EAGAIN] or
    [EWOULDBLOCK] it returns 0 and changes nothing; on any other failure,
    or when [recv] returns 0, it returns -1, closes the socket and leaves
    the session Disconnected. *)
Theorem ntrip_client_receive_spec (max_len : Z) (r : recv_reply) (tick : Z)
        (st : client) :
  reachable st ->
  session_of st = Streaming ->
  let '(ret, st', calls) := ntrip_client_receive max_len r tick st in
  (0 < received r ->
   ret = received r
   /\ s_last_data_time st' = tick
   /\ s_bytes_received st' = (s_bytes_received st + received r) mod 2 ^ 32
   /\ s_sock st' = s_sock st
   /\ session_of st' = Streaming)
  /\ (received r < 0 -> errno r = EAGAIN \/ errno r = EWOULDBLOCK ->
      ret = 0 /\ st' = st)
  /\ ((received r < 0 /\ errno r <> EAGAIN /\ errno r <> EWOULDBLOCK)
      \/ received r = 0 ->
      ret = -1
      /\ calls = [sys_recv (s_sock st) max_len; sys_close (s_sock st)]
      /\ s_sock st' = -1
      /\ session_of st' = Disconnected).
Proof.
  intros Hreach Hstream. unfold session_of in Hstream.
  destruct (s_connected st) eqn:Hc; [ | discriminate ].
  pose proof (connected_has_socket st Hreach Hc) as Hsock.
  unfold ntrip_client_receive. rewrite Hc. cbn [negb orb].
  destruct (Z.ltb_spec (s_sock st) 0); [ lia | ].
  destruct (Z.ltb_spec (received r) 0) as [Hneg | Hnonneg].
  - destruct (Z.eqb_spec (errno r) EAGAIN) as [Ha | Ha]; cbn [orb];
      [ | destruct (Z.eqb_spec (errno r) EWOULDBLOCK) as [Hw | Hw] ];
      settle_cases.
  - destruct (Z.eqb_spec (received r) 0) as [Hz | Hz].
    + settle_cases.
    + unfold session_of. cbn [s_connected s_sock s_bytes_received s_last_data_time].
      settle_cases.
Qed.

Lemma streaming_example_reachable : reachable streaming_example.
Proof.
  eapply (reach_connect
            {| NTRIP_HOST := "caster"; NTRIP_PORT := 2101;
               NTRIP_MOUNTPOINT := "BASE"; NTRIP_USER := ""; NTRIP_PASSWORD := "" |}
            {| host_found := true; socket_ret := 3; connect_ret := 0; send_ret := 96;
               handshake_recv_ret := 10; handshake_bytes := "ICY 200 OK";
               connect_tick := 1000 |}
            client_init).
  - apply reach_init.
  - left. cbn. lia.
  - vm_compute. reflexivity.
Defined.

Lemma ntrip_client_receive_spec_witness :
  let r := {| received := 512; errno := 0 |} in
  let '(ret, st', calls) := ntrip_client_receive 1024 r 1500 streaming_example in
  (0 < received r ->
   ret = received r
   /\ s_last_data_time st' = 1500
   /\ s_bytes_received st' = (s_bytes_received streaming_example + received r) mod 2 ^ 32
   /\ s_sock st' = s_sock streaming_example
   /\ session_of st' = Streaming)
  /\ (received r < 0 -> errno r = EAGAIN \/ errno r = EWOULDBLOCK ->
      ret = 0 /\ st' = streaming_example)
  /\ ((received r < 0 /\ errno r <> EAGAIN /\ errno r <> EWOULDBLOCK)
      \/ received r = 0 ->
      ret = -1
      /\ calls = [sys_recv (s_sock streaming_example) 1024;
                  sys_close (s_sock streaming_example)]
      /\ s_sock st' = -1
      /\ session_of st' = Disconnected).
Proof.
  exact (ntrip_client_receive_spec 1024 {| received := 512; errno := 0 |} 1500
           streaming_example streaming_example_reachable eq_refl).
Defined.

(** C10. [ntrip_client_connect] called while the session is Streaming
    returns [ESP_OK] at once: it makes no call into the resolver or the
    socket layer and leaves every module-level variable as it was. *)
Theorem connect_while_streaming_is_noop (cfg : config) (env : connect_env)
        (st : client) :
  session_of st = Streaming ->
  ntrip_client_connect cfg env st = Some (ESP_OK, st, []).
Proof.
  unfold session_of, ntrip_client_connect.
  destruct (s_connected st); [ reflexivity | discriminate ].
Qed.

Lemma connect_while_streaming_is_noop_witness :
  ntrip_client_connect
    {| NTRIP_HOST := "caster"; NTRIP_PORT := 2101; NTRIP_MOUNTPOINT := "BASE";
       NTRIP_USER := "user"; NTRIP_PASSWORD := "pass" |}
    {| host_found := true; socket_ret := 4; connect_ret := 0; send_ret := 96;
       handshake_recv_ret := 10; handshake_bytes := "ICY 200 OK";
       connect_tick := 2000 |}
    streaming_example
  = Some (ESP_OK, streaming_example, []).
Proof.
  apply connect_while_streaming_is_noop. reflexivity.
Defined.

(** *** The socket descriptor and the connected flag *)

(** X6. In every state the client can reach, the connected flag is set
    exactly when the client holds a socket descriptor: a client that is not
    connected holds no open socket. *)
Theorem socket_held_iff_connected (st : client) :
  reachable st -> (s_connected st = true <-> 0 <= s_sock st).
Proof.
  induction 1 as [ | cfg env st r st' t Hreach IH Hsock Hconn
                   | st Hreach IH | max_len r tick st Hreach IH
                   | hz tick st Hreach IH ].
  - cbn. split; [ discriminate | lia ].
  - unfold ntrip_client_connect in Hconn.
    destruct (s_connected st) eqn:Hc.
    { injection Hconn as _ <- _. rewrite Hc. exact IH. }
    repeat match type of Hconn with
           | (if ?c then _ else _) = _ => destruct c eqn:?
           | match ?c with Some _ => _ | None => _ end = _ => destruct c as [[? ?] | ]
           end;
      try discriminate;
      injection Hconn as _ <- _; cbn [s_connected s_sock]; try rewrite Hc;
      try exact IH;
      split; try discriminate; try lia; try reflexivity.
  - unfold ntrip_client_disconnect.
    destruct (Z.leb_spec 0 (s_sock st)); cbn [fst s_connected s_sock];
      split; try discriminate; lia.
  - unfold ntrip_client_receive.
    repeat match goal with
           | |- context [if ?c then _ else _] => destruct c eqn:?
           end;
      cbn [fst snd s_connected s_sock disconnected]; try exact IH;
      split; try discriminate; lia.
  - unfold ntrip_client_check_stale, ntrip_client_disconnect.
    destruct (ntrip_client_is_stale hz tick st); [ | exact IH ].
    destruct (Z.leb_spec 0 (s_sock st)); cbv beta iota;
      cbn [fst s_connected s_sock]; split; try discriminate; lia.
Qed.

Lemma socket_held_iff_connected_witness :
  s_connected streaming_example = true <-> 0 <= s_sock streaming_example.
Proof.
  apply (socket_held_iff_connected streaming_example).
  exact streaming_example_reachable.
Defined.

(** *** [ntrip_client_disconnect] and what follows it *)

(** X7. After [ntrip_client_disconnect] the client is closed for good: a
    second call makes no system call and changes nothing, a receive returns
    -1 without touching the socket layer, and the connection is not
    reported stale.  The call itself closes at most the one descriptor the
    client held. *)
Theorem disconnect_is_final (st : client) (max_len tick hz : Z) (r : recv_reply) :
  let '(st1, t1) := ntrip_client_disconnect st in
  ntrip_client_disconnect st1 = (st1, [])
  /\ ntrip_client_receive max_len r tick st1 = (-1, st1, [])
  /\ ntrip_client_is_stale hz tick st1 = false
  /\ s_connected st1 = false /\ s_sock st1 < 0
  /\ t1 = (if 0 <=? s_sock st then [sys_close (s_sock st)] else []).
Proof.
  unfold ntrip_client_disconnect.
  destruct (Z.leb_spec 0 (s_sock st)) as [Hs | Hs].
  - cbn [s_sock s_connected]. repeat split; reflexivity || lia.
  - unfold ntrip_client_receive, ntrip_client_is_stale.
    cbn [s_sock s_connected negb orb].
    destruct (Z.leb_spec 0 (s_sock st)); [ lia | ].
    repeat split; try reflexivity; lia.
Qed.

(** *** Staleness *)

Lemma stale_timeout_nonneg hz : 0 <= hz -> 0 <= pdMS_TO_TICKS hz NTRIP_STALE_TIMEOUT_MS.
Proof.
  intros H. unfold pdMS_TO_TICKS, NTRIP_STALE_TIMEOUT_MS.
  apply Z.div_pos; lia.
Qed.

(** X8. Staleness is measured on the tick counter's wrapped difference: when
    data arrived at tick [tick] and [e] ticks have gone by since, the
    connection is stale exactly when [e] exceeds the timeout, also when the
    32-bit counter has wrapped around in between. *)
Theorem stale_after_elapsed (max_len tick hz e : Z) (r : recv_reply) (st : client) :
  s_connected st = true -> 0 <= s_sock st ->
  0 < received r ->
  0 <= e < 2 ^ 32 ->
  let st' := snd (fst (ntrip_client_receive max_len r tick st)) in
  ntrip_client_is_stale hz ((tick + e) mod 2 ^ 32) st'
  = (e >? pdMS_TO_TICKS hz NTRIP_STALE_TIMEOUT_MS).
Proof.
  intros Hc Hs Hr He. unfold ntrip_client_receive.
  rewrite Hc. cbn [negb orb].
  destruct (Z.ltb_spec (s_sock st) 0); [ lia | ].
  destruct (Z.ltb_spec (received r) 0); [ lia | ].
  destruct (Z.eqb_spec (received r) 0); [ lia | ].
  cbn [fst snd]. unfold ntrip_client_is_stale. cbn [s_connected s_last_data_time].
  cbn [negb].
  rewrite Zminus_mod_idemp_l.
  replace (tick + e - tick) with e by lia.
  rewrite Z.mod_small by lia. reflexivity.
Qed.

Lemma stale_after_elapsed_witness :
  let r := {| received := 512; errno := 0 |} in
  let st' := snd (fst (ntrip_client_receive 1024 r (2 ^ 32 - 100) streaming_example)) in
  ntrip_client_is_stale 100 ((2 ^ 32 - 100 + 1600) mod 2 ^ 32) st'
  = (1600 >? pdMS_TO_TICKS 100 NTRIP_STALE_TIMEOUT_MS).
Proof.
  intros r.
  apply (stale_after_elapsed 1024 (2 ^ 32 - 100) 100 1600 r streaming_example).
  - reflexivity.
  - cbn. lia.
  - cbn. lia.
  - lia.
Defined.

(** X9. [ntrip_client_check_stale] leaves a client that is not stale.  A
    disconnected client is left as it is without any call.  For a connected
    client the tick counter is read once: a connection that is not stale is
    then left as it is, a stale one is disconnected and its descriptor
    closed, the byte counter kept. *)
Theorem check_stale_settles (hz tick : Z) (st : client) :
  let '(st', t) := ntrip_client_check_stale hz tick st in
  ntrip_client_is_stale hz tick st' = false
  /\ (s_connected st = false -> st' = st /\ t = [])
  /\ (s_connected st = true -> ntrip_client_is_stale hz tick st = false ->
      st' = st /\ t = [sys_xTaskGetTickCount])
  /\ (ntrip_client_is_stale hz tick st = true ->
      s_connected st' = false /\ s_sock st' < 0
      /\ s_bytes_received st' = s_bytes_received st
      /\ t = sys_xTaskGetTickCount
             :: (if 0 <=? s_sock st then [sys_close (s_sock st)] else [])).
Proof.
  unfold ntrip_client_check_stale, ntrip_client_is_stale_calls.
  destruct (ntrip_client_is_stale hz tick st) eqn:Hstale.
  - assert (Hc : s_connected st = true).
    { unfold ntrip_client_is_stale in Hstale.
      destruct (s_connected st); [ reflexivity | discriminate ]. }
    rewrite Hc. cbn [negb]. unfold ntrip_client_disconnect.
    destruct (Z.leb_spec 0 (s_sock st)); cbv beta iota;
      unfold ntrip_client_is_stale;
      cbn [s_connected s_sock s_bytes_received negb app];
      (split; [ reflexivity | ]); (split; [ discriminate | ]);
      (split; [ discriminate | ]); intros _; repeat split; lia.
  - split; [ exact Hstale | ].
    split; [ intros Hc; rewrite Hc; split; reflexivity | ].
    split; [ intros Hc _; rewrite Hc; split; reflexivity | discriminate ].
Qed.

(** *** [ntrip_client_connect] from a disconnected client *)

Lemma build_request_total cfg : exists p, build_request cfg = Some p.
Proof.
  unfold build_request. destruct (_ && _); [ | eauto ].
  destruct (snprintf 128 _) as [credentials n].
  destruct (base64_encode_total (c_string credentials) 256) as [b ->]. eauto.
Qed.

(** X10. A connection attempt made while not connected always returns.  It
    returns [ESP_OK] exactly when the host resolves, the socket is created
    and connected, the request is sent and the first answer contains "200"
    or "ICY"; the client is then connected on the new descriptor with the
    data timer restarted, and nothing was closed.  In every other case it
    returns [ESP_FAIL] and stays disconnected; a descriptor that was opened
    is closed again, once, as the last call, and the byte counter is
    untouched either way. *)
Theorem connect_attempt_outcome (cfg : config) (env : connect_env) (st : client) :
  s_connected st = false ->
  exists r st' t,
    ntrip_client_connect cfg env st = Some (r, st', t)
    /\ s_bytes_received st' = s_bytes_received st
    /\ (link_established env = true ->
        r = ESP_OK /\ s_connected st' = true /\ s_sock st' = socket_ret env
        /\ s_last_data_time st' = connect_tick env
        /\ filter is_close t = [])
    /\ (link_established env = false ->
        r = ESP_FAIL /\ s_connected st' = false
        /\ s_last_data_time st' = s_last_data_time st
        /\ (host_found env = true -> 0 <= socket_ret env ->
            s_sock st' = -1
            /\ filter is_close t = [sys_close (socket_ret env)]
            /\ last t sys_socket = sys_close (socket_ret env))
        /\ (host_found env = false \/ socket_ret env < 0 ->
            filter is_close t = [])).
Proof.
  intros Hc. unfold ntrip_client_connect, link_established, handshake_accepted.
  rewrite Hc.
  destruct (build_request_total cfg) as [[request req_len] ->].
  destruct (host_found env); cbn [negb andb].
  2: { do 3 eexists. split; [ reflexivity | ]. split; [ reflexivity | ].
       split; [ discriminate | ]. intros _. cbn [filter is_close app].
       repeat split; try assumption; try discriminate. }
  destruct (Z.ltb_spec (socket_ret env) 0) as [Hs | Hs].
  { destruct (Z.leb_spec 0 (socket_ret env)); [ lia | ]. cbn [andb].
    do 3 eexists. split; [ reflexivity | ]. split; [ reflexivity | ].
    split; [ discriminate | ]. intros _.
    cbn [filter is_close app s_connected s_last_data_time].
    repeat split; try assumption; try lia. }
  destruct (Z.leb_spec 0 (socket_ret env)); [ | lia ]. cbn [andb].
  destruct (connect_ret env =? 0); cbn [negb andb].
  2: { do 3 eexists. split; [ reflexivity | ]. split; [ reflexivity | ].
       split; [ discriminate | ]. intros _.
       cbn [filter is_close app s_connected s_last_data_time s_sock last].
       repeat split; try assumption; try lia; intros [Hf | Hf]; discriminate || lia. }
  destruct (Z.ltb_spec (send_ret env) 0) as [Hsend | Hsend].
  { destruct (Z.leb_spec 0 (send_ret env)); [ lia | ]. cbn [andb].
    do 3 eexists. split; [ reflexivity | ]. split; [ reflexivity | ].
    split; [ discriminate | ]. intros _.
    cbn [filter is_close app s_connected s_last_data_time s_sock last].
    repeat split; try assumption; try lia; intros [Hf | Hf]; discriminate || lia. }
  destruct (Z.leb_spec 0 (send_ret env)); [ | lia ]. cbn [andb].
  destruct (Z.ltb_spec (handshake_recv_ret env) 0) as [Hrecv | Hrecv].
  { destruct (Z.leb_spec 0 (handshake_recv_ret env)); [ lia | ]. cbn [andb].
    do 3 eexists. split; [ reflexivity | ]. split; [ reflexivity | ].
    split; [ discriminate | ]. intros _.
    cbn [filter is_close app s_connected s_last_data_time s_sock last].
    repeat split; try assumption; try lia; intros [Hf | Hf]; discriminate || lia. }
  destruct (Z.leb_spec 0 (handshake_recv_ret env)); [ | lia ]. cbn [andb].
  destruct (_ || _).
  - do 3 eexists. split; [ reflexivity | ]. split; [ reflexivity | ].
    split; [ | discriminate ]. intros _.
    cbn [filter is_close app s_connected s_last_data_time s_sock].
    repeat split.
  - do 3 eexists. split; [ reflexivity | ]. split; [ reflexivity | ].
    split; [ discriminate | ]. intros _.
    cbn [filter is_close app s_connected s_last_data_time s_sock last].
    repeat split; try assumption; try lia; intros [Hf | Hf]; discriminate || lia.
Qed.

(** An answer that merely contains the digits 200 is taken for success. *)
Lemma connect_attempt_outcome_witness :
  let cfg := {| NTRIP_HOST := "caster"; NTRIP_PORT := 2101;
                NTRIP_MOUNTPOINT := "BASE";
                NTRIP_USER := "user"; NTRIP_PASSWORD := "pass" |} in
  let env := {| host_found := true; socket_ret := 4; connect_ret := 0;
                send_ret := 96; handshake_recv_ret := 44;
                handshake_bytes := "HTTP/1.1 404 Not Found; Content-Length: 1200";
                connect_tick := 2000 |} in
  exists r st' t,
    ntrip_client_connect cfg env client_init = Some (r, st', t)
    /\ s_bytes_received st' = s_bytes_received client_init
    /\ (link_established env = true ->
        r = ESP_OK /\ s_connected st' = true /\ s_sock st' = socket_ret env
        /\ s_last_data_time st' = connect_tick env
        /\ filter is_close t = [])
    /\ (link_established env = false ->
        r = ESP_FAIL /\ s_connected st' = false
        /\ s_last_data_time st' = s_last_data_time client_init
        /\ (host_found env = true -> 0 <= socket_ret env ->
            s_sock st' = -1
            /\ filter is_close t = [sys_close (socket_ret env)]
            /\ last t sys_socket = sys_close (socket_ret env))
        /\ (host_found env = false \/ socket_ret env < 0 ->
            filter is_close t = [])).
Proof.
  intros cfg env. apply (connect_attempt_outcome cfg env client_init). reflexivity.
Defined.

Example loose_handshake_test :
  link_established
    {| host_found := true; socket_ret := 4; connect_ret := 0;
       send_ret := 96; handshake_recv_ret := 44;
       handshake_bytes := "HTTP/1.1 404 Not Found; Content-Length: 1200";
       connect_tick := 2000 |} = true.
Proof. reflexivity. Qed.

(** *** Strings *)

Lemma strlen_append (a b : string) : strlen (a ++ b) = strlen a + strlen b.
Proof.
  unfold strlen. induction a as [ | c a IH ]; [ reflexivity | ].
  cbn [String.append String.length]. lia.
Qed.

Lemma append_nil_r (a : string) : (a ++ "")%string = a.
Proof. induction a as [ | c a IH ]; [ reflexivity | cbn; now rewrite IH ]. Qed.

Lemma append_assoc (a b c : string) : ((a ++ b) ++ c)%string = (a ++ b ++ c)%string.
Proof. induction a as [ | x a IH ]; [ reflexivity | cbn; now rewrite IH ]. Qed.

Lemma list_ascii_of_append (a b : string) :
  list_ascii_of_string (a ++ b) = list_ascii_of_string a ++ list_ascii_of_string b.
Proof. induction a as [ | x a IH ]; [ reflexivity | cbn; now rewrite IH ]. Qed.

Lemma strlen_nonneg s : 0 <= strlen s.
Proof. unfold strlen. lia. Qed.

(** The character an index lands on after a prefix. *)
Lemma char_at_after (pre : string) (c : ascii) (rest : string) :
  char_at (pre ++ String c rest) (strlen pre) = code c.
Proof.
  unfold char_at, strlen, code. rewrite Nat2Z.id.
  induction pre as [ | x pre IH ]; [ reflexivity | exact IH ].
Qed.

(** *** The encoder on whole groups of three bytes *)

Lemma next_octet_in input input_len i :
  i < input_len -> next_octet input input_len i = (char_at input i, i + 1).
Proof.
  intros H. unfold next_octet. destruct (Z.ltb_spec i input_len); [ reflexivity | lia ].
Qed.


Lemma base64_loop_groups output_len : forall k rest pre fuel j output,
  String.length rest = (3 * k)%nat ->
  (k < fuel)%nat ->
  j + 4 * Z.of_nat k <= (output_len - 4) mod 2 ^ 32 + 3 ->
  base64_loop fuel (pre ++ rest) (strlen (pre ++ rest)) output_len
              (strlen pre) j output
  = Some (output ++ base64_std rest)%string.
Proof.
  induction k as [ | k IH ]; intros rest pre fuel j output Hlen Hfuel Hroom;
    (destruct fuel as [ | fuel ]; [ lia | ]).
  - destruct rest; [ | discriminate ].
    cbn [base64_loop]. rewrite append_nil_r, Z.ltb_irrefl. cbn [andb base64_std].
    now rewrite append_nil_r.
  - destruct rest as [ | a [ | b [ | c rest ] ] ];
      cbn [String.length] in Hlen; try lia.
    cbn [base64_loop].
    assert (Hin : strlen (pre ++ String a (String b (String c rest)))
                  = strlen pre + 3 + strlen rest).
    { rewrite strlen_append. unfold strlen. cbn [String.length]. lia. }
    pose proof (strlen_nonneg rest) as Hrest.
    rewrite Hin.
    destruct (Z.ltb_spec (strlen pre) (strlen pre + 3 + strlen rest)); [ | lia ].
    destruct (Z.ltb_spec j ((output_len - 4) mod 2 ^ 32)); [ | lia ].
    cbn [andb].
    assert (Ha : char_at (pre ++ String a (String b (String c rest))) (strlen pre)
                 = code a) by apply char_at_after.
    assert (Hb : char_at (pre ++ String a (String b (String c rest))) (strlen pre + 1)
                 = code b).
    { replace (strlen pre + 1) with (strlen (pre ++ String a ""))
        by (rewrite strlen_append; unfold strlen; cbn [String.length]; lia).
      replace (pre ++ String a (String b (String c rest)))%string
        with ((pre ++ String a "") ++ String b (String c rest))%string
        by (now rewrite append_assoc).
      apply char_at_after. }
    assert (Hc : char_at (pre ++ String a (String b (String c rest)))
                         (strlen pre + 1 + 1) = code c).
    { replace (strlen pre + 1 + 1) with (strlen (pre ++ String a (String b "")))
        by (rewrite strlen_append; unfold strlen; cbn [String.length]; lia).
      replace (pre ++ String a (String b (String c rest)))%string
        with ((pre ++ String a (String b "")) ++ String c rest)%string
        by (now rewrite append_assoc).
      apply char_at_after. }
    rewrite next_octet_in by lia. cbv beta iota.
    rewrite next_octet_in by lia. cbv beta iota.
    rewrite next_octet_in by lia. cbv beta iota.
    destruct (Z.gtb_spec (strlen pre + 1 + 1 + 1) (strlen pre + 3 + strlen rest + 1));
      [ lia | ].
    destruct (Z.gtb_spec (strlen pre + 1 + 1 + 1) (strlen pre + 3 + strlen rest));
      [ lia | ].
    rewrite Ha, Hb, Hc.
    replace (pre ++ String a (String b (String c rest)))%string
      with ((pre ++ String a (String b (String c ""))) ++ rest)%string
      by (now rewrite append_assoc).
    replace (strlen pre + 1 + 1 + 1)
      with (strlen (pre ++ String a (String b (String c ""))))
      by (rewrite strlen_append; unfold strlen; cbn [String.length]; lia).
    replace (strlen pre + 3 + strlen rest)
      with (strlen ((pre ++ String a (String b (String c ""))) ++ rest))
      by (rewrite !strlen_append; unfold strlen; cbn [String.length]; lia).
    rewrite IH.
    + rewrite append_assoc. reflexivity.
    + lia.
    + lia.
    + lia.
Qed.

(** X11. On an input made of whole groups of three bytes, with room in the
    output array for the text and its terminator, the encoder produces the
    standard base64 text. *)
Theorem base64_encode_whole_groups (input : string) (output_len : Z) :
  (String.length input mod 3 = 0)%nat ->
  4 <= output_len < 2 ^ 32 ->
  4 * (strlen input / 3) < output_len ->
  base64_encode input output_len = Some (base64_std input).
Proof.
  intros Hmod Hout Hroom. unfold base64_encode.
  pose proof (Nat.div_mod_eq (String.length input) 3) as Hk.
  rewrite Hmod, Nat.add_0_r in Hk.
  remember (String.length input / 3)%nat as k eqn:Ek.
  assert (Hq : strlen input / 3 = Z.of_nat k).
  { unfold strlen. rewrite Hk, Nat2Z.inj_mul, Z.mul_comm. apply Z.div_mul. lia. }
  pose proof (base64_loop_groups output_len k input EmptyString
                (S (String.length input)) 0 EmptyString Hk) as Hloop.
  cbn [String.append] in Hloop. change (strlen "") with 0 in Hloop.
  apply Hloop.
  - lia.
  - rewrite Z.mod_small by lia. lia.
Qed.

Lemma base64_encode_whole_groups_witness :
  base64_encode "user:pass" 256 = Some (base64_std "user:pass").
Proof.
  apply (base64_encode_whole_groups "user:pass" 256).
  - reflexivity.
  - lia.
  - vm_compute. reflexivity.
Defined.

(** *** The encoder on any input *)

Lemma next_octet_cases input input_len i :
  (i < input_len /\ snd (next_octet input input_len i) = i + 1)
  \/ (input_len <= i /\ snd (next_octet input input_len i) = i).
Proof.
  unfold next_octet. destruct (Z.ltb_spec i input_len); [ left | right ];
    split; trivial.
Qed.

Lemma get_in_string (s : string) : forall n,
  (n < String.length s)%nat ->
  exists c, String.get n s = Some c /\ In c (list_ascii_of_string s).
Proof.
  induction s as [ | x s IH ]; intros n Hn; [ cbn in Hn; lia | ].
  destruct n as [ | n ].
  - exists x. split; [ reflexivity | now left ].
  - destruct (IH n) as (c & Hc & Hin); [ cbn in Hn; lia | ].
    exists c. split; [ exact Hc | now right ].
Qed.

(** Whatever the index computed from the triple, the character written
    belongs to the alphabet. *)
Lemma base64_char_in_alphabet x : In (base64_char (Z.land x 0x3F)) base64_alphabet.
Proof.
  change 0x3F with (Z.ones 6). rewrite Z.land_ones by lia.
  pose proof (Z.mod_pos_bound x (2 ^ 6) ltac:(lia)) as Hk.
  unfold base64_char, base64_alphabet.
  destruct (get_in_string base64_chars (Z.to_nat (x mod 2 ^ 6))) as (c & -> & Hin).
  - change (String.length base64_chars) with 64%nat. lia.
  - exact Hin.
Qed.

Lemma equals_sign_not_in_alphabet : ~ In "="%char base64_alphabet.
Proof.
  destruct (in_dec ascii_dec "="%char base64_alphabet) as [Hin | Hout] eqn:E;
    [ vm_compute in E; discriminate | exact Hout ].
Qed.

Lemma base64_loop_shape fuel : forall input input_len output_len i j output s,
  0 <= i <= input_len ->
  base64_loop fuel input input_len output_len i j output = Some s ->
  exists added,
    s = (output ++ added)%string
    /\ Forall (fun c => In c base64_alphabet) (list_ascii_of_string added)
    /\ strlen added mod 4 = 0
    /\ strlen added <= 4 * ((input_len - i + 2) / 3)
    /\ (added = EmptyString
        \/ j + strlen added <= (output_len - 4) mod 2 ^ 32 + 3).
Proof.
  induction fuel as [ | fuel IH ];
    intros input input_len output_len i j output s Hi Hloop; [ discriminate | ].
  cbn [base64_loop] in Hloop.
  destruct (Z.ltb_spec i input_len) as [Hlt | Hge]; cbn [andb] in Hloop.
  2: { injection Hloop as <-. exists EmptyString.
       rewrite append_nil_r. repeat split; try (now left); try constructor.
       change (strlen "") with 0. apply Z.mul_nonneg_nonneg; [ lia | ].
       apply Z.div_pos; lia. }
  destruct (Z.ltb_spec j ((output_len - 4) mod 2 ^ 32)) as [Hj | Hj].
  2: { injection Hloop as <-. exists EmptyString.
       rewrite append_nil_r. repeat split; try (now left); try constructor.
       change (strlen "") with 0. apply Z.mul_nonneg_nonneg; [ lia | ].
       apply Z.div_pos; lia. }
  pose proof (next_octet_cases input input_len i) as H1.
  destruct (next_octet input input_len i) as [octet_a i1]. cbn [snd] in H1.
  pose proof (next_octet_cases input input_len i1) as H2.
  destruct (next_octet input input_len i1) as [octet_b i2]. cbn [snd] in H2.
  pose proof (next_octet_cases input input_len i2) as H3.
  destruct (next_octet input input_len i2) as [octet_c i3]. cbn [snd] in H3.
  destruct (Z.gtb_spec i3 (input_len + 1)); [ lia | ].
  destruct (Z.gtb_spec i3 input_len); [ lia | ].
  apply IH in Hloop; [ | lia ].
  destruct Hloop as (added & -> & Halpha & Hmod & Hlen & Hroom).
  eexists. split; [ rewrite append_assoc; reflexivity | ].
  cbn [String.append list_ascii_of_string].
  split; [ repeat (apply Forall_cons; [ apply base64_char_in_alphabet | ]);
           exact Halpha | ].
  assert (Hadd : forall c0 c1 c2 c3,
             strlen (String c0 (String c1 (String c2 (String c3 added))))
             = 4 + strlen added)
    by (intros; unfold strlen; cbn [String.length]; lia).
  rewrite Hadd. pose proof (strlen_nonneg added) as Hnn.
  split; [ rewrite Z.add_comm, <- Z.add_mod_idemp_l, Hmod by lia;
           reflexivity | ].
  split.
  - assert (Hcases : i3 = i + 3 \/ (i3 = input_len /\ input_len < i + 3)) by lia.
    destruct Hcases as [-> | [-> Hshort]].
    + replace (input_len - i + 2) with ((input_len - (i + 3) + 2) + 1 * 3) by lia.
      rewrite Z.div_add by lia. lia.
    + replace (input_len - input_len + 2) with 2 in Hlen by lia.
      change (2 / 3) with 0 in Hlen.
      assert (1 <= (input_len - i + 2) / 3)
        by (apply Z.div_le_lower_bound; lia).
      lia.
  - right. destruct Hroom as [-> | Hroom]; [ change (strlen "") with 0 | ]; lia.
Qed.

(** The encoder returns, with at most four characters per started group
    of three input bytes. *)
Lemma base64_encode_length (input : string) (output_len : Z) :
  exists s,
    base64_encode input output_len = Some s
    /\ strlen s <= 4 * ((strlen input + 2) / 3).
Proof.
  destruct (base64_encode_total input output_len) as [s Hs].
  exists s. split; [ exact Hs | ].
  unfold base64_encode in Hs.
  apply base64_loop_shape in Hs; [ | pose proof (strlen_nonneg input); lia ].
  destruct Hs as (added & -> & _ & _ & Hlen & _).
  cbn [String.append]. rewrite Z.sub_0_r in Hlen. exact Hlen.
Qed.

(** X12. For every input and every array size the encoder returns.  Its output
    is made of characters of the 64-character alphabet only, so it never
    contains the padding character ['=']; its length is a multiple of four
    and at most four characters per started group of three input bytes; and
    for an array of 4 bytes or more the text and its terminator fit in the
    array. *)
Theorem base64_output_shape (input : string) (output_len : Z) :
  exists s,
    base64_encode input output_len = Some s
    /\ Forall (fun c => In c base64_alphabet) (list_ascii_of_string s)
    /\ ~ In "="%char (list_ascii_of_string s)
    /\ strlen s mod 4 = 0
    /\ strlen s <= 4 * ((strlen input + 2) / 3)
    /\ (4 <= output_len < 2 ^ 32 -> strlen s < output_len).
Proof.
  destruct (base64_encode_total input output_len) as [s Hs].
  exists s. split; [ exact Hs | ].
  unfold base64_encode in Hs.
  apply base64_loop_shape in Hs; [ | pose proof (strlen_nonneg input); lia ].
  destruct Hs as (added & -> & Halpha & Hmod & Hlen & Hroom).
  cbn [String.append]. rewrite Z.sub_0_r in Hlen.
  split; [ exact Halpha | ].
  split.
  { intros Hin. rewrite Forall_forall in Halpha.
    exact (equals_sign_not_in_alphabet (Halpha _ Hin)). }
  split; [ exact Hmod | ]. split; [ exact Hlen | ].
  intros Hout. rewrite Z.mod_small in Hroom by lia.
  destruct Hroom as [-> | Hroom]; [ change (strlen "") with 0 | ]; lia.
Qed.

(** *** The request sent to the caster *)

Lemma length_substring_le (s : string) : forall m,
  (String.length (String.substring 0 m s) <= m)%nat.
Proof.
  induction s as [ | c s IH ]; intros [ | m ]; cbn; try lia.
  specialize (IH m). lia.
Qed.

Lemma substring_whole (s : string) : forall m,
  (String.length s <= m)%nat -> String.substring 0 m s = s.
Proof.
  induction s as [ | c s IH ]; intros [ | m ] H; cbn in *; try reflexivity; try lia.
  rewrite IH by lia. reflexivity.
Qed.

Lemma length_c_string_le (s : string) :
  (String.length (c_string s) <= String.length s)%nat.
Proof.
  induction s as [ | c s IH ]; [ cbn; lia | ].
  cbn [c_string]. destruct (Ascii.eqb c zero); cbn [String.length]; lia.
Qed.

Lemma strlen_string c s : strlen (String c s) = 1 + strlen s.
Proof. unfold strlen. cbn [String.length]. lia. Qed.

Lemma strlen_zero_iff s : (strlen s >? 0) = false <-> s = EmptyString.
Proof.
  destruct s as [ | c s ]; [ split; reflexivity | ].
  split; [ | discriminate ].
  unfold strlen. cbn [String.length]. intros H.
  destruct (Z.gtb_spec (Z.of_nat (S (String.length s))) 0); [ discriminate | lia ].
Qed.

Lemma strlen_request_text cfg auth :
  strlen (request_text cfg auth)
  = 86 + strlen (NTRIP_MOUNTPOINT cfg) + strlen (NTRIP_HOST cfg)
    + match auth with Some b => 23 + strlen b | None => 0 end.
Proof.
  unfold request_text, CRLF. destruct auth as [b | ];
    repeat (rewrite strlen_append || rewrite strlen_string);
    change (strlen "") with 0;
    repeat match goal with
           | |- context [strlen ?s] =>
               lazymatch s with
               | String _ _ => rewrite (strlen_string _ _)
               end
           end;
    unfold strlen; cbn [String.length]; lia.
Qed.

(** X13. With a host name and mount point of at most 230 characters together,
    the request is never cut by the 512-byte array it is formatted into:
    the client sends the whole request text, its length is the length
    reported to [send] and at most 511, and the request carries the
    authorization header exactly when both a user and a password are
    configured. *)
Theorem request_never_truncated (cfg : config) :
  strlen (NTRIP_HOST cfg) + strlen (NTRIP_MOUNTPOINT cfg) <= 230 ->
  exists auth,
    build_request cfg
    = Some (request_text cfg auth, strlen (request_text cfg auth))
    /\ strlen (request_text cfg auth) <= 511
    /\ (auth = None <-> NTRIP_USER cfg = EmptyString \/ NTRIP_PASSWORD cfg = EmptyString).
Proof.
  intros Hsize. unfold build_request.
  pose proof (strlen_nonneg (NTRIP_HOST cfg)).
  pose proof (strlen_nonneg (NTRIP_MOUNTPOINT cfg)).
  assert (Hfit : forall auth,
             match auth with Some b => strlen b <= 172 | None => True end ->
             snprintf 512 (request_text cfg auth)
             = (request_text cfg auth, strlen (request_text cfg auth))
             /\ strlen (request_text cfg auth) <= 511).
  { intros auth Hauth.
    assert (Hl : strlen (request_text cfg auth) <= 511).
    { rewrite strlen_request_text. destruct auth; lia. }
    split; [ | exact Hl ].
    unfold snprintf. f_equal. apply substring_whole.
    unfold strlen in Hl. change (Z.to_nat (512 - 1)) with 511%nat. lia. }
  destruct (strlen (NTRIP_USER cfg) >? 0) eqn:Hu;
    [ destruct (strlen (NTRIP_PASSWORD cfg) >? 0) eqn:Hp | ]; cbn [andb].
  - unfold snprintf at 1.
    set (credentials := c_string (String.substring 0 (Z.to_nat (128 - 1)) _)).
    destruct (base64_encode_length credentials 256) as (b & -> & Hlen).
    assert (Hb : strlen b <= 172).
    { assert (Hc : strlen credentials <= 127).
      { unfold credentials, strlen.
        pose proof (length_c_string_le
                      (String.substring 0 (Z.to_nat (128 - 1))
                         (NTRIP_USER cfg ++ ":" ++ NTRIP_PASSWORD cfg))).
        pose proof (length_substring_le
                      (NTRIP_USER cfg ++ ":" ++ NTRIP_PASSWORD cfg)
                      (Z.to_nat (128 - 1))).
        change (Z.to_nat (128 - 1)) with 127%nat in *. lia. }
      assert ((strlen credentials + 2) / 3 <= 43)
        by (apply Z.div_le_upper_bound; lia).
      lia. }
    exists (Some b). destruct (Hfit (Some b) Hb) as [-> Hl].
    split; [ reflexivity | ]. split; [ exact Hl | ].
    split; [ discriminate | ].
    intros [E | E]; rewrite E in *; discriminate.
  - exists None. destruct (Hfit None I) as [-> Hl].
    split; [ reflexivity | ]. split; [ exact Hl | ].
    split; [ intros _; right; now apply strlen_zero_iff | reflexivity ].
  - exists None. destruct (Hfit None I) as [-> Hl].
    split; [ reflexivity | ]. split; [ exact Hl | ].
    split; [ intros _; left; now apply strlen_zero_iff | reflexivity ].
Qed.

Lemma request_never_truncated_witness :
  let cfg := {| NTRIP_HOST := "caster"; NTRIP_PORT := 2101;
                NTRIP_MOUNTPOINT := "BASE";
                NTRIP_USER := "user"; NTRIP_PASSWORD := "pass" |} in
  exists auth,
    build_request cfg
    = Some (request_text cfg auth, strlen (request_text cfg auth))
    /\ strlen (request_text cfg auth) <= 511
    /\ (auth = None <-> NTRIP_USER cfg = EmptyString \/ NTRIP_PASSWORD cfg = EmptyString).
Proof.
  intros cfg. apply (request_never_truncated cfg). vm_compute. discriminate.
Defined.

End NtripClientFacts.

(** ** Network selection *)

Module WifiFacts.
Import Wifi.

Lemma known_from_index nets : forall j s idx,
  known_from nets j s = Some idx -> j <= idx.
Proof.
  induction nets as [ | n nets IH ]; intros j s idx H; [ discriminate | ].
  cbn [known_from] in H. destruct (String.eqb s (net_ssid n)).
  - injection H as <-. lia.
  - apply IH in H. lia.
Qed.

Lemma known_network_index nets s idx :
  known_network nets s = Some idx -> 0 <= idx.
Proof. apply known_from_index. Qed.

Section Selection.
Variables (nets : list wifi_network_t) (threshold : Z).

Lemma invariant_floor seen best_idx best_rssi :
  loop_invariant nets threshold seen best_idx best_rssi -> RSSI_FLOOR <= best_rssi.
Proof.
  intros [(_ & -> & _) | (pre & ap & post & _ & ((_ & Hfloor) & _) & _ & ->)]; lia.
Qed.

Lemma invariant_bound seen best_idx best_rssi ap' :
  loop_invariant nets threshold seen best_idx best_rssi ->
  In ap' seen -> eligible nets threshold ap' -> rssi ap' <= best_rssi.
Proof.
  intros [(_ & _ & Hnone) | (pre & ap & post & -> & (Hel & Hpre & Hpost) & _ & ->)]
         Hin Hap.
  - now apply Hnone in Hin.
  - apply in_app_or in Hin. destruct Hin as [Hin | [<- | Hin]].
    + specialize (Hpre _ Hin Hap). lia.
    + lia.
    + now apply Hpost.
Qed.

(** The record [ap] leaves the best choice as it is. *)
Lemma invariant_keep seen best_idx best_rssi ap :
  loop_invariant nets threshold seen best_idx best_rssi ->
  (eligible nets threshold ap -> rssi ap <= best_rssi) ->
  loop_invariant nets threshold (seen ++ [ap]) best_idx best_rssi.
Proof.
  intros Hinv Hweak. pose proof (invariant_floor _ _ _ Hinv) as Hfloor.
  destruct Hinv as [(-> & -> & Hnone)
                   | (pre & b & post & -> & (Hel & Hpre & Hpost) & Hidx & ->)].
  - left. split; [ reflexivity | ]. split; [ reflexivity | ].
    intros ap' Hin. apply in_app_or in Hin.
    destruct Hin as [Hin | [<- | []]]; [ now apply Hnone | ].
    intros Hap. pose proof (Hweak Hap) as Hle. destruct Hap as (_ & Hgt). lia.
  - right. exists pre, b, (post ++ [ap]).
    rewrite <- app_assoc. split; [ reflexivity | ].
    split; [ | split; [ assumption | reflexivity ] ].
    split; [ assumption | ]. split; [ assumption | ].
    intros ap' Hin Hap'. apply in_app_or in Hin.
    destruct Hin as [Hin | [<- | []]]; [ now apply Hpost | now apply Hweak ].
Qed.

Lemma invariant_step seen best_idx best_rssi ap :
  loop_invariant nets threshold seen best_idx best_rssi ->
  let '(best_idx', best_rssi') :=
    best_from nets threshold [ap] best_idx best_rssi in
  loop_invariant nets threshold (seen ++ [ap]) best_idx' best_rssi'.
Proof.
  intros Hinv. pose proof (invariant_floor _ _ _ Hinv) as Hfloor.
  cbn [best_from].
  destruct (known_network nets (ssid ap)) as [network_idx | ] eqn:Hknown.
  - destruct (Z.gtb_spec (rssi ap) best_rssi) as [Hgt | Hle]; cbn [andb].
    + destruct (Z.geb_spec (rssi ap) threshold) as [Hth | Hth].
      * (* the record becomes the best one *)
        right. exists seen, ap, []. split; [ reflexivity | ].
        split; [ | split; [ assumption | reflexivity ] ].
        split; [ | split ].
        -- split; [ split | ]; [ rewrite Hknown; discriminate | lia | lia ].
        -- intros ap' Hin Hap'.
           pose proof (invariant_bound _ _ _ _ Hinv Hin Hap'). lia.
        -- intros ap' [].
      * (* too weak for the threshold *)
        apply invariant_keep; [ assumption | ].
        intros ((_ & Hc) & _). lia.
    + (* not stronger than the best so far *)
      apply invariant_keep; [ assumption | lia ].
  - (* not a known network *)
    apply invariant_keep; [ assumption | ].
    intros ((Hk & _) & _). now elim Hk.
Qed.

Lemma best_from_cons ap rest best_idx best_rssi :
  best_from nets threshold (ap :: rest) best_idx best_rssi
  = let '(i, r) := best_from nets threshold [ap] best_idx best_rssi in
    best_from nets threshold rest i r.
Proof.
  cbn [best_from]. destruct (known_network nets (ssid ap)); [ | reflexivity ].
  destruct (_ && _); reflexivity.
Qed.

Lemma invariant_loop rest : forall seen best_idx best_rssi,
  loop_invariant nets threshold seen best_idx best_rssi ->
  let '(best_idx', best_rssi') :=
    best_from nets threshold rest best_idx best_rssi in
  loop_invariant nets threshold (seen ++ rest) best_idx' best_rssi'.
Proof.
  induction rest as [ | ap rest IH ]; intros seen best_idx best_rssi Hinv.
  - cbn [best_from]. now rewrite app_nil_r.
  - rewrite best_from_cons.
    pose proof (invariant_step seen best_idx best_rssi ap Hinv) as Hstep.
    destruct (best_from nets threshold [ap] best_idx best_rssi) as [i r].
    specialize (IH (seen ++ [ap]) i r Hstep).
    rewrite <- app_assoc in IH. exact IH.
Qed.

End Selection.

(** C6, as amended.  For every table of known networks, every threshold
    and every list of scan records, [find_best_network] returns -1 exactly
    when no record is eligible, that is, matches a known network, meets the
    threshold and is stronger than -127 dBm; otherwise it returns the index
    of the known network matching the selected record: an eligible record
    at least as strong as every later eligible record and strictly stronger
    than every earlier one. *)
Theorem find_best_network_spec (nets : list wifi_network_t) (threshold : Z)
        (ap_records : list wifi_ap_record_t) :
  (find_best_network nets threshold ap_records = -1
   <-> forall ap, In ap ap_records -> ~ eligible nets threshold ap)
  /\ (forall idx,
        find_best_network nets threshold ap_records = idx -> idx <> -1 ->
        exists pre ap post,
          ap_records = pre ++ ap :: post
          /\ selected_eligible nets threshold pre ap post
          /\ known_network nets (ssid ap) = Some idx).
Proof.
  unfold find_best_network.
  assert (Hinit : loop_invariant nets threshold [] (-1) (-127)).
  { left. repeat split. intros ap []. }
  pose proof (invariant_loop nets threshold ap_records [] (-1) (-127) Hinit) as Hinv.
  destruct (best_from nets threshold ap_records (-1) (-127)) as [best_idx best_rssi].
  cbn [fst app] in *.
  destruct Hinv as [(-> & _ & Hnone)
                   | (pre & ap & post & -> & Hsel & Hidx & _)].
  - split; [ split; [ intros _; exact Hnone | reflexivity ] | ].
    intros idx <- Hne. now elim Hne.
  - pose proof (known_network_index _ _ _ Hidx) as Hpos. split.
    + split; [ lia | ].
      intros Hnone. exfalso. apply (Hnone ap); [ | apply Hsel ].
      apply in_or_app. right. now left.
    + intros idx <- _. exists pre, ap, post. repeat split; try assumption; apply Hsel.
Qed.

(** Above the sentinel every candidate is eligible: for such thresholds
    the selection is the one the specification describes. *)
Lemma eligible_candidate nets threshold ap :
  RSSI_FLOOR < threshold ->
  (eligible nets threshold ap <-> candidate nets threshold ap).
Proof.
  intros Hth. unfold eligible, candidate. split.
  - intros (Hc & _). exact Hc.
  - intros (Hk & Hr). repeat split; try assumption. lia.
Qed.

(** C6, as stated, fails.  With the threshold at -127 dBm a known network
    seen at -127 dBm matches a known profile and meets the threshold, and is
    the only such record, yet no network is returned: [best_rssi] starts at
    -127 and a record must be strictly stronger to replace it. *)
Lemma candidate_at_floor_not_selected :
  let nets := [ {| net_ssid := "A"; net_password := "secret" |} ] in
  let ap := {| ssid := "A"; rssi := -127 |} in
  candidate nets (-127) ap
  /\ selected nets (-127) [] ap []
  /\ find_best_network nets (-127) [ap] = -1.
Proof.
  cbv zeta. unfold selected, candidate. cbn.
  repeat split; try discriminate; try lia; intros ap' [].
Qed.

(** The example of the specification: A is chosen, the stronger but
    unknown B is not. *)
Example spec_scan_example :
  let nets := [ {| net_ssid := "A"; net_password := "a" |};
                {| net_ssid := "C"; net_password := "c" |} ] in
  find_best_network nets (-70)
    [ {| ssid := "A"; rssi := -45 |}; {| ssid := "B"; rssi := -30 |};
      {| ssid := "C"; rssi := -60 |} ] = 0.
Proof. reflexivity. Qed.

(** *** Reconnection attempts *)

(** A run of [n] disconnections, [n] not above the retry limit, met with a
    retry counter at [k]: each one triggers a reconnection attempt. *)
Lemma disconnections_retried limit : forall n st,
  0 <= s_retry_num st -> s_retry_num st + Z.of_nat n <= limit -> limit < 2 ^ 31 ->
  handle_all limit (repeat WIFI_EVENT_STA_DISCONNECTED n) st
  = (match n with
     | O => st
     | S _ => {| event_bits := event_bits st;
                 s_retry_num := s_retry_num st + Z.of_nat n;
                 s_connected := false;
                 s_current_network_idx := s_current_network_idx st;
                 s_connected_ssid := EmptyString |}
     end, repeat esp_wifi_connect n).
Proof.
  induction n as [ | n IH ]; intros st H0 Hn Hlim; [ reflexivity | ].
  cbn [repeat handle_all event_handler].
  cbn [s_retry_num event_bits s_connected s_current_network_idx s_connected_ssid].
  destruct (Z.ltb_spec (s_retry_num st) limit); [ | lia ].
  assert (Hw : to_int32 (s_retry_num st + 1) = s_retry_num st + 1).
  { unfold to_int32. rewrite Z.mod_small; lia. }
  rewrite Hw, IH; cbn [s_retry_num]; try lia.
  destruct n; cbn [app event_bits s_retry_num s_connected s_current_network_idx
                   s_connected_ssid];
    do 2 f_equal; lia.
Qed.

(** X14. The retry counter stays between 0 and the limit through every event;
    from a counter at 0, each of the first [WIFI_MAXIMUM_RETRY]
    disconnections in a row triggers one reconnection attempt, and the
    next one triggers none: it resets the counter and raises the failure
    bit that makes the manager task scan again. *)
Theorem retry_budget (limit : Z) (ev : wifi_event) (st : wifi_state) :
  0 <= limit < 2 ^ 31 ->
  0 <= s_retry_num st <= limit ->
  (0 <= s_retry_num (fst (event_handler limit ev st)) <= limit)
  /\ (s_retry_num st = 0 ->
      let '(st', calls) :=
        handle_all limit (repeat WIFI_EVENT_STA_DISCONNECTED (Z.to_nat limit + 1)) st in
      calls = repeat esp_wifi_connect (Z.to_nat limit)
      /\ s_retry_num st' = 0
      /\ Z.land (event_bits st') WIFI_FAIL_BIT = WIFI_FAIL_BIT
      /\ s_connected st' = false).
Proof.
  intros Hlim Hst. split.
  - destruct ev; cbn [event_handler fst s_retry_num xEventGroupSetBits]; try lia.
    destruct (Z.ltb_spec (s_retry_num st) limit);
      cbn [fst s_retry_num xEventGroupSetBits]; [ | lia ].
    unfold to_int32. rewrite Z.mod_small; lia.
  - intros Hzero.
    rewrite repeat_app. cbn [repeat].
    assert (Happ : forall a b s,
               handle_all limit (a ++ b) s
               = let '(s1, c1) := handle_all limit a s in
                 let '(s2, c2) := handle_all limit b s1 in (s2, c1 ++ c2)).
    { induction a as [ | e a IHa ]; intros b s.
      - cbn [app handle_all]. destruct (handle_all limit b s). reflexivity.
      - cbn [app handle_all]. destruct (event_handler limit e s) as [s' c].
        rewrite IHa. destruct (handle_all limit a s') as [s1 c1].
        destruct (handle_all limit b s1) as [s2 c2]. now rewrite app_assoc. }
    rewrite Happ, disconnections_retried by lia.
    cbn [handle_all event_handler].
    assert (Hfull : s_retry_num
                      (match Z.to_nat limit with
                       | O => st
                       | S _ => {| event_bits := event_bits st;
                                   s_retry_num := s_retry_num st + Z.of_nat (Z.to_nat limit);
                                   s_connected := false;
                                   s_current_network_idx := s_current_network_idx st;
                                   s_connected_ssid := EmptyString |}
                       end) = limit).
    { destruct (Z.to_nat limit) eqn:E; cbn [s_retry_num]; lia. }
    cbn [s_retry_num]. rewrite Hfull.
    destruct (Z.ltb_spec limit limit); [ lia | ].
    cbn [xEventGroupSetBits event_bits s_retry_num s_connected].
    rewrite app_nil_r. repeat split.
    unfold WIFI_FAIL_BIT. apply Z.bits_inj'. intros k Hk.
    rewrite Z.land_spec, Z.lor_spec.
    destruct (Z.testbit 2 k); [ now rewrite orb_true_r | now rewrite andb_false_r ].
Qed.

Lemma retry_budget_witness :
  (0 <= s_retry_num (fst (event_handler 5 WIFI_EVENT_STA_DISCONNECTED wifi_start)) <= 5)
  /\ (s_retry_num wifi_start = 0 ->
      let '(st', calls) :=
        handle_all 5 (repeat WIFI_EVENT_STA_DISCONNECTED (Z.to_nat 5 + 1)) wifi_start in
      calls = repeat esp_wifi_connect (Z.to_nat 5)
      /\ s_retry_num st' = 0
      /\ Z.land (event_bits st') WIFI_FAIL_BIT = WIFI_FAIL_BIT
      /\ s_connected st' = false).
Proof.
  apply (retry_budget 5 WIFI_EVENT_STA_DISCONNECTED wifi_start); cbn; lia.
Defined.

(** *** The network that is joined *)

Lemma known_from_nth nets : forall j s idx,
  0 <= j ->
  known_from nets j s = Some idx ->
  exists n, nth_error nets (Z.to_nat (idx - j)) = Some n /\ net_ssid n = s.
Proof.
  induction nets as [ | n nets IH ]; intros j s idx Hj Hk; [ discriminate | ].
  cbn [known_from] in Hk. destruct (String.eqb_spec s (net_ssid n)) as [E | E].
  - injection Hk as <-. exists n. rewrite Z.sub_diag. split; [ reflexivity | now symmetry ].
  - pose proof (known_from_index _ _ _ _ Hk) as Hle.
    destruct (IH (j + 1) s idx ltac:(lia) Hk) as (m & Hm & Hs).
    exists m. split; [ | exact Hs ].
    replace (Z.to_nat (idx - j)) with (S (Z.to_nat (idx - (j + 1)))) by lia.
    exact Hm.
Qed.

(** A choice other than -1 is the index of a profile whose SSID was seen
    in the scan at or above the threshold. *)
Lemma find_best_network_known nets threshold records idx :
  find_best_network nets threshold records = idx -> idx <> -1 ->
  exists n ap,
    nth_error nets (Z.to_nat idx) = Some n /\ 0 <= idx
    /\ In ap records /\ ssid ap = net_ssid n /\ threshold <= rssi ap.
Proof.
  intros Hfind Hne. unfold find_best_network in Hfind.
  pose proof (invariant_loop nets threshold records [] (-1) (-127)) as Hinv.
  destruct (best_from nets threshold records (-1) (-127)) as [bi br].
  cbn [fst] in Hfind. subst bi. cbn [app] in Hinv.
  destruct Hinv as [(Hidx & _) | (pre & ap & post & Hsplit & Hsel & Hknown & _)].
  - left. repeat split; try reflexivity. intros ap [].
  - contradiction.
  - destruct (known_from_nth nets 0 (ssid ap) idx ltac:(lia) Hknown) as (n & Hn & Hs).
    rewrite Z.sub_0_r in Hn.
    exists n, ap. split; [ exact Hn | ].
    split; [ exact (known_network_index _ _ _ Hknown) | ].
    split; [ rewrite Hsplit; apply in_or_app; right; now left | ].
    split; [ now symmetry | ].
    destruct Hsel as ((Hcand & _) & _). apply Hcand.
Qed.

(** X15. [wifi_scan_and_connect] only ever joins a configured network that the
    scan has just seen at or above the signal threshold.  When it calls
    [esp_wifi_connect], the station was configured with that profile's SSID
    and password (cut to the 31 and 63 characters the driver's fields
    hold), the profile is remembered as the current one, and the connected
    flag is left as it was; the SSID is reported by [wifi_get_ssid] from
    then on, before any connection is established.  Otherwise nothing but
    the scan-done bit changes. *)
Theorem joins_only_known_networks (nets : list wifi_network_t) (threshold : Z)
        (env : scan_env) (st : wifi_state) :
  let '(st', calls) := wifi_scan_and_connect nets threshold env st in
  wifi_is_connected st' = wifi_is_connected st
  /\ s_retry_num st' = s_retry_num st
  /\ (In esp_wifi_connect calls ->
      exists n ap,
        nth_error nets (Z.to_nat (s_current_network_idx st')) = Some n
        /\ In ap (scan_records env) /\ ssid ap = net_ssid n
        /\ threshold <= rssi ap
        /\ wifi_get_ssid st' = strncpy (net_ssid n) 32
        /\ calls = [esp_wifi_disconnect; esp_wifi_scan_start;
                    esp_wifi_set_config (strncpy (net_ssid n) 31)
                                        (strncpy (net_password n) 63);
                    esp_wifi_connect])
  /\ (~ In esp_wifi_connect calls ->
      calls = [esp_wifi_disconnect; esp_wifi_scan_start]
      /\ s_current_network_idx st' = s_current_network_idx st
      /\ wifi_get_ssid st' = wifi_get_ssid st).
Proof.
  unfold wifi_scan_and_connect, wifi_is_connected, wifi_get_ssid.
  assert (Hno : ~ In esp_wifi_connect [esp_wifi_disconnect; esp_wifi_scan_start])
    by (intros [H | [H | []]]; discriminate).
  destruct (negb (scan_start_ret env =? 0));
    [ cbn; repeat split; try reflexivity; intros H; now apply Hno in H | ].
  destruct (ap_num env =? 0);
    [ cbn; repeat split; try reflexivity; intros H; now apply Hno in H | ].
  destruct (negb (malloc_ok env));
    [ cbn; repeat split; try reflexivity; intros H; now apply Hno in H | ].
  destruct (Z.ltb_spec (find_best_network nets threshold (scan_records env)) 0)
    as [Hneg | Hpos];
    [ cbn; repeat split; try reflexivity; intros H; now apply Hno in H | ].
  destruct (find_best_network_known nets threshold (scan_records env) _ eq_refl)
    as (n & ap & Hn & _ & Hin & Hs & Hr); [ lia | ].
  cbn [s_connected s_retry_num s_current_network_idx s_connected_ssid
       xEventGroupClearBits app].
  split; [ reflexivity | ]. split; [ reflexivity | ].
  split.
  - intros _. exists n, ap.
    rewrite (nth_error_nth _ _ _ Hn).
    repeat split; try assumption; reflexivity.
  - intros Hnot. exfalso. apply Hnot. cbn. tauto.
Qed.

End WifiFacts.

(** ** Fuel gauge *)

Module BatteryFacts.
Import Battery.

Lemma be16_value d0 d1 :
  byte_ok d0 -> byte_ok d1 -> Z.lor (Z.shiftl d0 8) d1 = 256 * d0 + d1.
Proof.
  unfold byte_ok. intros H0 H1.
  rewrite Z.lor_comm, lor_shiftl_add by lia. lia.
Qed.

(** X16. The charge level reported after [battery_init]: -1 unless the gauge
    is enabled, answered at initialisation (or was initialised before) and
    answers now; otherwise the whole percent of the state of charge, the
    fraction in the low byte dropped, and never more than 100. *)
Theorem battery_percentage_spec (use_gauge initialized : bool)
        (version soc : reg_reply) :
  byte_ok (data0 soc) -> byte_ok (data1 soc) ->
  let '(ret, initialized') := battery_init use_gauge version initialized in
  let pct := battery_get_percentage initialized' soc in
  (initialized' = true
   <-> initialized = true \/ (use_gauge = true /\ cmd_ret version = ESP_OK))
  /\ (ret = ESP_OK <-> use_gauge = false \/ cmd_ret version = ESP_OK)
  /\ (initialized' = false \/ cmd_ret soc <> ESP_OK -> pct = -1)
  /\ (initialized' = true -> cmd_ret soc = ESP_OK ->
      pct = Z.min (data0 soc) 100 /\ 0 <= pct <= 100).
Proof.
  intros H0 H1. unfold battery_init, battery_get_percentage, max17048_read_reg, ESP_OK.
  assert (Hsoc : Z.shiftr (Z.lor (Z.shiftl (data0 soc) 8) (data1 soc)) 8 = data0 soc).
  { rewrite be16_value by assumption. rewrite Z.shiftr_div_pow2 by lia.
    unfold byte_ok in *. change (2 ^ 8) with 256.
    symmetry. apply (Z.div_unique _ 256 _ (data1 soc)); lia. }
  unfold byte_ok in *.
  destruct use_gauge, initialized; cbn [negb];
    destruct (Z.eqb_spec (cmd_ret version) 0) as [Hv | Hv]; cbn [negb];
    destruct (Z.eqb_spec (cmd_ret soc) 0) as [Hs | Hs];
    cbv beta iota; try rewrite Hsoc;
    repeat split; intros;
    repeat match goal with
           | H : _ \/ _ |- _ => destruct H
           | H : _ /\ _ |- _ => destruct H
           end;
    try discriminate; try reflexivity; try congruence; try lia;
    try (destruct (Z.gtb_spec (data0 soc) 100);
         [ destruct (Z.ltb_spec 100 0) | destruct (Z.ltb_spec (data0 soc) 0) ]; lia);
    try (left; reflexivity); try (right; auto; fail); auto.
Qed.

Lemma battery_percentage_spec_witness :
  let version := {| cmd_ret := 0; data0 := 0; data1 := 0x12 |} in
  let soc := {| cmd_ret := 0; data0 := 87; data1 := 200 |} in
  let '(ret, initialized') := battery_init true version false in
  let pct := battery_get_percentage initialized' soc in
  (initialized' = true
   <-> false = true \/ (true = true /\ cmd_ret version = ESP_OK))
  /\ (ret = ESP_OK <-> true = false \/ cmd_ret version = ESP_OK)
  /\ (initialized' = false \/ cmd_ret soc <> ESP_OK -> pct = -1)
  /\ (initialized' = true -> cmd_ret soc = ESP_OK ->
      pct = Z.min (data0 soc) 100 /\ 0 <= pct <= 100).
Proof.
  intros version soc.
  apply (battery_percentage_spec true false version soc); unfold byte_ok; cbn; lia.
Defined.

Lemma voltage_of_accurate n :
  0 <= n < 4096 ->
  Ieee.within (voltage_of n) (n * 125 # 100000) (1 # 1000000) = true
  /\ Ieee.within (voltage_of n) (256 # 100) (256 # 100) = true.
Proof.
  intros Hn.
  assert (Hall : forallb (fun k =>
                    Ieee.within (voltage_of (Z.of_nat k))
                                (Z.of_nat k * 125 # 100000) (1 # 1000000)
                    && Ieee.within (voltage_of (Z.of_nat k)) (256 # 100) (256 # 100))
                  (seq 0 4096) = true) by (vm_compute; reflexivity).
  rewrite forallb_forall in Hall.
  specialize (Hall (Z.to_nat n)). rewrite Z2Nat.id in Hall by lia.
  apply andb_prop. apply Hall. apply in_seq. lia.
Qed.

(** X17. Once initialised and with the gauge answering, the voltage returned
    is the 12-bit cell reading (the upper twelve bits of the register)
    times 1.25 mV, in volts: within a microvolt of that value, and between
    0 V and 5.12 V.  Without initialisation or answer it is [0.0f]. *)
Theorem battery_voltage_spec (initialized : bool) (vcell : reg_reply) :
  byte_ok (data0 vcell) -> byte_ok (data1 vcell) ->
  let v := battery_get_voltage initialized vcell in
  let reading := (256 * data0 vcell + data1 vcell) / 16 in
  (initialized = true -> cmd_ret vcell = ESP_OK ->
   Ieee.within v (reading * 125 # 100000) (1 # 1000000) = true
   /\ Ieee.within v (256 # 100) (256 # 100) = true)
  /\ (initialized = false \/ cmd_ret vcell <> ESP_OK -> v = Float32.f_0).
Proof.
  intros H0 H1. unfold battery_get_voltage, max17048_read_reg, ESP_OK.
  assert (Hr : 0 <= (256 * data0 vcell + data1 vcell) / 16 < 4096).
  { unfold byte_ok in *. split; [ apply Z.div_pos; lia | ].
    apply Z.div_lt_upper_bound; lia. }
  split.
  - intros -> Hok. cbn [negb]. rewrite Hok. cbn [Z.eqb]. cbv beta iota.
    rewrite be16_value by assumption.
    rewrite Z.shiftr_div_pow2 by lia. change (2 ^ 4) with 16.
    apply (voltage_of_accurate _ Hr).
  - intros [-> | Hbad]; [ reflexivity | ].
    destruct initialized; [ cbn [negb] | reflexivity ].
    destruct (Z.eqb_spec (cmd_ret vcell) 0); [ contradiction | reflexivity ].
Qed.

Lemma battery_voltage_spec_witness :
  let vcell := {| cmd_ret := 0; data0 := 0xC8; data1 := 0x30 |} in
  let v := battery_get_voltage true vcell in
  let reading := (256 * data0 vcell + data1 vcell) / 16 in
  (true = true -> cmd_ret vcell = ESP_OK ->
   Ieee.within v (reading * 125 # 100000) (1 # 1000000) = true
   /\ Ieee.within v (256 # 100) (256 # 100) = true)
  /\ (true = false \/ cmd_ret vcell <> ESP_OK -> v = Float32.f_0).
Proof.
  intros vcell.
  apply (battery_voltage_spec true vcell); unfold byte_ok; cbn; lia.
Defined.

End BatteryFacts.

(** ** Status light *)

Module LedFacts.
Import Led.

(** *** The frame sent to the LED *)

Lemma encode_bits_decoded byte :
  byte_ok byte ->
  decode_byte (encode_bits byte 8) = byte
  /\ Forall (fun s => level0 s = 1 /\ level1 s = 0 /\ duration0 s + duration1 s = 12)
            (encode_bits byte 8).
Proof.
  unfold byte_ok. intros Hb.
  assert (Hall : forallb (fun k =>
                   (decode_byte (encode_bits (Z.of_nat k) 8) =? Z.of_nat k)
                   && forallb (fun s => (level0 s =? 1) && (level1 s =? 0)
                                        && (duration0 s + duration1 s =? 12))
                              (encode_bits (Z.of_nat k) 8))
                 (seq 0 256) = true) by (vm_compute; reflexivity).
  rewrite forallb_forall in Hall.
  specialize (Hall (Z.to_nat byte)). rewrite Z2Nat.id in Hall by lia.
  destruct (andb_prop _ _ (Hall ltac:(apply in_seq; lia))) as [Hd Hs].
  split; [ now apply Z.eqb_eq | ].
  apply Forall_forall. intros s Hin. rewrite forallb_forall in Hs.
  specialize (Hs s Hin).
  apply andb_prop in Hs. destruct Hs as [Hs H3].
  apply andb_prop in Hs. destruct Hs as [H1 H2].
  apply Z.eqb_eq in H1, H2, H3. auto.
Qed.

(** X18. With the channel set up, [led_set_rgb] hands one frame of 24 symbols
    to the transmitter; read back the way the LED reads it (most
    significant bit first, a long high phase for a 1), it carries the three
    bytes in the order green, red, blue.  Every symbol is a high phase
    followed by a low phase, 1.2 microseconds together.  The colour is
    remembered in the module's state. *)
Theorem led_frame_round_trip (r g b : Z) (st : led_state) :
  byte_ok r -> byte_ok g -> byte_ok b -> led_channel st = true ->
  let '(st', sent) := led_set_rgb r g b st in
  exists frame,
    sent = [frame] /\ length frame = 24%nat
    /\ decode_grb frame = (g, r, b)
    /\ Forall (fun s => level0 s = 1 /\ level1 s = 0
                        /\ duration0 s + duration1 s = 12) frame
    /\ (current_r st', current_g st', current_b st') = (r, g, b).
Proof.
  intros Hr Hg Hb Hch. unfold led_set_rgb. rewrite Hch. cbn [negb].
  exists (encode_bytes [g; r; b]).
  destruct (encode_bits_decoded r Hr) as [Dr Fr].
  destruct (encode_bits_decoded g Hg) as [Dg Fg].
  destruct (encode_bits_decoded b Hb) as [Db Fb].
  split; [ reflexivity | ]. split; [ reflexivity | ].
  split.
  - unfold decode_grb.
    change (firstn 8 (encode_bytes [g; r; b])) with (encode_bits g 8).
    change (firstn 8 (skipn 8 (encode_bytes [g; r; b]))) with (encode_bits r 8).
    change (firstn 8 (skipn 16 (encode_bytes [g; r; b]))) with (encode_bits b 8).
    now rewrite Dr, Dg, Db.
  - split; [ | reflexivity ].
    unfold encode_bytes. cbn [flat_map].
    repeat (apply Forall_app; split); try assumption. constructor.
Qed.

Lemma led_frame_round_trip_witness :
  let st := {| led_channel := true; current_r := 0; current_g := 0;
               current_b := 0; pulse_phase := 0; increasing := true |} in
  let '(st', sent) := led_set_rgb 30 0 50 st in
  exists frame,
    sent = [frame] /\ length frame = 24%nat
    /\ decode_grb frame = (0, 30, 50)
    /\ Forall (fun s => level0 s = 1 /\ level1 s = 0
                        /\ duration0 s + duration1 s = 12) frame
    /\ (current_r st', current_g st', current_b st') = (30, 0, 50).
Proof.
  intros st.
  apply (led_frame_round_trip 30 0 50 st); unfold byte_ok; try lia. reflexivity.
Defined.

(** *** Pulsing *)

(** The phases the pulse goes through. *)
Lemma phase_values p :
  0 <= p <= 100 -> p mod 5 = 0 ->
  In p [0; 5; 10; 15; 20; 25; 30; 35; 40; 45; 50; 55; 60; 65; 70; 75; 80; 85;
        90; 95; 100].
Proof.
  intros Hp Hm.
  pose proof (Z.div_mod p 5 ltac:(lia)) as Hd. rewrite Hm, Z.add_0_r in Hd.
  assert (Hq : 0 <= p / 5 <= 20) by lia.
  remember (p / 5) as q eqn:Eq. clear Eq Hm Hp. subst p.
  assert (Hcases : q = 0 \/ q = 1 \/ q = 2 \/ q = 3 \/ q = 4 \/ q = 5 \/ q = 6
                   \/ q = 7 \/ q = 8 \/ q = 9 \/ q = 10 \/ q = 11 \/ q = 12
                   \/ q = 13 \/ q = 14 \/ q = 15 \/ q = 16 \/ q = 17 \/ q = 18
                   \/ q = 19 \/ q = 20) by lia.
  repeat (destruct Hcases as [-> | Hcases]; [ cbn; tauto | ]).
  subst q. cbn. tauto.
Qed.

(** A base component dimmed by the factor of any phase stays between a
    fifth of the component (rounded down) and the component itself, which
    it reaches at phase 100. *)
Lemma scaled_bounded p base :
  0 <= p <= 100 -> p mod 5 = 0 ->
  In base [0; 25; 30; 40; 50] ->
  base / 5 <= scaled base (pulse_factor p) <= base
  /\ (p = 100 -> scaled base (pulse_factor p) = base)
  /\ (p = 0 -> scaled base (pulse_factor p) = base / 5).
Proof.
  intros Hp Hm Hbase. apply phase_values in Hm; [ | exact Hp ].
  assert (Hall : forallb (fun p =>
                   forallb (fun base =>
                     (base / 5 <=? scaled base (pulse_factor p))
                     && (scaled base (pulse_factor p) <=? base)
                     && (negb (p =? 100) || (scaled base (pulse_factor p) =? base))
                     && (negb (p =? 0) || (scaled base (pulse_factor p) =? base / 5)))
                     [0; 25; 30; 40; 50])
                 [0; 5; 10; 15; 20; 25; 30; 35; 40; 45; 50; 55; 60; 65; 70; 75;
                  80; 85; 90; 95; 100] = true) by (vm_compute; reflexivity).
  rewrite forallb_forall in Hall. specialize (Hall p Hm).
  rewrite forallb_forall in Hall. specialize (Hall base Hbase).
  apply andb_prop in Hall. destruct Hall as [Hall H0].
  apply andb_prop in Hall. destruct Hall as [Hall H100].
  apply andb_prop in Hall. destruct Hall as [Hlo Hhi].
  apply Z.leb_le in Hlo, Hhi.
  split; [ lia | ]. split.
  - intros ->. cbn [Z.eqb negb orb] in H100. now apply Z.eqb_eq.
  - intros ->. cbn [Z.eqb negb orb] in H0. now apply Z.eqb_eq.
Qed.

Lemma pulse_base_components color :
  let '(r, g, b) := pulse_base color in
  In r [0; 25; 30; 40; 50] /\ In g [0; 25; 30; 40; 50] /\ In b [0; 25; 30; 40; 50].
Proof. destruct color; cbn; tauto. Qed.

Lemma pulse_step_ok p inc :
  0 <= p <= 100 -> p mod 5 = 0 ->
  (p = 0 -> inc = true) -> (p = 100 -> inc = false) ->
  let '(p', inc') := pulse_step p inc in
  0 <= p' <= 100 /\ p' mod 5 = 0
  /\ (p' = 0 -> inc' = true) /\ (p' = 100 -> inc' = false).
Proof.
  intros Hp Hm H0 H100. unfold pulse_step.
  pose proof (Z.div_mod p 5 ltac:(lia)) as Hd. rewrite Hm, Z.add_0_r in Hd.
  destruct inc.
  - assert (p <> 100) by (intros E; specialize (H100 E); discriminate).
    destruct (Z.geb_spec (p + 5) 100); repeat split; intros; try lia;
      try reflexivity;
      (replace (p + 5) with (0 + (p / 5 + 1) * 5) by lia;
       rewrite Z.mod_add by lia; reflexivity).
  - assert (p <> 0) by (intros E; specialize (H0 E); discriminate).
    destruct (Z.leb_spec (p - 5) 0); repeat split; intros; try lia;
      try reflexivity;
      (replace (p - 5) with (0 + (p / 5 - 1) * 5) by lia;
       rewrite Z.mod_add by lia; reflexivity).
Qed.

(** The two locals of [led_pulse] after a call depend on nothing but
    their values before it. *)
Lemma led_pulse_phase color st :
  (pulse_phase (fst (led_pulse color st)), increasing (fst (led_pulse color st)))
  = pulse_step (pulse_phase st) (increasing st).
Proof.
  unfold led_pulse, led_set_rgb. destruct (pulse_base color) as [[r g] b].
  destruct (led_channel st); cbn [negb pulse_phase increasing];
    destruct (pulse_step _ _); reflexivity.
Qed.

Lemma pulses_phase n : forall color st,
  (pulse_phase (pulses n color st), increasing (pulses n color st))
  = Nat.iter n (fun s => pulse_step (fst s) (snd s))
             (pulse_phase st, increasing st).
Proof.
  induction n as [ | n IH ]; intros color st; [ reflexivity | ].
  cbn [pulses]. rewrite IH, led_pulse_phase.
  rewrite Nat.iter_succ_r. reflexivity.
Qed.

(** Forty steps bring the two locals back to their values. *)
Lemma pulse_period p inc :
  0 <= p <= 100 -> p mod 5 = 0 ->
  (p = 0 -> inc = true) -> (p = 100 -> inc = false) ->
  Nat.iter 40 (fun s => pulse_step (fst s) (snd s)) (p, inc) = (p, inc).
Proof.
  intros Hp Hm H0 H100. apply phase_values in Hm; [ | exact Hp ].
  destruct inc;
    repeat (destruct Hm as [<- | Hm];
            [ first [ reflexivity
                    | specialize (H0 eq_refl); discriminate
                    | specialize (H100 eq_refl); discriminate ] | ]);
    destruct Hm.
Qed.

(** X19. Starting from the values the phase can take, [led_pulse] keeps the
    phase a multiple of 5 between 0 and 100 and, with the channel set up,
    sends the base colour dimmed: each component between a fifth of the
    base component and the base component itself, never above 50, the full
    base colour at phase 100.  Forty calls bring the phase back to where it
    was. *)
Theorem led_pulse_breathes (color : led_color_t) (st : led_state) :
  phase_ok st ->
  let st' := fst (led_pulse color st) in
  let '(base_r, base_g, base_b) := pulse_base color in
  phase_ok st'
  /\ (led_channel st = true ->
      base_r / 5 <= current_r st' <= base_r
      /\ base_g / 5 <= current_g st' <= base_g
      /\ base_b / 5 <= current_b st' <= base_b
      /\ current_r st' <= 50 /\ current_g st' <= 50 /\ current_b st' <= 50
      /\ (pulse_phase st = 100 ->
          (current_r st', current_g st', current_b st') = (base_r, base_g, base_b)))
  /\ pulse_phase (pulses 40 color st) = pulse_phase st
  /\ increasing (pulses 40 color st) = increasing st.
Proof.
  intros (Hp & Hm & H0 & H100).
  pose proof (pulse_base_components color) as Hbase.
  pose proof (led_pulse_phase color st) as Hphase.
  pose proof (pulse_step_ok _ _ Hp Hm H0 H100) as Hstep.
  pose proof (pulses_phase 40 color st) as Hperiod.
  unfold led_pulse, led_set_rgb in *.
  destruct (pulse_base color) as [[base_r base_g] base_b].
  destruct Hbase as (Hr & Hg & Hb).
  destruct (scaled_bounded _ base_r Hp Hm Hr) as (Br & Fr & _).
  destruct (scaled_bounded _ base_g Hp Hm Hg) as (Bg & Fg & _).
  destruct (scaled_bounded _ base_b Hp Hm Hb) as (Bb & Fb & _).
  assert (Hr50 : base_r <= 50) by (cbn in Hr; lia).
  assert (Hg50 : base_g <= 50) by (cbn in Hg; lia).
  assert (Hb50 : base_b <= 50) by (cbn in Hb; lia).
  split; [ | split ].
  - unfold phase_ok.
    destruct (led_channel st); cbn [negb pulse_phase increasing fst] in *;
      destruct (pulse_step _ _) as [p' inc']; cbn [fst pulse_phase increasing];
      exact Hstep.
  - intros Hch. rewrite Hch. cbn [negb].
    destruct (pulse_step _ _) as [p' inc'].
    cbn [fst current_r current_g current_b].
    repeat split; try lia.
    intros E. rewrite (Fr E), (Fg E), (Fb E). reflexivity.
  - rewrite (pulse_period _ _ Hp Hm H0 H100) in Hperiod. now injection Hperiod.
Qed.

Lemma led_pulse_breathes_witness :
  let st := {| led_channel := true; current_r := 0; current_g := 0;
               current_b := 0; pulse_phase := 100; increasing := false |} in
  let st' := fst (led_pulse LED_PURPLE st) in
  phase_ok st'
  /\ (led_channel st = true ->
      30 / 5 <= current_r st' <= 30
      /\ 0 / 5 <= current_g st' <= 0
      /\ 50 / 5 <= current_b st' <= 50
      /\ current_r st' <= 50 /\ current_g st' <= 50 /\ current_b st' <= 50
      /\ (pulse_phase st = 100 ->
          (current_r st', current_g st', current_b st') = (30, 0, 50)))
  /\ pulse_phase (pulses 40 LED_PURPLE st) = pulse_phase st
  /\ increasing (pulses 40 LED_PURPLE st) = increasing st.
Proof.
  intros st. apply (led_pulse_breathes LED_PURPLE st).
  unfold phase_ok. cbn. repeat split; try lia; intros; try discriminate; reflexivity.
Defined.

End LedFacts.

(** ** Firmware update check *)

Module OtaUpdateFacts.
Import OtaUpdate.
Import NtripClient NtripClientFacts.

(** *** Trimming *)

Lemma strip_end_solid s : ends_solid s = true -> strip_end s = s.
Proof.
  induction s as [ | c s IH ]; intros H; [ reflexivity | ].
  cbn [strip_end]. destruct s as [ | d s ].
  - cbn in *. destruct (is_trim_space c); [ discriminate | reflexivity ].
  - change (ends_solid (String c (String d s))) with (ends_solid (String d s)) in H.
    rewrite (IH H). reflexivity.
Qed.

Lemma strip_end_spaces post : all_trim_space post -> strip_end post = EmptyString.
Proof.
  unfold all_trim_space. induction post as [ | c post IH ]; intros H; [ reflexivity | ].
  cbn [list_ascii_of_string] in H. inversion H as [ | ? ? Hc Hpost ]; subst.
  cbn [strip_end]. rewrite (IH Hpost), Hc. reflexivity.
Qed.

Lemma strip_end_app s post :
  all_trim_space post -> s <> EmptyString -> ends_solid s = true ->
  strip_end (s ++ post) = s.
Proof.
  intros Hpost. induction s as [ | c s IH ]; intros Hne H; [ contradiction | ].
  cbn [String.append strip_end]. destruct s as [ | d s ].
  - cbn [String.append]. rewrite (strip_end_spaces _ Hpost).
    cbn in H. destruct (is_trim_space c); [ discriminate | reflexivity ].
  - change (ends_solid (String c (String d s))) with (ends_solid (String d s)) in H.
    rewrite IH; [ reflexivity | discriminate | exact H ].
Qed.

Lemma skip_leading_app pre c rest :
  all_trim_space pre -> is_trim_space c = false ->
  skip_leading (pre ++ String c rest) = String c rest.
Proof.
  unfold all_trim_space. induction pre as [ | x pre IH ]; intros Hpre Hc.
  - cbn. now rewrite Hc.
  - cbn [list_ascii_of_string] in Hpre. inversion Hpre as [ | ? ? Hx Hrest ]; subst.
    cbn [String.append skip_leading]. rewrite Hx. now apply IH.
Qed.

Lemma trim_core pre post c rest :
  all_trim_space pre -> all_trim_space post ->
  is_trim_space c = false -> ends_solid (String c rest) = true ->
  trim (pre ++ String c rest ++ post) = String c rest.
Proof.
  intros Hp Hq Hc Hend. unfold trim. cbn [String.append].
  rewrite skip_leading_app by assumption.
  destruct rest as [ | d rest ].
  - cbn [String.append]. now rewrite (strip_end_spaces _ Hq).
  - change (ends_solid (String c (String d rest))) with (ends_solid (String d rest))
      in Hend.
    rewrite strip_end_app; [ reflexivity | assumption | discriminate | exact Hend ].
Qed.

(** X20. The two loops remove the blanks, line feeds and carriage returns
    around the text, and nothing else: a text that begins and ends with
    other characters comes out as it is, whatever such white space
    surrounds it, and white space alone gives the empty text. *)
Theorem trim_removes_surrounding_space (pre post : string) (c : ascii) (rest : string) :
  all_trim_space pre -> all_trim_space post ->
  is_trim_space c = false -> ends_solid (String c rest) = true ->
  trim (pre ++ String c rest ++ post) = String c rest
  /\ trim (String c rest) = String c rest
  /\ trim (pre ++ post) = EmptyString.
Proof.
  intros Hpre Hpost Hc Hend.
  split; [ now apply trim_core | ]. split.
  - pose proof (trim_core EmptyString EmptyString c rest
                          (Forall_nil _) (Forall_nil _) Hc Hend) as Hcore.
    cbn [String.append] in Hcore. now rewrite append_nil_r in Hcore.
  - unfold trim.
    assert (Hall : all_trim_space (pre ++ post)).
    { unfold all_trim_space in *. rewrite list_ascii_of_append.
      apply Forall_app. now split. }
    assert (Hskip : forall s, all_trim_space s -> skip_leading s = EmptyString).
    { unfold all_trim_space. induction s as [ | x s IH ]; intros H; [ reflexivity | ].
      cbn [list_ascii_of_string] in H. inversion H as [ | ? ? Hx Hs ]; subst.
      cbn [skip_leading]. rewrite Hx. now apply IH. }
    now rewrite (Hskip _ Hall).
Qed.

Lemma trim_removes_surrounding_space_witness :
  trim (String "010"%char " " ++ "1.2.3" ++ String "013"%char (String "010"%char "")) = "1.2.3"%string
  /\ trim "1.2.3" = "1.2.3"%string
  /\ trim (String "010"%char " " ++ String "013"%char (String "010"%char "")) = EmptyString.
Proof.
  apply (trim_removes_surrounding_space
           (String "010"%char " ") (String "013"%char (String "010"%char ""))
           "1"%char ".2.3");
    try reflexivity; repeat constructor.
Defined.

(** *** Reading numbers *)

Lemma scan_digits_app ds : forall rest acc,
  Forall (fun c => isdigit c = true) (list_ascii_of_string ds) ->
  no_digit_head rest ->
  scan_digits (ds ++ rest) acc = (fst (scan_digits ds acc), rest).
Proof.
  induction ds as [ | c ds IH ]; intros rest acc Hds Hrest.
  - cbn [String.append]. destruct rest as [ | x rest ]; [ reflexivity | ].
    cbn in Hrest. cbn [scan_digits]. now rewrite Hrest.
  - cbn [list_ascii_of_string] in Hds. inversion Hds as [ | ? ? Hc Hrest' ]; subst.
    cbn [String.append scan_digits]. rewrite Hc. now apply IH.
Qed.

Lemma digit_is_plain c :
  isdigit c = true ->
  isspace c = false /\ Ascii.eqb c "-"%char = false /\ Ascii.eqb c "+"%char = false
  /\ Ascii.eqb c "."%char = false /\ is_trim_space c = false
  /\ Ascii.eqb c zero = false.
Proof.
  unfold isdigit, isspace, is_trim_space. intros H.
  apply andb_prop in H. destruct H as [Hlo Hhi]. apply Z.leb_le in Hlo, Hhi.
  assert (Hne : forall d, (code d < 48 \/ 57 < code d) -> Ascii.eqb c d = false).
  { intros d Hd. destruct (Ascii.eqb_spec c d) as [-> | ]; [ lia | reflexivity ]. }
  rewrite !Hne by (vm_compute; intuition congruence).
  repeat split.
  destruct (Z.eqb_spec (code c) 32); [ lia | ].
  destruct (Z.leb_spec 9 (code c)); destruct (Z.leb_spec (code c) 13);
    try reflexivity; lia.
Qed.

(** [%d] on a numeral followed by something that is not a digit. *)
Lemma scan_d_numeral ds rest :
  numeral ds -> no_digit_head rest ->
  scan_d (ds ++ rest) = Some (value ds, rest).
Proof.
  intros [Hne Hds] Hrest. destruct ds as [ | c ds ]; [ contradiction | ].
  pose proof Hds as Hall.
  cbn [list_ascii_of_string] in Hds. inversion Hds as [ | ? ? Hc _ ]; subst.
  destruct (digit_is_plain c Hc) as (Hs & Hm & Hp & _).
  unfold scan_d. cbn [String.append skip_space]. rewrite Hs, Hm, Hp, Hc.
  change (String c (ds ++ rest)) with (String c ds ++ rest)%string.
  rewrite scan_digits_app by assumption. reflexivity.
Qed.

Lemma dot_no_digit s : no_digit_head (String "."%char s).
Proof. reflexivity. Qed.

Lemma expect_dot_dot s : expect_dot (String "."%char s) = Some s.
Proof. reflexivity. Qed.

(** The three numbers of a well-formed version text are read whatever the
    variables held before. *)
Lemma sscanf_version_text major minor patch tail before :
  numeral major -> numeral minor -> numeral patch -> no_digit_head tail ->
  sscanf_version (version_text major minor patch ++ tail) before
  = (value major, value minor, value patch).
Proof.
  intros H1 H2 H3 Ht. unfold sscanf_version, version_text.
  destruct before as [[a b] c].
  rewrite !append_assoc. cbn [String.append].
  rewrite (scan_d_numeral major _ H1 (dot_no_digit _)), expect_dot_dot.
  rewrite (scan_d_numeral minor _ H2 (dot_no_digit _)), expect_dot_dot.
  rewrite (scan_d_numeral patch _ H3 Ht). reflexivity.
Qed.

Lemma value_nonneg ds : 0 <= value ds.
Proof.
  unfold value. assert (H : forall acc, 0 <= acc -> 0 <= fst (scan_digits ds acc)).
  { induction ds as [ | c ds IH ]; intros acc Hacc; [ exact Hacc | ].
    cbn [scan_digits]. destruct (isdigit c) eqn:Hc; [ | exact Hacc ].
    apply IH. unfold isdigit in Hc. apply andb_prop in Hc.
    destruct Hc as [Hlo _]. apply Z.leb_le in Hlo. lia. }
  apply H. lia.
Qed.

(** *** [compare_versions] *)

Lemma compare_versions_text stack1 stack2 a1 a2 a3 b1 b2 b3 tail1 tail2 :
  well_formed a1 a2 a3 -> well_formed b1 b2 b3 ->
  no_digit_head tail1 -> no_digit_head tail2 ->
  compare_versions stack1 stack2 (version_text a1 a2 a3 ++ tail1)
                   (version_text b1 b2 b3 ++ tail2)
  = Some (difference (value a1, value a2, value a3) (value b1, value b2, value b3)).
Proof.
  intros (Ha1 & Ha2 & Ha3 & La1 & La2 & La3) (Hb1 & Hb2 & Hb3 & Lb1 & Lb2 & Lb3) Ht1 Ht2.
  unfold compare_versions, difference.
  rewrite !sscanf_version_text by assumption.
  pose proof (value_nonneg a1). pose proof (value_nonneg a2). pose proof (value_nonneg a3).
  pose proof (value_nonneg b1). pose proof (value_nonneg b2). pose proof (value_nonneg b3).
  set (r := if negb (value a1 =? value b1) then value a1 - value b1
            else if negb (value a2 =? value b2) then value a2 - value b2
                 else value a3 - value b3).
  assert (Hr : - 2 ^ 31 < r < 2 ^ 31).
  { unfold r. destruct (negb _); [ lia | ]. destruct (negb _); lia. }
  assert (Hints : forallb is_int [value a1; value a2; value a3;
                                  value b1; value b2; value b3; r] = true).
  { cbn [forallb]. unfold is_int.
    repeat (apply andb_true_intro; split);
      try (apply Z.leb_le; lia); try (apply Z.ltb_lt; lia); reflexivity. }
  now rewrite Hints.
Qed.

Lemma difference_sign a1 a2 a3 b1 b2 b3 :
  let r := difference (a1, a2, a3) (b1, b2, b3) in
  (r > 0 <-> newer (a1, a2, a3) (b1, b2, b3))
  /\ (r = 0 <-> a1 = b1 /\ a2 = b2 /\ a3 = b3)
  /\ (r < 0 <-> newer (b1, b2, b3) (a1, a2, a3)).
Proof.
  unfold difference, newer.
  destruct (Z.eqb_spec a1 b1); cbn [negb];
    [ destruct (Z.eqb_spec a2 b2); cbn [negb] | ]; lia.
Qed.

(** X21. On two well-formed version texts the comparison is defined, does not
    depend on what the uninitialised variables held, and orders the
    versions by major, then minor, then patch number: the result is
    positive exactly when the first version is the newer one, and zero
    exactly when the three numbers agree. *)
Theorem compare_versions_orders (stack1 stack2 : Z * Z * Z)
        (a1 a2 a3 b1 b2 b3 tail1 tail2 : string) :
  well_formed a1 a2 a3 -> well_formed b1 b2 b3 ->
  no_digit_head tail1 -> no_digit_head tail2 ->
  exists r,
    compare_versions stack1 stack2 (version_text a1 a2 a3 ++ tail1)
                     (version_text b1 b2 b3 ++ tail2) = Some r
    /\ (r > 0 <-> newer (value a1, value a2, value a3) (value b1, value b2, value b3))
    /\ (r = 0 <-> value a1 = value b1 /\ value a2 = value b2 /\ value a3 = value b3)
    /\ (r < 0 <-> newer (value b1, value b2, value b3) (value a1, value a2, value a3)).
Proof.
  intros Ha Hb Ht1 Ht2. eexists.
  split; [ now apply compare_versions_text | ].
  apply difference_sign.
Qed.

Lemma compare_versions_orders_witness :
  exists r,
    compare_versions (7, 8, 9) (-1, -2, -3) (version_text "1" "10" "0" ++ "")
                     (version_text "1" "9" "12" ++ "-rc1") = Some r
    /\ (r > 0 <-> newer (value "1", value "10", value "0") (value "1", value "9", value "12"))
    /\ (r = 0 <-> value "1" = value "1" /\ value "10" = value "9" /\ value "0" = value "12")
    /\ (r < 0 <-> newer (value "1", value "9", value "12") (value "1", value "10", value "0")).
Proof.
  apply (compare_versions_orders (7, 8, 9) (-1, -2, -3) "1" "10" "0" "1" "9" "12"
                                 "" "-rc1").
  - unfold well_formed, numeral. repeat split; try discriminate;
      try (repeat constructor); vm_compute; reflexivity.
  - unfold well_formed, numeral. repeat split; try discriminate;
      try (repeat constructor); vm_compute; reflexivity.
  - exact I.
  - reflexivity.
Defined.

(** *** The update decision *)

Lemma c_string_plain s :
  Forall (fun c => Ascii.eqb c zero = false) (list_ascii_of_string s) ->
  c_string s = s.
Proof.
  induction s as [ | c s IH ]; intros H; [ reflexivity | ].
  cbn [list_ascii_of_string] in H. inversion H as [ | ? ? Hc Hs ]; subst.
  cbn [c_string]. rewrite Hc, (IH Hs). reflexivity.
Qed.

Lemma trim_space_not_nul c : is_trim_space c = true -> Ascii.eqb c zero = false.
Proof.
  unfold is_trim_space. intros H.
  destruct (Ascii.eqb_spec c zero) as [-> | ]; [ discriminate | reflexivity ].
Qed.

Lemma numeral_plain ds :
  numeral ds ->
  Forall (fun c => Ascii.eqb c zero = false) (list_ascii_of_string ds)
  /\ ends_solid ds = true
  /\ exists c rest, ds = String c rest /\ is_trim_space c = false.
Proof.
  intros [Hne Hds]. split; [ | split ].
  - eapply Forall_impl; [ | exact Hds ]. intros c Hc. apply (digit_is_plain c Hc).
  - clear Hne. induction ds as [ | c ds IH ]; [ reflexivity | ].
    cbn [list_ascii_of_string] in Hds. inversion Hds as [ | ? ? Hc Hrest ]; subst.
    destruct ds as [ | d ds ].
    + cbn. destruct (digit_is_plain c Hc) as (_ & _ & _ & _ & -> & _). reflexivity.
    + change (ends_solid (String c (String d ds))) with (ends_solid (String d ds)).
      now apply IH.
  - destruct ds as [ | c rest ]; [ contradiction | ].
    exists c, rest. split; [ reflexivity | ].
    cbn [list_ascii_of_string] in Hds. inversion Hds as [ | ? ? Hc _ ]; subst.
    apply (digit_is_plain c Hc).
Qed.

Lemma ends_solid_app x y :
  y <> EmptyString -> ends_solid (x ++ y) = ends_solid y.
Proof.
  intros Hy. induction x as [ | c x IH ]; [ reflexivity | ].
  cbn [String.append]. destruct (x ++ y)%string eqn:E.
  - destruct x; [ cbn in E; contradiction | discriminate ].
  - exact IH.
Qed.

(** A well-formed version text begins and ends with a digit and holds no
    zero byte. *)
Lemma version_text_plain major minor patch :
  well_formed major minor patch ->
  Forall (fun c => Ascii.eqb c zero = false)
         (list_ascii_of_string (version_text major minor patch))
  /\ ends_solid (version_text major minor patch) = true
  /\ exists c rest, version_text major minor patch = String c rest
                    /\ is_trim_space c = false.
Proof.
  intros (H1 & H2 & H3 & _).
  destruct (numeral_plain _ H1) as (P1 & _ & c & rest & -> & Hc).
  destruct (numeral_plain _ H2) as (P2 & _ & _).
  destruct (numeral_plain _ H3) as (P3 & E3 & c3 & rest3 & Hp & _).
  unfold version_text. split; [ | split ].
  - rewrite !list_ascii_of_append.
    repeat (apply Forall_app; split); try assumption; now repeat constructor.
  - cbn [String.append].
    assert (Hcons : forall x s, s <> EmptyString ->
                                ends_solid (String x s) = ends_solid s)
      by (intros x [ | ? ? ] Hs; [ contradiction | reflexivity ]).
    change (String c (rest ++ String "."%char (minor ++ String "."%char patch)))
      with (String c rest ++ String "."%char (minor ++ String "."%char patch))%string.
    rewrite ends_solid_app by discriminate.
    rewrite Hcons by (destruct minor; discriminate).
    rewrite ends_solid_app by discriminate.
    rewrite Hcons by (subst patch; discriminate).
    exact E3.
  - exists c. eexists. split; [ reflexivity | exact Hc ].
Qed.

(** X22. When the server answers with a well-formed version text, surrounded
    by blanks or line ends at most, and the running firmware's version is
    well formed too, the check reports an update exactly when the server's
    version is the newer one: never for the same version, never for an
    older one.  The text handed back is the server's version, cut to the
    caller's buffer, and the HTTP client is cleaned up after the read. *)
Theorem update_only_when_newer (major minor patch pre post : string)
        (fw_major fw_minor fw_patch fw_tail : string)
        (stack1 stack2 : Z * Z * Z) (env : ota_env)
        (new_version : bool) (max_len : Z) :
  well_formed major minor patch -> well_formed fw_major fw_minor fw_patch ->
  no_digit_head fw_tail ->
  all_trim_space pre -> all_trim_space post ->
  client_ok env = true -> open_err env = 0 -> 0 < content_length env <= 32 ->
  read_bytes env = (pre ++ version_text major minor patch ++ post)%string ->
  read_len env = strlen (read_bytes env) ->
  exists update copied,
    ota_check_for_update true (version_text fw_major fw_minor fw_patch ++ fw_tail)
                         stack1 stack2 env new_version max_len
    = Some (update, copied,
            [http_client_init; http_client_open; http_client_fetch_headers;
             http_client_read 32; http_client_cleanup])
    /\ (update = true
        <-> newer (value major, value minor, value patch)
                  (value fw_major, value fw_minor, value fw_patch))
    /\ (update = true -> new_version = true -> 0 < max_len ->
        copied = Some (String.substring 0 (Z.to_nat (max_len - 1))
                                        (version_text major minor patch)))
    /\ (update = false -> copied = None).
Proof.
  intros Hv Hfw Htail Hpre Hpost Hclient Hopen Hcl Hbytes Hlen.
  destruct (version_text_plain _ _ _ Hv) as (Hplain & Hend & c & rest & Hvt & Hc).
  unfold ota_check_for_update. rewrite Hclient, Hopen. cbn [negb Z.eqb app].
  destruct (Z.leb_spec (content_length env) 0); [ lia | ].
  destruct (Z.gtb_spec (content_length env) 32); [ lia | ]. cbn [orb].
  assert (Hpos : 0 < read_len env).
  { rewrite Hlen, Hbytes, Hvt, !strlen_append.
    pose proof (strlen_nonneg pre). pose proof (strlen_nonneg post).
    pose proof (strlen_nonneg rest).
    unfold strlen at 2. cbn [String.length]. unfold strlen in *. lia. }
  destruct (Z.leb_spec (read_len env) 0); [ lia | ].
  assert (Hbuf : c_string (String.substring 0 (Z.to_nat (read_len env)) (read_bytes env))
                 = read_bytes env).
  { rewrite substring_whole by (rewrite Hlen; unfold strlen; lia).
    apply c_string_plain. rewrite Hbytes, !list_ascii_of_append.
    repeat (apply Forall_app; split); try assumption.
    - eapply Forall_impl; [ | exact Hpre ]. apply trim_space_not_nul.
    - eapply Forall_impl; [ | exact Hpost ]. apply trim_space_not_nul. }
  rewrite Hbuf, Hbytes, Hvt, trim_core by (rewrite <- ?Hvt; assumption).
  rewrite <- Hvt.
  pose proof (compare_versions_text stack1 stack2 major minor patch fw_major fw_minor
                                    fw_patch EmptyString fw_tail Hv Hfw I Htail)
    as Hcmp.
  rewrite append_nil_r in Hcmp. rewrite Hcmp.
  destruct (difference_sign (value major) (value minor) (value patch)
                            (value fw_major) (value fw_minor) (value fw_patch))
    as (Hgt & _ & _).
  cbv zeta in Hgt.
  destruct (Z.gtb_spec (difference (value major, value minor, value patch)
                                   (value fw_major, value fw_minor, value fw_patch)) 0)
    as [Hr | Hr].
  - do 2 eexists. split; [ reflexivity | ].
    split; [ split; [ intros _; apply Hgt; lia | reflexivity ] | ].
    split; [ | discriminate ].
    intros _ -> Hmax. destruct (Z.gtb_spec max_len 0); [ reflexivity | lia ].
  - do 2 eexists. split; [ reflexivity | ].
    split; [ split; [ discriminate | intros Hn; apply Hgt in Hn; lia ] | ].
    split; [ discriminate | reflexivity ].
Qed.

Lemma numeral_example_1_2_4 : well_formed "1" "2" "4".
Proof.
  unfold well_formed, numeral. repeat split; try discriminate;
    try (repeat constructor); vm_compute; reflexivity.
Qed.

Lemma numeral_example_1_2_3 : well_formed "1" "2" "3".
Proof.
  unfold well_formed, numeral. repeat split; try discriminate;
    try (repeat constructor); vm_compute; reflexivity.
Qed.

Lemma update_only_when_newer_witness :
  let env := {| client_ok := true; open_err := 0; content_length := 6;
                read_len := 6;
                read_bytes := ("" ++ version_text "1" "2" "4"
                                  ++ String "010"%char "")%string |} in
  exists update copied,
    ota_check_for_update true (version_text "1" "2" "3" ++ "") (0, 0, 0) (0, 0, 0)
                         env true 16
    = Some (update, copied,
            [http_client_init; http_client_open; http_client_fetch_headers;
             http_client_read 32; http_client_cleanup])
    /\ (update = true
        <-> newer (value "1", value "2", value "4") (value "1", value "2", value "3"))
    /\ (update = true -> true = true -> 0 < 16 ->
        copied = Some (String.substring 0 (Z.to_nat (16 - 1))
                                        (version_text "1" "2" "4")))
    /\ (update = false -> copied = None).
Proof.
  intros env.
  apply (update_only_when_newer "1" "2" "4" "" (String "010"%char "")
                                "1" "2" "3" "" (0, 0, 0) (0, 0, 0) env true 16).
  - exact numeral_example_1_2_4.
  - exact numeral_example_1_2_3.
  - exact I.
  - constructor.
  - repeat constructor.
  - reflexivity.
  - reflexivity.
  - cbn. lia.
  - reflexivity.
  - reflexivity.
Defined.

(** *** A version text with a number missing *)

(** X23. When the server's text holds only a major and a minor number, the
    patch number compared is whatever the uninitialised variable held: with
    major and minor equal to the running firmware's, the result is that
    value minus the firmware's patch number, so an update is reported
    exactly when the left-over value is the larger one. *)
Theorem missing_patch_reads_memory (major minor fw_major fw_minor fw_patch : string)
        (x y left_over : Z) (stack2 : Z * Z * Z) :
  numeral major -> numeral minor -> well_formed fw_major fw_minor fw_patch ->
  value major = value fw_major -> value minor = value fw_minor ->
  - 2 ^ 31 + value fw_patch <= left_over < 2 ^ 31 ->
  compare_versions (x, y, left_over) stack2 (major ++ "." ++ minor)
                   (version_text fw_major fw_minor fw_patch)
  = Some (left_over - value fw_patch).
Proof.
  intros Hma Hmi Hfw Emaj Emin Hleft.
  pose proof Hfw as (_ & _ & _ & L1 & L2 & L3).
  unfold compare_versions.
  destruct Hfw as (F1 & F2 & F3 & _).
  pose proof (sscanf_version_text fw_major fw_minor fw_patch EmptyString stack2
                                  F1 F2 F3 I) as Hfwscan.
  rewrite append_nil_r in Hfwscan. rewrite Hfwscan.
  assert (Hscan : sscanf_version (major ++ "." ++ minor) (x, y, left_over)
                  = (value major, value minor, left_over)).
  { unfold sscanf_version. cbn [String.append].
    rewrite (scan_d_numeral major _ Hma (dot_no_digit _)), expect_dot_dot.
    pose proof (scan_d_numeral minor EmptyString Hmi I) as Hminor.
    rewrite append_nil_r in Hminor. rewrite Hminor. reflexivity. }
  rewrite Hscan, Emaj, Emin, !Z.eqb_refl. cbn [negb].
  pose proof (value_nonneg fw_major). pose proof (value_nonneg fw_minor).
  pose proof (value_nonneg fw_patch).
  assert (Hints : forallb is_int [value fw_major; value fw_minor; left_over;
                                  value fw_major; value fw_minor; value fw_patch;
                                  left_over - value fw_patch] = true).
  { cbn [forallb]. unfold is_int.
    repeat (apply andb_true_intro; split);
      try (apply Z.leb_le; lia); try (apply Z.ltb_lt; lia); reflexivity. }
  now rewrite Hints.
Qed.

Lemma missing_patch_reads_memory_witness :
  compare_versions (0, 0, 1000) (0, 0, 0) ("1" ++ "." ++ "2")
                   (version_text "1" "2" "3")
  = Some (1000 - value "3").
Proof.
  apply (missing_patch_reads_memory "1" "2" "1" "2" "3" 0 0 1000 (0, 0, 0)).
  - split; [ discriminate | repeat constructor ].
  - split; [ discriminate | repeat constructor ].
  - exact numeral_example_1_2_3.
  - reflexivity.
  - reflexivity.
  - vm_compute. split; [ discriminate | reflexivity ].
Defined.

End OtaUpdateFacts.

(** ** The rover task *)

Module MainFacts.
Import Main.
Import NtripClient.

(** *** The calls into the correction client *)

Lemma check_stale_effect hz tick c :
  s_bytes_received (fst (ntrip_client_check_stale hz tick c)) = s_bytes_received c
  /\ existsb is_connect_attempt (snd (ntrip_client_check_stale hz tick c)) = false.
Proof.
  unfold ntrip_client_check_stale, ntrip_client_disconnect,
    ntrip_client_is_stale_calls.
  destruct (ntrip_client_is_stale hz tick c);
    [ | destruct (s_connected c); split; reflexivity ].
  destruct (0 <=? s_sock c); destruct (s_connected c); split; reflexivity.
Qed.

(** What [ntrip_client_receive] returns is positive only when it has
    added that number to the client's byte counter. *)
Lemma receive_effect max_len r tick c :
  let '(ret, c', calls) := ntrip_client_receive max_len r tick c in
  existsb is_connect_attempt calls = false
  /\ ((0 < ret /\ ret = received r
       /\ s_bytes_received c' = (s_bytes_received c + ret) mod 2 ^ 32)
      \/ (ret <= 0 /\ s_bytes_received c' = s_bytes_received c)).
Proof.
  unfold ntrip_client_receive.
  destruct (negb (s_connected c) || (s_sock c <? 0));
    [ split; [ reflexivity | right; split; [ lia | reflexivity ] ] | ].
  destruct (Z.ltb_spec (received r) 0).
  - destruct ((errno r =? EAGAIN) || (errno r =? EWOULDBLOCK));
      (split; [ reflexivity | right; split; [ lia | reflexivity ] ]).
  - destruct (Z.eqb_spec (received r) 0).
    + split; [ reflexivity | right; split; [ lia | reflexivity ] ].
    + split; [ reflexivity | left ]. cbn [s_bytes_received]. repeat split; lia.
Qed.

(** A connection attempt by a client that is not connected starts with
    the name lookup and leaves the byte counter alone. *)
Lemma connect_effect cfg env c r c' calls :
  s_connected c = false ->
  ntrip_client_connect cfg env c = Some (r, c', calls) ->
  s_bytes_received c' = s_bytes_received c
  /\ existsb is_connect_attempt calls = true.
Proof.
  intros Hc Hconn. unfold ntrip_client_connect in Hconn. rewrite Hc in Hconn.
  repeat match type of Hconn with
         | (if ?b then _ else _) = _ => destruct b eqn:?
         | match ?m with Some _ => _ | None => _ end = _ => destruct m as [[? ?] | ]
         end;
    try discriminate;
    injection Hconn as <- <- <-; cbn [s_bytes_received s_connected];
    split; reflexivity.
Qed.

Lemma reconnect_step_spec cfg env last c0 c1 la ok ev :
  reconnect_step cfg env last c0 = Some (c1, la, ok, ev) ->
  s_bytes_received c1 = s_bytes_received c0
  /\ rtcm_written ev = []
  /\ ((existsb is_connect_attempt (socket_calls ev) = true
       /\ wifi_connected env = true
       /\ elapsed_at_least (tick_attempt env) last
            (pdMS_TO_TICKS (tick_rate_hz cfg) (NTRIP_RECONNECT_INTERVAL_MS cfg)) = true
       /\ la = tick_attempt env)
      \/ (ev = [] /\ la = last)).
Proof.
  unfold reconnect_step. intros H.
  destruct (s_connected c0) eqn:Hc0; cbn [negb andb] in H.
  { injection H as <- <- <- <-. repeat split. right. split; reflexivity. }
  destruct (wifi_connected env) eqn:Hw.
  2: { injection H as <- <- <- <-. repeat split. right. split; reflexivity. }
  destruct (elapsed_at_least _ _ _) eqn:He.
  2: { injection H as <- <- <- <-. repeat split. right. split; reflexivity. }
  destruct (ntrip_client_connect _ _ c0) as [[[rc c] calls] | ] eqn:Hconn;
    [ | discriminate ].
  injection H as <- <- <- <-.
  destruct (connect_effect _ _ _ _ _ _ Hc0 Hconn) as (Hb & Hn).
  split; [ exact Hb | ]. split; [ reflexivity | ]. left.
  cbn [socket_calls flat_map]. rewrite app_nil_r. repeat split; assumption.
Qed.

Lemma forward_step_spec env rx tx ok c1 :
  received (recv_answer env) <= RTCM_BUFFER_SIZE ->
  let r := received (recv_answer env) in
  let '(c2, rx', tx', ok', ev) := forward_step env rx tx ok c1 in
  existsb is_connect_attempt (socket_calls ev) = false
  /\ (rx = s_bytes_received c1 -> rx' = s_bytes_received c2)
  /\ ((rtcm_written ev = [] /\ rx' = rx /\ tx' = tx)
      \/ (0 < r
          /\ rtcm_written ev = [firstn (Z.to_nat r) (recv_bytes env)]
          /\ rx' = uint32_add rx r
          /\ tx' = if write_ok env then uint32_add tx r else tx)).
Proof.
  intros Hmax r. unfold forward_step.
  destruct ok;
    [ | split; [ reflexivity | split; [ auto | left; repeat split ] ] ].
  pose proof (receive_effect RTCM_BUFFER_SIZE (recv_answer env) (tick_recv env) c1)
    as Hrecv.
  destruct (ntrip_client_receive _ _ _ c1) as [[ret c2] calls].
  destruct Hrecv as [Hn Hrecv].
  assert (Hsock : forall w, existsb is_connect_attempt
                              (socket_calls [ev_socket calls; ev_rtcm_write w]) = false).
  { intros w. cbn [socket_calls flat_map]. now rewrite !app_nil_r. }
  assert (Hsock1 : existsb is_connect_attempt (socket_calls [ev_socket calls]) = false).
  { cbn [socket_calls flat_map]. now rewrite !app_nil_r. }
  destruct (Z.gtb_spec ret 0) as [Hpos | Hnon].
  - destruct Hrecv as [(_ & Hret & Hb) | (Hle & _)]; [ | lia ].
    fold r in Hret. subst ret.
    unfold ZedRover.zed_rover_write_rtcm.
    destruct (Z.eqb_spec r 0); [ lia | ].
    assert (Hint : to_int32 r = r).
    { unfold to_int32, RTCM_BUFFER_SIZE in *. rewrite Z.mod_small; lia. }
    destruct (write_ok env); rewrite ?Hint.
    + destruct (Z.gtb_spec r 0); [ | lia ].
      split; [ apply Hsock | ].
      split; [ intros ->; unfold uint32_add; now rewrite Hb | ].
      right. cbn [rtcm_written flat_map app]. repeat split; lia.
    + change (-1 >? 0) with false. cbv iota.
      split; [ apply Hsock | ].
      split; [ intros ->; unfold uint32_add; now rewrite Hb | ].
      right. cbn [rtcm_written flat_map app]. repeat split; lia.
  - destruct Hrecv as [(Hlt & _) | (_ & Hb)]; [ lia | ].
    destruct (ret <? 0);
      (split; [ exact Hsock1 | ]);
      (split; [ intros ->; now rewrite Hb | ]);
      left; cbn [rtcm_written flat_map app]; repeat split.
Qed.

(** What [corrections_step] yields, read off its result. *)
Lemma corrections_step_spec cfg env st client rx tx last_attempt ntrip_ok events :
  corrections_step cfg env st = Some (client, rx, tx, last_attempt, ntrip_ok, events) ->
  received (recv_answer env) <= RTCM_BUFFER_SIZE ->
  let r := received (recv_answer env) in
  let interval := pdMS_TO_TICKS (tick_rate_hz cfg) (NTRIP_RECONNECT_INTERVAL_MS cfg) in
  (rtcm_bytes_received st = s_bytes_received (ntrip st) ->
   rx = s_bytes_received client)
  /\ ((rtcm_written events = [] /\ rx = rtcm_bytes_received st
       /\ tx = rtcm_bytes_sent st)
      \/ (0 < r
          /\ rtcm_written events = [firstn (Z.to_nat r) (recv_bytes env)]
          /\ rx = uint32_add (rtcm_bytes_received st) r
          /\ tx = if write_ok env then uint32_add (rtcm_bytes_sent st) r
                  else rtcm_bytes_sent st))
  /\ (existsb is_connect_attempt (socket_calls events) = true ->
      wifi_connected env = true
      /\ elapsed_at_least (tick_attempt env) (last_ntrip_attempt st) interval = true
      /\ last_attempt = tick_attempt env)
  /\ (existsb is_connect_attempt (socket_calls events) = false ->
      last_attempt = last_ntrip_attempt st).
Proof.
  intros Hstep Hmax r interval. unfold corrections_step in Hstep.
  destruct (check_stale_effect (tick_rate_hz cfg) (tick_check_stale env) (ntrip st))
    as [Hb0 Hn0].
  destruct (ntrip_client_check_stale _ _ _) as [c0 calls0]. cbn [fst snd] in Hb0, Hn0.
  destruct (reconnect_step cfg env (last_ntrip_attempt st) c0)
    as [[[[c1 la] ok1] ev1] | ] eqn:Hre; [ | discriminate ].
  destruct (reconnect_step_spec _ _ _ _ _ _ _ _ Hre) as (Hb1 & Hw1 & Hcases).
  pose proof (forward_step_spec env (rtcm_bytes_received st) (rtcm_bytes_sent st)
                                ok1 c1 Hmax) as Hfw.
  cbv zeta in Hfw.
  destruct (forward_step _ _ _ _ _) as [[[[c2 rx'] tx'] ok'] ev2].
  destruct Hfw as (Hn2 & Hinv & Hwr).
  injection Hstep as <- <- <- <- <- <-. cbn [app].
  assert (Hwritten : rtcm_written (ev_socket calls0 :: ev1 ++ ev2) = rtcm_written ev2).
  { unfold rtcm_written in *. cbn [flat_map app]. now rewrite flat_map_app, Hw1. }
  assert (Hattempt : existsb is_connect_attempt
                             (socket_calls (ev_socket calls0 :: ev1 ++ ev2))
                     = existsb is_connect_attempt (socket_calls ev1)).
  { unfold socket_calls in *. cbn [flat_map].
    rewrite flat_map_app, !existsb_app, Hn2, Hn0. now rewrite orb_false_r. }
  rewrite Hwritten, Hattempt.
  split; [ intros E; apply Hinv; now rewrite Hb1, Hb0 | ].
  split; [ exact Hwr | ].
  destruct Hcases as [(Ht & Hwifi & Hel & Hla) | (-> & Hla)].
  - rewrite Ht. split; [ intros _; auto | discriminate ].
  - cbn. split; [ discriminate | intros _; exact Hla ].
Qed.

Lemma is_stale_calls_no_attempt c :
  existsb is_connect_attempt (ntrip_client_is_stale_calls c) = false.
Proof. unfold ntrip_client_is_stale_calls. now destruct (s_connected c). Qed.

(** The parts of an iteration that follow [corrections_step] neither
    attempt a connection nor write to the receiver. *)
Lemma rover_iteration_parts cfg env st st' events :
  rover_iteration cfg env st = Some (st', events) ->
  exists ok ev0 ev1 got,
    corrections_step cfg env st
    = Some (ntrip st', rtcm_bytes_received st', rtcm_bytes_sent st',
            last_ntrip_attempt st', ok, ev0)
    /\ ZedRover.zed_rover_get_position (bus env) (ubx_buffer st) = Some got
    /\ ubx_buffer st' = ZedRover.buffer_out got
    /\ events = ev0 ++ ev1
    /\ rtcm_written ev1 = []
    /\ existsb is_connect_attempt (socket_calls ev1) = false
    /\ (if ZedRover.ret got then
          (position_count st', fixed_count st', float_count st', last_carr_soln st')
          = (let '(p, f, l, c, _, _) :=
               position_step cfg env st (rtcm_bytes_received st') (ZedRover.pos_out got)
             in (p, f, l, c))
        else
          (position_count st', fixed_count st', float_count st', last_carr_soln st')
          = (position_count st, fixed_count st, float_count st, last_carr_soln st)).
Proof.
  unfold rover_iteration. intros H.
  destruct (corrections_step cfg env st)
    as [[[[[[client rx] tx] la] ok] ev0] | ]; [ | discriminate ].
  destruct (ZedRover.zed_rover_get_position _ _) as [got | ]; [ | discriminate ].
  exists ok, ev0.
  assert (Hpos : forall rx pos,
             let '(_, _, _, _, _, ev) := position_step cfg env st rx pos in
             rtcm_written ev = [] /\ socket_calls ev = []).
  { intros rx0 pos. unfold position_step. cbv zeta.
    destruct (elapsed_at_least (tick_report env) _ _); [ | split; reflexivity ].
    destruct (DASHBOARD_ENABLED cfg); split; reflexivity. }
  assert (Hled : forall ev calls frames,
             rtcm_written ev = [] -> socket_calls ev = [] ->
             calls = ntrip_client_is_stale_calls client ->
             rtcm_written (ev ++ [ev_socket calls; ev_led frames]) = []
             /\ existsb is_connect_attempt
                        (socket_calls (ev ++ [ev_socket calls; ev_led frames])) = false).
  { intros ev calls frames Hw Hs ->. unfold rtcm_written, socket_calls in *.
    rewrite !flat_map_app, Hw, Hs. cbn [flat_map app]. rewrite app_nil_r.
    split; [ reflexivity | apply is_stale_calls_no_attempt ]. }
  destruct (ZedRover.ret got) eqn:Hret.
  - specialize (Hpos rx (ZedRover.pos_out got)).
    destruct (position_step cfg env st rx (ZedRover.pos_out got))
      as [[[[[p f] l] c] lr] ev1] eqn:Hps.
    destruct Hpos as [Hw1 Hs1].
    destruct (elapsed_at_least (tick_led_test env) _ _).
    + cbv zeta in H. destruct (led_step _ _ _ _ _) as [l' frames].
      injection H as <- <-. eexists. exists got.
      cbn [ntrip rtcm_bytes_received rtcm_bytes_sent last_ntrip_attempt ubx_buffer
           position_count fixed_count float_count last_carr_soln].
      rewrite Hret, Hps.
      destruct (Hled ev1 _ frames Hw1 Hs1 eq_refl) as [Hw Hs].
      do 4 (split; [ reflexivity | ]).
      split; [ exact Hw | ]. split; [ exact Hs | reflexivity ].
    + injection H as <- <-. eexists. exists got.
      cbn [ntrip rtcm_bytes_received rtcm_bytes_sent last_ntrip_attempt ubx_buffer
           position_count fixed_count float_count last_carr_soln].
      rewrite Hret, Hps.
      do 4 (split; [ reflexivity | ]).
      rewrite app_nil_r. split; [ exact Hw1 | ]. rewrite Hs1.
      split; reflexivity.
  - destruct (elapsed_at_least (tick_led_test env) _ _).
    + cbv zeta in H. destruct (led_step _ _ _ _ _) as [l' frames].
      injection H as <- <-. eexists. exists got.
      cbn [ntrip rtcm_bytes_received rtcm_bytes_sent last_ntrip_attempt ubx_buffer
           position_count fixed_count float_count last_carr_soln].
      rewrite Hret.
      destruct (Hled [] _ frames eq_refl eq_refl eq_refl) as [Hw Hs].
      do 4 (split; [ reflexivity | ]).
      split; [ exact Hw | ]. split; [ exact Hs | reflexivity ].
    + injection H as <- <-. eexists. exists got.
      cbn [ntrip rtcm_bytes_received rtcm_bytes_sent last_ntrip_attempt ubx_buffer
           position_count fixed_count float_count last_carr_soln].
      rewrite Hret. repeat split.
Qed.

Lemma events_split ev0 ev1 :
  rtcm_written ev1 = [] ->
  existsb is_connect_attempt (socket_calls ev1) = false ->
  rtcm_written (ev0 ++ ev1) = rtcm_written ev0
  /\ existsb is_connect_attempt (socket_calls (ev0 ++ ev1))
     = existsb is_connect_attempt (socket_calls ev0).
Proof.
  intros Hw Hs. unfold rtcm_written, socket_calls in *.
  rewrite !flat_map_app, existsb_app, Hw, Hs, app_nil_r, orb_false_r.
  split; reflexivity.
Qed.

(** *** Every iteration returns *)

Lemma corrections_step_total cfg env st :
  exists res, corrections_step cfg env st = Some res.
Proof.
  unfold corrections_step.
  destruct (ntrip_client_check_stale _ _ _) as [c0 calls0].
  assert (Hre : exists res, reconnect_step cfg env (last_ntrip_attempt st) c0 = Some res).
  { unfold reconnect_step. destruct (_ && _); [ | eauto ].
    destruct (elapsed_at_least _ _ _); [ | eauto ].
    destruct (NtripClientFacts.ntrip_client_connect_total
                (ntrip_config cfg) (connect_answers env) c0) as [[[r c] calls] ->].
    eauto. }
  destruct Hre as [[[[c1 la] ok] ev] ->].
  destruct (forward_step _ _ _ _ _) as [[[[c2 rx] tx] ok'] ev']. eauto.
Qed.

(** With bytes in the accumulator and on the bus, an iteration returns
    and leaves bytes in the accumulator, so the next one returns too. *)
Lemma rover_iteration_total cfg env st :
  bytes_ok (ubx_buffer st) ->
  match ZedRover.read_data (bus env) with
  | Some bytes => bytes_ok bytes
  | None => True
  end ->
  exists st' events,
    rover_iteration cfg env st = Some (st', events) /\ bytes_ok (ubx_buffer st').
Proof.
  intros Hbuf Hbus. unfold rover_iteration.
  destruct (corrections_step_total cfg env st)
    as [[[[[[client rx] tx] la] ok] ev0] ->].
  destruct (ZedRoverFacts.zed_rover_get_position_total (bus env) (ubx_buffer st)
              Hbuf Hbus) as [got Hgot].
  rewrite Hgot.
  pose proof (ZedRoverFacts.zed_rover_get_position_keeps_bytes
                (bus env) (ubx_buffer st) got Hbuf Hbus Hgot) as Hkeep.
  destruct (if ZedRover.ret got then _ else _) as [[[[[p f] l] c] lr] ev1].
  destruct (if elapsed_at_least (tick_led_test env) _ _ then _ else _)
    as [[l' ll] ev2].
  do 2 eexists. split; [ reflexivity | exact Hkeep ].
Qed.

(** *** What an iteration that returned has done *)

Lemma forwarding_of_iteration cfg env st st' events :
  rover_iteration cfg env st = Some (st', events) ->
  received (recv_answer env) <= RTCM_BUFFER_SIZE ->
  let r := received (recv_answer env) in
  (rtcm_bytes_received st = s_bytes_received (ntrip st) ->
   rtcm_bytes_received st' = s_bytes_received (ntrip st'))
  /\ ((rtcm_written events = []
       /\ rtcm_bytes_received st' = rtcm_bytes_received st
       /\ rtcm_bytes_sent st' = rtcm_bytes_sent st)
      \/ (0 < r
          /\ rtcm_written events = [firstn (Z.to_nat r) (recv_bytes env)]
          /\ rtcm_bytes_received st' = uint32_add (rtcm_bytes_received st) r
          /\ rtcm_bytes_sent st'
             = if write_ok env then uint32_add (rtcm_bytes_sent st) r
               else rtcm_bytes_sent st)).
Proof.
  intros Hit Hmax r.
  destruct (rover_iteration_parts _ _ _ _ _ Hit)
    as (ok & ev0 & ev1 & got & Hstep & _ & _ & -> & Hw1 & Hs1 & _).
  destruct (events_split ev0 ev1 Hw1 Hs1) as [-> _].
  destruct (corrections_step_spec _ _ _ _ _ _ _ _ _ Hstep Hmax) as (Hinv & Hcases & _).
  split; assumption.
Qed.

(** Whether the reconnection branch makes an attempt. *)
Lemma reconnect_step_attempt cfg env last c0 c1 la ok ev :
  reconnect_step cfg env last c0 = Some (c1, la, ok, ev) ->
  existsb is_connect_attempt (socket_calls ev)
  = negb (s_connected c0) && wifi_connected env
    && elapsed_at_least (tick_attempt env) last
         (pdMS_TO_TICKS (tick_rate_hz cfg) (NTRIP_RECONNECT_INTERVAL_MS cfg)).
Proof.
  unfold reconnect_step. intros H.
  destruct (s_connected c0) eqn:Hc0; cbn [negb andb] in *.
  { now injection H as <- <- <- <-. }
  destruct (wifi_connected env); cbn [andb] in *.
  2: { now injection H as <- <- <- <-. }
  destruct (elapsed_at_least _ _ _).
  2: { now injection H as <- <- <- <-. }
  destruct (ntrip_client_connect _ _ c0) as [[[rc c] calls] | ] eqn:Hconn;
    [ | discriminate ].
  injection H as <- <- <- <-.
  destruct (connect_effect _ _ _ _ _ _ Hc0 Hconn) as (_ & Hn).
  cbn [socket_calls flat_map]. rewrite app_nil_r. exact Hn.
Qed.

Lemma attempts_of_iteration cfg env st st' events :
  rover_iteration cfg env st = Some (st', events) ->
  received (recv_answer env) <= RTCM_BUFFER_SIZE ->
  let interval := pdMS_TO_TICKS (tick_rate_hz cfg) (NTRIP_RECONNECT_INTERVAL_MS cfg) in
  let client :=
    fst (ntrip_client_check_stale (tick_rate_hz cfg) (tick_check_stale env) (ntrip st)) in
  let due := negb (s_connected client) && wifi_connected env
             && elapsed_at_least (tick_attempt env) (last_ntrip_attempt st) interval in
  existsb is_connect_attempt (socket_calls events) = due
  /\ (due = true ->
      (tick_attempt env - last_ntrip_attempt st) mod 2 ^ 32 >= interval
      /\ last_ntrip_attempt st' = tick_attempt env)
  /\ (due = false -> last_ntrip_attempt st' = last_ntrip_attempt st).
Proof.
  intros Hit Hmax interval client due.
  destruct (rover_iteration_parts _ _ _ _ _ Hit)
    as (ok & ev0 & ev1 & got & Hstep & _ & _ & -> & Hw1 & Hs1 & _).
  destruct (events_split ev0 ev1 Hw1 Hs1) as [_ ->].
  destruct (corrections_step_spec _ _ _ _ _ _ _ _ _ Hstep Hmax)
    as (_ & _ & Hyes & Hno).
  assert (Hdue : existsb is_connect_attempt (socket_calls ev0) = due).
  { clear Hyes Hno. unfold corrections_step in Hstep.
    destruct (check_stale_effect (tick_rate_hz cfg) (tick_check_stale env) (ntrip st))
      as [_ Hn0].
    unfold due, client.
    destruct (ntrip_client_check_stale _ _ _) as [c0 calls0]. cbn [fst snd] in *.
    destruct (reconnect_step cfg env (last_ntrip_attempt st) c0)
      as [[[[c1 la] ok1] ev1'] | ] eqn:Hre; [ | discriminate ].
    pose proof (reconnect_step_attempt _ _ _ _ _ _ _ _ Hre) as Hat.
    pose proof (forward_step_spec env (rtcm_bytes_received st) (rtcm_bytes_sent st)
                                  ok1 c1 Hmax) as Hfw.
    cbv zeta in Hfw.
    destruct (forward_step _ _ _ _ _) as [[[[c2 rx'] tx'] ok'] ev2].
    destruct Hfw as (Hn2 & _).
    injection Hstep as _ _ _ _ _ <-.
    unfold socket_calls in *. cbn [flat_map app].
    rewrite flat_map_app, !existsb_app, Hn0, Hn2, orb_false_r. exact Hat. }
  split; [ exact Hdue | ]. rewrite <- Hdue. split; [ | exact Hno ].
  intros Ha. destruct (Hyes Ha) as (_ & Hel & Hla).
  split; [ | exact Hla ].
  unfold elapsed_at_least in Hel. apply Z.geb_le in Hel.
  fold interval in Hel. lia.
Qed.

Lemma counting_of_iteration cfg env st st' events :
  rover_iteration cfg env st = Some (st', events) ->
  0 <= fixed_count st -> 0 <= float_count st ->
  fixed_count st + float_count st <= position_count st < 2 ^ 32 - 1 ->
  exists got,
    ZedRover.zed_rover_get_position (bus env) (ubx_buffer st) = Some got
    /\ ubx_buffer st' = ZedRover.buffer_out got
    /\ (ZedRover.ret got = false ->
        (position_count st', fixed_count st', float_count st', last_carr_soln st')
        = (position_count st, fixed_count st, float_count st, last_carr_soln st))
    /\ (ZedRover.ret got = true ->
        let c := ZedRover.carr_soln (ZedRover.pos_out got) in
        position_count st' = position_count st + 1
        /\ fixed_count st' = fixed_count st + (if c =? 2 then 1 else 0)
        /\ float_count st' = float_count st + (if c =? 1 then 1 else 0)
        /\ last_carr_soln st' = c)
    /\ 0 <= fixed_count st' /\ 0 <= float_count st'
    /\ fixed_count st' + float_count st' <= position_count st'.
Proof.
  intros Hit Hf Hl Hinv.
  destruct (rover_iteration_parts _ _ _ _ _ Hit)
    as (ok & ev0 & ev1 & got & _ & Hgot & Hbuf & _ & _ & _ & Hcount).
  exists got. split; [ exact Hgot | ]. split; [ exact Hbuf | ].
  assert (Hadd : forall x, 0 <= x < 2 ^ 32 - 1 -> uint32_add x 1 = x + 1).
  { intros x Hx. unfold uint32_add. apply Z.mod_small. lia. }
  destruct (ZedRover.ret got).
  - assert (Hc : position_count st' = position_count st + 1
                 /\ fixed_count st'
                    = fixed_count st
                      + (if ZedRover.carr_soln (ZedRover.pos_out got) =? 2 then 1 else 0)
                 /\ float_count st'
                    = float_count st
                      + (if ZedRover.carr_soln (ZedRover.pos_out got) =? 1 then 1 else 0)
                 /\ last_carr_soln st' = ZedRover.carr_soln (ZedRover.pos_out got)).
    { unfold position_step in Hcount. cbv zeta in Hcount.
      destruct (elapsed_at_least (tick_report env) _ _);
        injection Hcount as Hp Hfx Hfl Hc;
        rewrite Hp, Hfx, Hfl, Hc, (Hadd (position_count st)) by lia;
        destruct (Z.eqb_spec (ZedRover.carr_soln (ZedRover.pos_out got)) 2) as [E2 | E2];
        destruct (Z.eqb_spec (ZedRover.carr_soln (ZedRover.pos_out got)) 1) as [E1 | E1];
        try lia; rewrite ?(Hadd (fixed_count st)), ?(Hadd (float_count st)) by lia;
        repeat split; lia. }
    destruct Hc as (Hp & Hfx & Hfl & Hc).
    split; [ discriminate | ]. split; [ intros _; cbv zeta; auto | ].
    rewrite Hp, Hfx, Hfl.
    destruct (_ =? 2) eqn:E2; destruct (_ =? 1) eqn:E1; try lia;
      apply Z.eqb_eq in E2, E1; lia.
  - injection Hcount as Hp Hfx Hfl Hc. rewrite Hp, Hfx, Hfl, Hc.
    split; [ reflexivity | ]. split; [ discriminate | lia ].
Qed.

(** *** The three properties of an iteration *)

(** X24. With bytes in the accumulator and on the bus, an iteration of the
    task returns.  The task's count of received bytes stays equal to the
    client's own counter, and every chunk of corrections received is
    written to the receiver in the same iteration, once and unchanged:
    either nothing was received, nothing is written and both counters
    stand still, or the chunk of [r] bytes just received is written, the
    receive counter goes up by [r], and the sent counter goes up by [r]
    exactly when the write succeeded. *)
Theorem corrections_forwarded (cfg : rover_config) (env : rover_env)
        (st : rover_state) :
  bytes_ok (ubx_buffer st) ->
  match ZedRover.read_data (bus env) with
  | Some bytes => bytes_ok bytes
  | None => True
  end ->
  received (recv_answer env) <= RTCM_BUFFER_SIZE ->
  let r := received (recv_answer env) in
  exists st' events,
    rover_iteration cfg env st = Some (st', events)
    /\ (rtcm_bytes_received st = s_bytes_received (ntrip st) ->
        rtcm_bytes_received st' = s_bytes_received (ntrip st'))
    /\ ((rtcm_written events = []
         /\ rtcm_bytes_received st' = rtcm_bytes_received st
         /\ rtcm_bytes_sent st' = rtcm_bytes_sent st)
        \/ (0 < r
            /\ rtcm_written events = [firstn (Z.to_nat r) (recv_bytes env)]
            /\ rtcm_bytes_received st' = uint32_add (rtcm_bytes_received st) r
            /\ rtcm_bytes_sent st'
               = if write_ok env then uint32_add (rtcm_bytes_sent st) r
                 else rtcm_bytes_sent st)).
Proof.
  intros Hbuf Hbus Hmax r.
  destruct (rover_iteration_total cfg env st Hbuf Hbus) as (st' & events & Hit & _).
  exists st', events. split; [ exact Hit | ].
  exact (forwarding_of_iteration cfg env st st' events Hit Hmax).
Qed.

(** X25. With bytes in the accumulator and on the bus, an iteration of the
    task returns.  It attempts a connection to the caster exactly when,
    after the staleness check, the client is not connected, WiFi is up, and
    at least the reconnection interval has gone by, on the wrapping tick
    counter, since the tick held in [last_ntrip_attempt]: the tick of the
    task's previous attempt, or 0 before its first one (the attempt made
    by [app_main] is not recorded).  The tick of an attempt is stored in
    [last_ntrip_attempt]; an iteration without an attempt leaves it
    alone. *)
Theorem reconnect_rate_limited (cfg : rover_config) (env : rover_env)
        (st : rover_state) :
  bytes_ok (ubx_buffer st) ->
  match ZedRover.read_data (bus env) with
  | Some bytes => bytes_ok bytes
  | None => True
  end ->
  received (recv_answer env) <= RTCM_BUFFER_SIZE ->
  let interval := pdMS_TO_TICKS (tick_rate_hz cfg) (NTRIP_RECONNECT_INTERVAL_MS cfg) in
  let client :=
    fst (ntrip_client_check_stale (tick_rate_hz cfg) (tick_check_stale env) (ntrip st)) in
  let due := negb (s_connected client) && wifi_connected env
             && elapsed_at_least (tick_attempt env) (last_ntrip_attempt st) interval in
  exists st' events,
    rover_iteration cfg env st = Some (st', events)
    /\ existsb is_connect_attempt (socket_calls events) = due
    /\ (due = true ->
        (tick_attempt env - last_ntrip_attempt st) mod 2 ^ 32 >= interval
        /\ last_ntrip_attempt st' = tick_attempt env)
    /\ (due = false -> last_ntrip_attempt st' = last_ntrip_attempt st).
Proof.
  intros Hbuf Hbus Hmax interval client due.
  destruct (rover_iteration_total cfg env st Hbuf Hbus) as (st' & events & Hit & _).
  exists st', events. split; [ exact Hit | ].
  exact (attempts_of_iteration cfg env st st' events Hit Hmax).
Qed.

(** X26. With bytes in the accumulator and on the bus, an iteration of the
    task returns and leaves bytes in the accumulator.  Every fix the
    receiver driver returns is counted once: the position counter goes up
    by one exactly when a fix is returned, the fixed or the float counter
    with it according to the fix's carrier solution, which is remembered
    for the status light; without a fix nothing is counted.  Short of the
    32-bit wrap of the position counter, the fixed and float counts
    together never exceed the number of positions. *)
Theorem fixes_counted_once (cfg : rover_config) (env : rover_env)
        (st : rover_state) :
  bytes_ok (ubx_buffer st) ->
  match ZedRover.read_data (bus env) with
  | Some bytes => bytes_ok bytes
  | None => True
  end ->
  0 <= fixed_count st -> 0 <= float_count st ->
  fixed_count st + float_count st <= position_count st < 2 ^ 32 - 1 ->
  exists st' events got,
    rover_iteration cfg env st = Some (st', events)
    /\ bytes_ok (ubx_buffer st')
    /\ ZedRover.zed_rover_get_position (bus env) (ubx_buffer st) = Some got
    /\ ubx_buffer st' = ZedRover.buffer_out got
    /\ (ZedRover.ret got = false ->
        (position_count st', fixed_count st', float_count st', last_carr_soln st')
        = (position_count st, fixed_count st, float_count st, last_carr_soln st))
    /\ (ZedRover.ret got = true ->
        let c := ZedRover.carr_soln (ZedRover.pos_out got) in
        position_count st' = position_count st + 1
        /\ fixed_count st' = fixed_count st + (if c =? 2 then 1 else 0)
        /\ float_count st' = float_count st + (if c =? 1 then 1 else 0)
        /\ last_carr_soln st' = c)
    /\ 0 <= fixed_count st' /\ 0 <= float_count st'
    /\ fixed_count st' + float_count st' <= position_count st'.
Proof.
  intros Hbuf Hbus Hf Hl Hinv.
  destruct (rover_iteration_total cfg env st Hbuf Hbus) as (st' & events & Hit & Hok).
  destruct (counting_of_iteration cfg env st st' events Hit Hf Hl Hinv)
    as (got & Hgot).
  exists st', events, got. split; [ exact Hit | ]. split; [ exact Hok | exact Hgot ].
Qed.

(** *** The sample iteration *)

Lemma sample_bus_bytes :
  match ZedRover.read_data (bus sample_env) with
  | Some bytes => bytes_ok bytes
  | None => True
  end.
Proof.
  cbn [ZedRover.read_data bus sample_env ZedRover.bus_with].
  unfold bytes_ok, byte_ok. vm_compute. repeat constructor; discriminate.
Qed.

Lemma corrections_forwarded_witness :
  let st := rover_start streaming_example Led.led_start in
  exists st' events,
    rover_iteration sample_config sample_env st = Some (st', events)
    /\ (rtcm_bytes_received st = s_bytes_received (ntrip st) ->
        rtcm_bytes_received st' = s_bytes_received (ntrip st'))
    /\ ((rtcm_written events = []
         /\ rtcm_bytes_received st' = rtcm_bytes_received st
         /\ rtcm_bytes_sent st' = rtcm_bytes_sent st)
        \/ (0 < 3
            /\ rtcm_written events = [firstn (Z.to_nat 3) (recv_bytes sample_env)]
            /\ rtcm_bytes_received st' = uint32_add (rtcm_bytes_received st) 3
            /\ rtcm_bytes_sent st'
               = if write_ok sample_env then uint32_add (rtcm_bytes_sent st) 3
                 else rtcm_bytes_sent st)).
Proof.
  intros st.
  apply (corrections_forwarded sample_config sample_env st).
  - constructor.
  - exact sample_bus_bytes.
  - vm_compute. discriminate.
Defined.

Lemma reconnect_rate_limited_witness :
  let st := rover_start client_init Led.led_start in
  exists st' events,
    rover_iteration sample_config sample_env st = Some (st', events)
    /\ existsb is_connect_attempt (socket_calls events) = true
    /\ (true = true ->
        (tick_attempt sample_env - last_ntrip_attempt st) mod 2 ^ 32
        >= pdMS_TO_TICKS 100 5000
        /\ last_ntrip_attempt st' = tick_attempt sample_env)
    /\ (true = false -> last_ntrip_attempt st' = last_ntrip_attempt st).
Proof.
  intros st.
  apply (reconnect_rate_limited sample_config sample_env st).
  - constructor.
  - exact sample_bus_bytes.
  - vm_compute. discriminate.
Defined.

Lemma fixes_counted_once_witness :
  let st := rover_start streaming_example Led.led_start in
  exists st' events got,
    rover_iteration sample_config sample_env st = Some (st', events)
    /\ bytes_ok (ubx_buffer st')
    /\ ZedRover.zed_rover_get_position (bus sample_env) (ubx_buffer st) = Some got
    /\ ubx_buffer st' = ZedRover.buffer_out got
    /\ (ZedRover.ret got = false ->
        (position_count st', fixed_count st', float_count st', last_carr_soln st')
        = (position_count st, fixed_count st, float_count st, last_carr_soln st))
    /\ (ZedRover.ret got = true ->
        let c := ZedRover.carr_soln (ZedRover.pos_out got) in
        position_count st' = position_count st + 1
        /\ fixed_count st' = fixed_count st + (if c =? 2 then 1 else 0)
        /\ float_count st' = float_count st + (if c =? 1 then 1 else 0)
        /\ last_carr_soln st' = c)
    /\ 0 <= fixed_count st' /\ 0 <= float_count st'
    /\ fixed_count st' + float_count st' <= position_count st'.
Proof.
  intros st.
  apply (fixes_counted_once sample_config sample_env st).
  - constructor.
  - exact sample_bus_bytes.
  - cbn. lia.
  - cbn. lia.
  - cbn. lia.
Defined.

(** In the sample iteration the three bytes are forwarded, the fix is an
    RTK-fixed one and is counted, reported and sent to the dashboard with
    the battery level, and the light turns green. *)
Example sample_iteration_run :
  let st := rover_start streaming_example Led.led_start in
  match rover_iteration sample_config sample_env st with
  | Some (st', events) =>
      rtcm_written events = [[0xD3; 0x00; 0x13]]
      /\ (rtcm_bytes_received st', rtcm_bytes_sent st') = (3, 3)
      /\ (position_count st', fixed_count st', float_count st', last_carr_soln st')
         = (1, 1, 0, 2)
      /\ ubx_buffer st' = []
      /\ existsb (fun e => match e with
                           | ev_dashboard _ 3 1 0 87 => true
                           | _ => false
                           end) events = true
  | None => False
  end.
Proof. vm_compute. repeat split. Qed.

End MainFacts.
